(** * Eisla component placement engine (python/placement.py)

    A shallow embedding of the placement stage: reference-designator
    assignment, the zone model, the rule-based seed placement, the score
    function and the simulated-annealing loop, followed by the properties
    the design document states about them.

    Modelling conventions.
    - Python floats are idealised as real numbers ([R]): [abs] is [Rabs],
      [max]/[min] are [Rmax]/[Rmin], [math.hypot a b] is
      [sqrt (a*a + b*b)], [math.exp] is [exp].  Comparisons are decided
      with [Rlt_dec].
    - Python dictionaries are [gmap string _]; a subscript [d[k]] on a
      missing key raises [KeyError], which is modelled by [None].
    - The component catalogue (data/components.json, read through
      [get_comp]) is a parameter [db].
    - The module-level generator of [random] is ambient state: it is
      modelled by the sequence of its outcomes (a [tape]) and the number
      of draws made so far.  [time.monotonic] is modelled likewise by the
      sequence of its readings. *)

From Stdlib Require Import Reals Lra Lia ZArith Ascii.
From stdpp Require Import gmap strings list pretty.

Open Scope R_scope.

(** ** Data model *)

Record dims := { width : R; height : R }.

(** One entry of components.json; every key is optional. *)
Record catalog_entry := {
  ref_designator_prefix : option string;
  subcategory : option string;
  category : option string;
  placement_zone : option string;
  placement_priority : option Z;
  dimensions_mm : option dims;
  courtyard_clearance_mm : option R
}.

(** The empty dictionary [{}] returned for an unknown component id. *)
Definition empty_entry : catalog_entry :=
  {| ref_designator_prefix := None; subcategory := None; category := None;
     placement_zone := None; placement_priority := None;
     dimensions_mm := None; courtyard_clearance_mm := None |}.

(** An element of [resolved_components] in resolved.json. *)
Record resolved_component := {
  rc_component_id : string;
  rc_display_name : option string
}.

(** The same with the ["ref"] key added by [assign_refs]. *)
Record component := {
  component_id : string;
  display_name : option string;
  ref : string
}.

(** A value of the placement dictionary: [{"x":_, "y":_, "rotation":_}]. *)
Record pos := { x : R; y : R; rotation : Z }.

Abbreviation placement_t := (gmap string pos).
Abbreviation catalog := (gmap string catalog_entry).

(** Python's [a or b] on an optional string: [None] and [""] are falsy. *)
Definition truthy (o : option string) : option string :=
  match o with
  | Some s => if decide (s = "") then None else Some s
  | None => None
  end.

Definition or_else {A} (o : option A) (d : A) : A :=
  match o with Some a => a | None => d end.

(** ** Fallback tables *)

Definition FALLBACK_DIMS : gmap string dims :=
  list_to_map
    [ ("mcu",          {| width := 10; height := 10 |});
      ("power",        {| width := 6;  height := 4 |});
      ("sensor",       {| width := 5;  height := 4 |});
      ("comms",        {| width := 16; height := 16 |});
      ("motor_driver", {| width := 5;  height := 5 |});
      ("display",      {| width := 30; height := 25 |});
      ("connector",    {| width := 8;  height := 6 |});
      ("passive",      {| width := 1;  height := 0.5 |});
      ("default",      {| width := 5;  height := 5 |}) ].

Definition FALLBACK_DIMS_default : dims := {| width := 5; height := 5 |}.

Definition FALLBACK_ZONE : gmap string string :=
  list_to_map
    [ ("mcu", "centre"); ("power", "power_column"); ("sensor", "centre_right");
      ("comms", "edge_top"); ("motor_driver", "edge_bottom");
      ("display", "edge_top"); ("connector", "edge_bottom");
      ("passive", "any") ].

Definition FALLBACK_PRIORITY : gmap string Z :=
  list_to_map
    [ ("mcu", 1%Z); ("comms", 2%Z); ("connector", 3%Z); ("power", 4%Z);
      ("motor_driver", 5%Z); ("display", 6%Z); ("sensor", 7%Z);
      ("passive", 9%Z) ].

Definition PREFIX_FALLBACK : gmap string string :=
  list_to_map
    [ ("mcu", "U"); ("power", "U"); ("sensor", "U"); ("comms", "U");
      ("motor_driver", "U"); ("display", "LCD"); ("connector", "J");
      ("passive", "?") ].

Definition SUB_PREFIX : gmap string string :=
  list_to_map
    [ ("capacitor", "C"); ("resistor", "R"); ("diode", "D");
      ("diode_flyback", "D"); ("led", "LED"); ("mosfet_n", "Q");
      ("mosfet_p", "Q"); ("tvs_esd", "D"); ("tvs_diode", "D");
      ("crystal", "X"); ("inductor", "L"); ("fuse", "F");
      ("test_point", "TP"); ("fiducial", "FID") ].

(** ** Catalogue access and reference designators *)

Section Catalogue.

Variable db : catalog.

Definition get_comp (component_id : string) : catalog_entry :=
  or_else (db !! component_id) empty_entry.

(** [comp.get("ref_designator_prefix") or SUB_PREFIX.get(comp.get("subcategory", ""))
     or PREFIX_FALLBACK.get(comp.get("category", ""), "U")] *)
Definition ref_prefix (comp : catalog_entry) : string :=
  or_else (truthy (ref_designator_prefix comp))
    (or_else (truthy (SUB_PREFIX !! or_else (subcategory comp) ""))
       (or_else (PREFIX_FALLBACK !! or_else (category comp) "") "U")).

(** One turn of the loop of [assign_refs]: the state is the pair of the
    [counters] dictionary and the [result] list. *)
Definition assign_step (st : gmap string nat * list component)
    (rc : resolved_component) : gmap string nat * list component :=
  let '(counters, result) := st in
  let comp := get_comp (rc_component_id rc) in
  let prefix := ref_prefix comp in
  let n := (or_else (counters !! prefix) 0 + 1)%nat in
  (<[prefix := n]> counters,
   result ++ [ {| component_id := rc_component_id rc;
                  display_name := rc_display_name rc;
                  ref := prefix +:+ pretty n |} ]).

Definition assign_refs (components : list resolved_component) : list component :=
  snd (fold_left assign_step components (∅, [])).


(** ** Zone model *)

(** [zone_centre]: the dictionary [zones] is rebuilt from the board at each
    call; a name that is not a key yields the centre of the board. *)
Definition zones (w h margin : R) : gmap string (R * R) :=
  let inner_w := w - 2 * margin in
  let inner_h := h - 2 * margin in
  list_to_map
    [ ("edge_top",     (w / 2, margin + inner_h * 0.1));
      ("edge_bottom",  (w / 2, margin + inner_h * 0.9));
      ("edge_left",    (margin + inner_w * 0.1, h / 2));
      ("edge_right",   (margin + inner_w * 0.9, h / 2));
      ("centre",       (w / 2, h / 2));
      ("centre_right", (margin + inner_w * 0.7, h / 2));
      ("power_column", (margin + inner_w * 0.15, h / 2));
      ("any",          (w / 2, h / 2)) ].

Definition zone_centre (zone : string) (w h margin : R) : R * R :=
  or_else (zones w h margin !! zone) (w / 2, h / 2).

(** The catalogue look-ups with their fall-backs, as they are repeated in
    [initial_placement], [get_dims], [zone_penalty], the translate move
    and [run]. *)
Definition zone_of (comp : catalog_entry) : string :=
  or_else (truthy (placement_zone comp))
    (or_else (FALLBACK_ZONE !! or_else (category comp) "") "any").

Definition dims_of (comp : catalog_entry) : dims :=
  or_else (dimensions_mm comp)
    (or_else (FALLBACK_DIMS !! or_else (category comp) "") FALLBACK_DIMS_default).

Definition priority_of (comp : catalog_entry) : Z :=
  or_else (placement_priority comp)
    (or_else (FALLBACK_PRIORITY !! or_else (category comp) "") 9%Z).

(** ** Ambient state: the [random] module and the monotonic clock *)

(** The outcomes of the module-level generator, indexed by the number of
    draws made before: [t_unit k] is what [random.random()] returns when
    it is the k-th draw (a value of the interval [0,1) on every realisable
    tape), [t_normal k] the standard normal variate behind
    [random.gauss], [t_nat k] the integer behind [random.choice] and
    [random.sample]. *)
Record tape := { t_unit : nat -> R; t_normal : nat -> R; t_nat : nat -> nat }.

Definition realisable (tp : tape) : Prop := forall k, 0 <= t_unit tp k < 1.

Section Ambient.

Variable tp : tape.
(** [clock k] is the value of the k-th call of [time.monotonic()]. *)
Variable clock : nat -> R.

Definition random_random (g : nat) : R * nat := (t_unit tp g, S g).

(** [random.uniform(a, b)] is [a + (b - a) * random()]. *)
Definition random_uniform (a b : R) (g : nat) : R * nat :=
  (a + (b - a) * t_unit tp g, S g).

Definition random_gauss (mu sigma : R) (g : nat) : R * nat :=
  (mu + t_normal tp g * sigma, S g).

(** [random.choice(seq)]: an element of [seq]; [IndexError] on [[]]. *)
Definition random_choice (seq : list string) (g : nat) : option string * nat :=
  (seq !! (t_nat tp g mod length seq)%nat, S g).

(** [random.sample(seq, 2)]: the elements at two distinct positions;
    [ValueError] when [seq] has fewer than two elements. *)
Definition random_sample2 (seq : list string) (g : nat)
    : option (string * string) * nat :=
  let n := length seq in
  let i := (t_nat tp g mod n)%nat in
  let j' := (t_nat tp (S g) mod (n - 1))%nat in
  let j := if (j' <? i)%nat then j' else S j' in
  (if (n <? 2)%nat then None
   else match seq !! i, seq !! j with
        | Some a, Some b => Some (a, b)
        | _, _ => None
        end,
   S (S g)).

(** ** Rounding *)

(** Nearest integer, ties to the even one. *)
Definition round_half_even (r : R) : Z :=
  let f := Int_part r in
  if Rlt_dec (r - IZR f) (1 / 2) then f
  else if Rlt_dec (1 / 2) (r - IZR f) then (f + 1)%Z
  else if Z.even f then f else (f + 1)%Z.

(** [round(v, ndigits)] *)
Definition py_round (v : R) (ndigits : nat) : R :=
  IZR (round_half_even (v * 10 ^ ndigits)) / 10 ^ ndigits.

(** ** Initial placement *)

(** [sorted(components, key=...)]: a stable sort on the priority. *)
Definition sort_key (rc : component) : Z :=
  priority_of (get_comp (component_id rc)).

Fixpoint insert_sorted (rc : component) (l : list component) : list component :=
  match l with
  | [] => [rc]
  | rc' :: l' =>
      if (sort_key rc <=? sort_key rc')%Z then rc :: l
      else rc' :: insert_sorted rc l'
  end.

Definition sorted (l : list component) : list component :=
  fold_right insert_sorted [] l.

(** The body of the loop of [initial_placement]; the state is
    [(placement, zone_offsets, draws made)]. *)
Definition initial_step (w h margin : R)
    (st : placement_t * gmap string nat * nat) (rc : component)
    : placement_t * gmap string nat * nat :=
  let '(placement, zone_offsets, g) := st in
  let comp := get_comp (component_id rc) in
  let zone := zone_of comp in
  let dims := dims_of comp in
  let '(cx, cy) := zone_centre zone w h margin in
  let n := or_else (zone_offsets !! zone) 0%nat in
  let row := (n / 4)%nat in
  let col := (n mod 4)%nat in
  let step_x := Rmax (width dims + 2) 6 in
  let step_y := Rmax (height dims + 2) 6 in
  let offset_x := (INR col - 1.5) * step_x in
  let offset_y := (INR row - 0.5) * step_y in
  let '(jx, g1) := random_uniform (-1) 1 g in
  let x0 := cx + offset_x + jx in
  let '(jy, g2) := random_uniform (-1) 1 g1 in
  let y0 := cy + offset_y + jy in
  let hw := width dims / 2 in
  let hh := height dims / 2 in
  let x1 := Rmax (margin + hw) (Rmin (w - margin - hw) x0) in
  let y1 := Rmax (margin + hh) (Rmin (h - margin - hh) y0) in
  (<[ref rc := {| x := py_round x1 2; y := py_round y1 2; rotation := 0 |}]> placement,
   <[zone := S n]> zone_offsets,
   g2).

Definition initial_placement (components : list component) (w h margin : R)
    (g : nat) : placement_t * nat :=
  let '(placement, _, g') :=
    fold_left (initial_step w h margin) (sorted components) (∅, ∅, g) in
  (placement, g').

(** ** Score function *)

Definition get_pos (ref : string) (placement : placement_t) : R * R :=
  match placement !! ref with
  | Some p => (x p, y p)
  | None => (0, 0)
  end.

Definition get_dims (component_id : string) : R * R :=
  let comp := get_comp component_id in
  let dims := dims_of comp in
  let clearance := or_else (courtyard_clearance_mm comp) 0.25 in
  (width dims + clearance * 2, height dims + clearance * 2).

Definition overlap_penalty (ref_a : string) (comp_a : component)
    (ref_b : string) (comp_b : component) (placement : placement_t) : R :=
  let '(ax, ay) := get_pos ref_a placement in
  let '(bx, b_y) := get_pos ref_b placement in
  let '(aw, ah) := get_dims (component_id comp_a) in
  let '(bw, bh) := get_dims (component_id comp_b) in
  let dx := Rabs (ax - bx) in
  let dy := Rabs (ay - b_y) in
  let min_dx := (aw + bw) / 2 in
  let min_dy := (ah + bh) / 2 in
  if Rlt_dec dx min_dx then
    if Rlt_dec dy min_dy then
      let overlap_x := min_dx - dx in
      let overlap_y := min_dy - dy in
      overlap_x * overlap_y * 50
    else 0
  else 0.

Definition hypot (a b : R) : R := sqrt (a * a + b * b).

Definition zone_weight (priority : Z) : R :=
  Rmax 0.1 (IZR (10 - priority) * 0.3).

Definition zone_penalty (ref : string) (component_id : string)
    (placement : placement_t) (w h margin : R) : R :=
  let comp := get_comp component_id in
  let zone := zone_of comp in
  if decide (zone = "any") then 0
  else
    let '(x, y) := get_pos ref placement in
    let '(zx, zy) := zone_centre zone w h margin in
    let dist := hypot (x - zx) (y - zy) in
    let priority := priority_of comp in
    dist * zone_weight priority.

Definition WEIGHTS : gmap string R :=
  list_to_map
    [ ("mcu", 0); ("power", 0.8); ("sensor", 1); ("comms", 1.2);
      ("motor_driver", 0.6); ("display", 0.5); ("connector", 0.3);
      ("passive", 0.1) ].

(** [not mcu_ref or mcu_ref not in placement] *)
Definition no_mcu (mcu_ref : option string) (placement : placement_t) : bool :=
  match mcu_ref with
  | None => true
  | Some m => bool_decide (m = "") || bool_decide (placement !! m = None)
  end.

Definition wire_weight (rc : component) : R :=
  let comp := get_comp (component_id rc) in
  let cat := or_else (category comp) "passive" in
  or_else (WEIGHTS !! cat) 0.5.

Definition wire_step (placement : placement_t) (m : string) (mx my : R)
    (total : R) (rc : component) : R :=
  if decide (ref rc = m) then total
  else
    let '(x, y) := get_pos (ref rc) placement in
    total + hypot (x - mx) (y - my) * wire_weight rc.

Definition wire_length_score (components : list component)
    (placement : placement_t) (mcu_ref : option string) : R :=
  if no_mcu mcu_ref placement then 0
  else
    let m := or_else mcu_ref "" in
    let '(mx, my) := get_pos m placement in
    fold_left (wire_step placement m mx my) components 0.

(** The nested loop over [enumerate(components)] and [components[i+1:]]. *)
Fixpoint overlap_loop (placement : placement_t) (s : R)
    (components : list component) : R :=
  match components with
  | [] => s
  | a :: rest =>
      overlap_loop placement
        (fold_left (fun s b => s + overlap_penalty (ref a) a (ref b) b placement)
                   rest s)
        rest
  end.

Definition score (components : list component) (placement : placement_t)
    (w h : R) (mcu_ref : option string) : R :=
  let s := wire_length_score components placement mcu_ref in
  let s := fold_left
             (fun s rc => s + zone_penalty (ref rc) (component_id rc) placement w h 3)
             components s in
  overlap_loop placement s components.

(** ** Simulated annealing *)

Definition MAX_ITR : nat := 8000.
Definition T_min : R := 0.5.
Definition alpha : R := 0.997.
Definition T_init : R := 80.

(** What the move selection of one iteration does to the copy [candidate]
    of the working state: a new candidate, the [continue] of the swap
    branch, or an exception ([KeyError], [StopIteration], ...). *)
Inductive move_result :=
| Moved (candidate : placement_t) (g : nat)
| Continue (g : nat)
| Raised.

Definition translate_move (components : list component) (refs : list string)
    (w h margin T : R) (candidate : placement_t) (g : nat) : move_result :=
  match random_choice refs g with
  | (Some r, g1) =>
      match List.find (fun rc => bool_decide (ref rc = r)) components,
            candidate !! r with
      | Some rc, Some p =>
          let comp := get_comp (component_id rc) in
          let dims := dims_of comp in
          let hw := width dims / 2 in
          let hh := height dims / 2 in
          let sigma := Rmax 3 (T * 0.15) in
          let '(nx, g2) := random_gauss 0 sigma g1 in
          let new_x := x p + nx in
          let '(ny, g3) := random_gauss 0 sigma g2 in
          let new_y := y p + ny in
          let new_x := Rmax (margin + hw) (Rmin (w - margin - hw) new_x) in
          let new_y := Rmax (margin + hh) (Rmin (h - margin - hh) new_y) in
          Moved (<[r := {| x := py_round new_x 2; y := py_round new_y 2;
                           rotation := rotation p |}]> candidate) g3
      | _, _ => Raised
      end
  | (None, _) => Raised
  end.

Definition rotate_move (refs : list string) (candidate : placement_t) (g : nat)
    : move_result :=
  match random_choice refs g with
  | (Some r, g1) =>
      match candidate !! r with
      | Some p =>
          Moved (<[r := {| x := x p; y := y p;
                           rotation := ((rotation p + 90) mod 360)%Z |}]> candidate) g1
      | None => Raised
      end
  | (None, _) => Raised
  end.

Definition swap_move (refs : list string) (candidate : placement_t) (g : nat)
    : move_result :=
  if (length refs <? 2)%nat then Continue g
  else
    match random_sample2 refs g with
    | (Some (r1, r2), g1) =>
        match candidate !! r2, candidate !! r1 with
        | Some p2, Some p1 => Moved (<[r2 := p1]> (<[r1 := p2]> candidate)) g1
        | _, _ => Raised
        end
    | (None, _) => Raised
    end.

Definition select_move (components : list component) (refs : list string)
    (w h margin T : R) (candidate : placement_t) (g : nat) : move_result :=
  let '(move, g1) := random_random g in
  if Rlt_dec move 0.5 then translate_move components refs w h margin T candidate g1
  else if Rlt_dec move 0.7 then rotate_move refs candidate g1
  else swap_move refs candidate g1.

(** The variables of the loop. *)
Record sa_state := {
  current : placement_t;
  cur_s : R;
  best : placement_t;
  best_s : R;
  T : R;
  itr : nat;
  draws : nat;     (* calls made to the generator *)
  ticks : nat      (* calls made to time.monotonic() *)
}.

(** [delta < 0 or random.random() < math.exp(-delta / T)]; the second
    operand is evaluated, and a number drawn, only when the first fails. *)
Definition accept (delta T : R) (g : nat) : bool * nat :=
  if Rlt_dec delta 0 then (true, g)
  else
    let '(u, g1) := random_random g in
    (if Rlt_dec u (exp (- delta / T)) then true else false, g1).

(** How one turn of the loop ends: at the [break] of the time check, at
    the end of the body (or at its [continue]), or with an exception. *)
Inductive iter_result :=
| Break (st : sa_state)
| Next (st : sa_state)
| Raise.

(** The body of the [while] loop. *)
Definition sa_iteration (components : list component) (refs : list string)
    (w h : R) (mcu_ref : option string) (time_cap t0 : R) (st : sa_state)
    : iter_result :=
  let check := (itr st mod 200 =? 0)%nat in
  let over := if check
              then (if Rlt_dec time_cap (clock (ticks st) - t0) then true else false)
              else false in
  let ticks' := if check then S (ticks st) else ticks st in
  if over then
    Break {| current := current st; cur_s := cur_s st; best := best st;
             best_s := best_s st; T := T st; itr := itr st;
             draws := draws st; ticks := ticks' |}
  else
    let itr' := S (itr st) in
    match select_move components refs w h 3 (T st) (current st) (draws st) with
    | Raised => Raise
    | Continue g1 =>
        Next {| current := current st; cur_s := cur_s st; best := best st;
                best_s := best_s st; T := T st; itr := itr';
                draws := g1; ticks := ticks' |}
    | Moved candidate g1 =>
        let new_s := score components candidate w h mcu_ref in
        let delta := new_s - cur_s st in
        let '(ok, g2) := accept delta (T st) g1 in
        let improved := if ok then (if Rlt_dec new_s (best_s st) then true else false)
                        else false in
        Next {| current := if ok then candidate else current st;
                cur_s := if ok then new_s else cur_s st;
                best := if improved then candidate else best st;
                best_s := if improved then new_s else best_s st;
                T := T st * alpha;
                itr := itr';
                draws := g2;
                ticks := ticks' |}
    end.

(** The [while] loop.  The first argument is the number of iterations the
    cap still allows, [MAX_ITR - itr]: the test [itr < MAX_ITR] is the
    match on it, and every turn of the loop, the [continue] included,
    increments [itr]. *)
Fixpoint sa_loop (left : nat) (components : list component) (refs : list string)
    (w h : R) (mcu_ref : option string) (time_cap t0 : R) (st : sa_state)
    : option sa_state :=
  match left with
  | O => Some st
  | S left' =>
      if Rlt_dec T_min (T st) then
        match sa_iteration components refs w h mcu_ref time_cap t0 st with
        | Break st' => Some st'
        | Next st' => sa_loop left' components refs w h mcu_ref time_cap t0 st'
        | Raise => None
        end
      else Some st
  end.

(** [simulated_annealing(components, placement, w, h, mcu_ref, time_cap)]
    started after [g] draws; the result is
    [(best_placement, initial_score, final_score, iterations)], or [None]
    when an exception escapes. *)
Definition simulated_annealing (components : list component)
    (placement : placement_t) (w h : R) (mcu_ref : option string)
    (time_cap : R) (g : nat) : option (placement_t * R * R * nat) :=
  if (length components <=? 1)%nat then Some (placement, 0, 0, 0%nat)
  else
    let cur_s := score components placement w h mcu_ref in
    let t0 := clock 0 in
    let refs := map ref components in
    match sa_loop MAX_ITR components refs w h mcu_ref time_cap t0
            {| current := placement; cur_s := cur_s; best := placement;
               best_s := cur_s; T := T_init; itr := 0; draws := g; ticks := 1 |} with
    | Some st => Some (best st, cur_s, best_s st, itr st)
    | None => None
    end.

(** ** The stage as a whole *)

(** resolved.json: the list [resolved_components] and [mcu.id]. *)
Record resolved := {
  resolved_components : list resolved_component;
  mcu : option string
}.

Record output_component := {
  o_component_id : string;
  o_ref : string;
  o_display_name : string;
  o_category : string;
  o_subcategory : string;
  x_mm : R;
  y_mm : R;
  rotation_deg : Z;
  width_mm : R;
  height_mm : R;
  o_placement_zone : string
}.

(** placement.json *)
Record placement_data := {
  board_w_mm : R;
  board_h_mm : R;
  components_out : list output_component;
  out_mcu_ref : option string;
  score_initial : R;
  score_final : R;
  improvement_pct : R;
  iterations : nat
}.

Definition improvement (init_s final_s : R) : R :=
  if Rlt_dec 0 init_s then Rmax 0 ((init_s - final_s) / init_s * 100) else 0.

Definition output_of (best_placement : placement_t) (w h : R) (rc : component)
    : output_component :=
  let comp := get_comp (component_id rc) in
  let dims_c := dims_of comp in
  let p := or_else (best_placement !! ref rc)
             {| x := w / 2; y := h / 2; rotation := 0 |} in
  {| o_component_id := component_id rc;
     o_ref := ref rc;
     o_display_name := or_else (display_name rc) (component_id rc);
     o_category := or_else (category comp) "passive";
     o_subcategory := or_else (subcategory comp) "";
     x_mm := py_round (x p) 2;
     y_mm := py_round (y p) 2;
     rotation_deg := rotation p;
     width_mm := width dims_c;
     height_mm := height dims_c;
     o_placement_zone := or_else (placement_zone comp) "any" |}.

(** [next((rc["ref"] for rc in components if rc["component_id"] == mcu_id), None)] *)
Definition find_mcu_ref (components : list component) (mcu_id : option string)
    : option string :=
  match mcu_id with
  | None => None
  | Some m =>
      match List.find (fun rc => bool_decide (component_id rc = m)) components with
      | Some rc => Some (ref rc)
      | None => None
      end
  end.

(** [run]: [board] is the optional pair [dimensions_mm] of board.json; the
    stage runs with the default time budget of ten seconds. *)
Definition run (res : resolved) (board : option (R * R)) : option placement_data :=
  let '(w, h) := or_else board (100, 80) in
  match resolved_components res with
  | [] =>
      Some {| board_w_mm := w; board_h_mm := h; components_out := [];
              out_mcu_ref := None; score_initial := 0; score_final := 0;
              improvement_pct := 0; iterations := 0 |}
  | _ =>
      let components := assign_refs (resolved_components res) in
      let '(placement, g) := initial_placement components w h 3 0 in
      let mcu_ref := find_mcu_ref components (mcu res) in
      match simulated_annealing components placement w h mcu_ref 10 g with
      | Some (best_placement, init_s, final_s, itr) =>
          Some {| board_w_mm := w; board_h_mm := h;
                  components_out := map (output_of best_placement w h) components;
                  out_mcu_ref := mcu_ref;
                  score_initial := py_round init_s 1;
                  score_final := py_round final_s 1;
                  improvement_pct := py_round (improvement init_s final_s) 1;
                  iterations := itr |}
      | None => None
      end
  end.

End Ambient.
End Catalogue.

(** ** Vocabulary of the design document

    The definitions of this section follow the words of the design
    document, not the code; the theorems below compare them with the
    functions above. *)

Section Vocabulary.

Variable db : catalog.

(** The footprint of an instance inflated by its courtyard clearance on
    all sides: nominal size plus twice the clearance on each axis. *)
Definition spec_clearance (rc : component) : R :=
  or_else (courtyard_clearance_mm (get_comp db (component_id rc))) 0.25.

Definition spec_inflated_width (rc : component) : R :=
  width (dims_of (get_comp db (component_id rc))) + 2 * spec_clearance rc.

Definition spec_inflated_height (rc : component) : R :=
  height (dims_of (get_comp db (component_id rc))) + 2 * spec_clearance rc.

(** The point [(p, q)] lies inside the inflated footprint of [rc], which
    is centred on the position of [rc]. *)
Definition spec_covers (placement : placement_t) (rc : component) (p q : R) : Prop :=
  Rabs (p - fst (get_pos (ref rc) placement)) < spec_inflated_width rc / 2 /\
  Rabs (q - snd (get_pos (ref rc) placement)) < spec_inflated_height rc / 2.

(** Two inflated footprints intersect when they have a point in common. *)
Definition spec_intersect (placement : placement_t) (a b : component) : Prop :=
  exists p q, spec_covers placement a p q /\ spec_covers placement b p q.

(** The extent, on one axis, of the region two intervals of widths [wa]
    and [wb] centred on [ca] and [cb] have in common. *)
Definition spec_common_extent (ca wa cb wb : R) : R :=
  Rmin (ca + wa / 2) (cb + wb / 2) - Rmax (ca - wa / 2) (cb - wb / 2).

(** The wiring cost of one instance: its Euclidean distance to the MCU
    times the weight of its category. *)
Definition spec_category_weight (cat : string) : R :=
  if decide (cat = "mcu") then 0
  else if decide (cat = "power") then 0.8
  else if decide (cat = "sensor") then 1
  else if decide (cat = "comms") then 1.2
  else if decide (cat = "motor_driver") then 0.6
  else if decide (cat = "display") then 0.5
  else if decide (cat = "connector") then 0.3
  else if decide (cat = "passive") then 0.1
  else 0.5.

Definition spec_distance (p q : R * R) : R :=
  sqrt ((fst p - fst q) ^ 2 + (snd p - snd q) ^ 2).

(** The sum of a list of reals. *)
Definition Rsum (l : list R) : R := fold_right Rplus 0 l.

Definition spec_wiring_term (components : list component)
    (placement : placement_t) (m : string) : R :=
  Rsum (map (fun rc =>
               spec_distance (get_pos (ref rc) placement) (get_pos m placement)
               * spec_category_weight
                   (or_else (category (get_comp db (component_id rc))) "passive"))
            (filter (fun rc => ref rc <> m) components)).

(** The eight names of the zone enumeration. *)
Definition spec_zone_names : list string :=
  [ "edge_top"; "edge_bottom"; "edge_left"; "edge_right"; "centre";
    "centre_right"; "power_column"; "any" ].

(** The margin-reduced board rectangle for a footprint of half-extents
    [hw] and [hh]. *)
Definition spec_contained (w h margin : R) (d : dims) (p : pos) : Prop :=
  margin + width d / 2 <= x p <= w - margin - width d / 2 /\
  margin + height d / 2 <= y p <= h - margin - height d / 2.

End Vocabulary.

(** The three terms of the score, as [score] accumulates them. *)
Section Terms.

Variable db : catalog.

Definition zone_term (components : list component) (placement : placement_t)
    (w h : R) : R :=
  fold_left
    (fun s rc => s + zone_penalty db (ref rc) (component_id rc) placement w h 3)
    components 0.

Definition overlap_term (components : list component) (placement : placement_t) : R :=
  overlap_loop db placement 0 components.

End Terms.

(** ** Predicates used in the statements and in the proofs *)

(** Every reference of [refs] is a key of the placement. *)
Definition placed (refs : list string) (placement : placement_t) : Prop :=
  forall r, r ∈ refs -> is_Some (placement !! r).

(** Two placements with the same keys and the same centres. *)
Definition same_centres (p1 p2 : placement_t) : Prop :=
  forall r, get_pos r p1 = get_pos r p2 /\ (p1 !! r = None <-> p2 !! r = None).

(** Two clocks on which the time checks of a budget agree: at each of the
    nine checks the loop can reach (iterations 0, 200, ..., 1600) the time
    elapsed since the reading taken before the loop exceeds the budget on
    both clocks or on neither. *)
Definition same_checks (time_cap : R) (clock1 clock2 : nat -> R) : Prop :=
  forall k, (k < 9)%nat ->
    (time_cap < clock1 (S k) - clock1 0%nat
     <-> time_cap < clock2 (S k) - clock2 0%nat).

(** The temperature is [T_init * alpha ^ itr] throughout. *)
Definition cooled (st : sa_state) : Prop := T st = T_init * alpha ^ itr st.

Section LoopInvariants.

Variable db : catalog.
Variable components : list component.
Variables w h : R.
Variable mcu_ref : option string.

(** The best score seen never exceeds the initial one, and it is the score
    of the best placement seen. *)
Definition tracks_best (init_s : R) (st : sa_state) : Prop :=
  best_s st <= init_s /\
  best_s st = score db components (best st) w h mcu_ref /\
  cur_s st = score db components (current st) w h mcu_ref.

(** The loop has settled on [B]: the best placement is [B], the working
    placement has the centres of [B], and both scores are the score of
    [B]. *)
Definition settled (B : placement_t) (g0 : nat) (st : sa_state) : Prop :=
  best st = B /\
  best_s st = score db components B w h mcu_ref /\
  cur_s st = score db components B w h mcu_ref /\
  same_centres (current st) B /\
  (g0 <= draws st)%nat.

End LoopInvariants.

(** Decimal digits in a reference. *)
Definition is_digit (c : ascii) : bool :=
  (48 <=? nat_of_ascii c)%nat && (nat_of_ascii c <=? 57)%nat.

Fixpoint all_digits (s : string) : bool :=
  match s with
  | EmptyString => true
  | String c s' => is_digit c && all_digits s'
  end.

Fixpoint ends_with_digit (s : string) : bool :=
  match s with
  | EmptyString => false
  | String c s' =>
      match s' with
      | EmptyString => is_digit c
      | String _ _ => ends_with_digit s'
      end
  end.

(** A reference built from a prefix without final digit and a number that
    the counter of the prefix has reached. *)
Definition numbered (counters : gmap string nat) (c : component) : Prop :=
  exists p k, ref c = p +:+ pretty k /\ ends_with_digit p = false
              /\ (1 <= k <= or_else (counters !! p) 0)%nat.

(** ** Further vocabulary: numbering, containment, quarter turns *)

(** The prefix the assigner resolves for a resolved component. *)
Definition prefix_of (db : catalog) (rc : resolved_component) : string :=
  ref_prefix (get_comp db (rc_component_id rc)).

(** How many of the components of [l] resolve to the prefix [p]. *)
Definition count_prefix (db : catalog) (p : string)
    (l : list resolved_component) : nat :=
  length (filter (fun rc => prefix_of db rc = p) l).

(** The component the assigner makes of [rc] when it is the [n]-th of its
    prefix. *)
Definition numbered_as (db : catalog) (rc : resolved_component) (n : nat)
    : component :=
  {| component_id := rc_component_id rc;
     display_name := rc_display_name rc;
     ref := prefix_of db rc +:+ pretty n |}.

(** The area two inflated footprints have in common. *)
Definition spec_common_area (db : catalog) (placement : placement_t)
    (a b : component) : R :=
  Rmax 0 (spec_common_extent (fst (get_pos (ref a) placement)) (spec_inflated_width db a)
            (fst (get_pos (ref b) placement)) (spec_inflated_width db b))
  * Rmax 0 (spec_common_extent (snd (get_pos (ref a) placement)) (spec_inflated_height db a)
              (snd (get_pos (ref b) placement)) (spec_inflated_height db b)).

(** A number with at most two decimals. *)
Definition on_grid (v : R) : Prop := exists z, v * 10 ^ 2 = IZR z.

(** The footprint [d] fits between the margins of the board, and the
    bounds of its centre have at most two decimals. *)
Definition fits (w h margin : R) (d : dims) : Prop :=
  margin + width d / 2 <= w - margin - width d / 2
  /\ margin + height d / 2 <= h - margin - height d / 2
  /\ on_grid (margin + width d / 2) /\ on_grid (w - margin - width d / 2)
  /\ on_grid (margin + height d / 2) /\ on_grid (h - margin - height d / 2).

(** Every instance that has a position lies inside the margin. *)
Definition contained_all (db : catalog) (components : list component)
    (w h margin : R) (placement : placement_t) : Prop :=
  forall rc p, rc ∈ components -> placement !! ref rc = Some p ->
    spec_contained w h margin (dims_of (get_comp db (component_id rc))) p.

(** The rotations of the model. *)
Definition quarter_turn (z : Z) : Prop :=
  z = 0%Z \/ z = 90%Z \/ z = 180%Z \/ z = 270%Z.

Definition quarter_turns (placement : placement_t) : Prop :=
  forall r p, placement !! r = Some p -> quarter_turn (rotation p).

(** The number of clock readings follows the iteration count: one reading
    before the loop and one at every 200th iteration. *)
Definition ticked (st : sa_state) : Prop :=
  ticks st = S ((itr st + 199) / 200).

(** ** Placement overrides of the preview (python/svg_preview.py) *)

(** The components of placement.json are read back as dictionaries from
    keys to JSON values; [V] is the type of the values and [jstr] the
    value of a string.  A dictionary keyed by such values is a list of
    entries in the order in which the keys were first inserted. *)
Section Overrides.

Context {V : Type} `{EqDecision V}.
Variable jstr : string -> V.

(** Assignment [d[k] = v]: a key that is present keeps its place. *)
Fixpoint od_set (k : V) (v : gmap string V) (d : list (V * gmap string V))
    : list (V * gmap string V) :=
  match d with
  | [] => [(k, v)]
  | (k', v') :: d' =>
      if decide (k = k') then (k, v) :: d' else (k', v') :: od_set k v d'
  end.

(** [{c["ref"]: c for c in components}]; [None] is the [KeyError] of a
    component without reference. *)
Fixpoint by_ref_from (d : list (V * gmap string V))
    (components : list (gmap string V)) : option (list (V * gmap string V)) :=
  match components with
  | [] => Some d
  | c :: rest =>
      match c !! "ref" with
      | Some r => by_ref_from (od_set r c d) rest
      | None => None
      end
  end.

(** [if ref in by_ref: by_ref[ref].update(changes)] *)
Fixpoint od_update (r : string) (changes : gmap string V)
    (d : list (V * gmap string V)) : list (V * gmap string V) :=
  match d with
  | [] => []
  | (k, c) :: d' =>
      if decide (k = jstr r) then (k, changes ∪ c) :: d'
      else (k, c) :: od_update r changes d'
  end.

(** [overrides] lists the items of the overrides dictionary in order. *)
Definition apply_overrides (components : list (gmap string V))
    (overrides : list (string * gmap string V)) : option (list (gmap string V)) :=
  match by_ref_from [] components with
  | Some by_ref =>
      Some (map snd (fold_left (fun d o => od_update o.1 o.2 d) overrides by_ref))
  | None => None
  end.

(** What the overrides addressed to the reference [k] make of [c]. *)
Definition overridden (overrides : list (string * gmap string V)) (k : V)
    (c : gmap string V) : gmap string V :=
  fold_left (fun c' o => if decide (k = jstr o.1) then o.2 ∪ c' else c') overrides c.

End Overrides.

(** ** Concrete inputs used by the examples below *)

Definition entry_with_zone (zone : string) : catalog_entry :=
  {| ref_designator_prefix := None; subcategory := None; category := None;
     placement_zone := Some zone; placement_priority := None;
     dimensions_mm := None; courtyard_clearance_mm := None |}.

Definition entry_with_prefix (prefix : string) : catalog_entry :=
  {| ref_designator_prefix := Some prefix; subcategory := None; category := None;
     placement_zone := None; placement_priority := None;
     dimensions_mm := None; courtyard_clearance_mm := None |}.

Definition entry_with_dims (wd ht : R) : catalog_entry :=
  {| ref_designator_prefix := None; subcategory := None; category := None;
     placement_zone := None; placement_priority := None;
     dimensions_mm := Some {| width := wd; height := ht |};
     courtyard_clearance_mm := None |}.

(** A catalogue whose entry ["jack"] asks for the zone ["corner"], which is
    not a zone of the model. *)
Definition db_corner : catalog := {[ "jack" := entry_with_zone "corner" ]}.

Definition part (id r : string) : component :=
  {| component_id := id; display_name := None; ref := r |}.

Definition at_origin : placement_t :=
  {[ "U1" := {| x := 0; y := 0; rotation := 0 |} ]}.

(** Two parts unknown to the catalogue and a seed that places both. *)
Definition two_parts : list component := [ part "r10k" "U1"; part "c100n" "U2" ].

Definition seed_two : placement_t :=
  <[ "U1" := {| x := 10; y := 10; rotation := 0 |} ]>
    {[ "U2" := {| x := 20; y := 10; rotation := 0 |} ]}.

(** A generator whose every draw is the same. *)
Definition quiet_tape : tape :=
  {| t_unit := fun _ => 0.6; t_normal := fun _ => 0; t_nat := fun _ => 0%nat |}.

(** A clock that does not advance between two readings, and one that
    advances by a second at each reading. *)
Definition clock_still : nat -> R := fun _ => 0.
Definition clock_ticking : nat -> R := fun k => INR k.

(** A clock that advances like [clock_ticking] but was started earlier. *)
Definition clock_late : nat -> R := fun k => 1000 + INR k.

(** A catalogue with a small part and a large one, both without category,
    so that their zone is ["any"] and their priority 9; three parts on a
    board of 30 mm x 30 mm; and the outcomes of the generator during a
    run: the six jitters of the seed, a draw that selects the swap of the
    first two references, then draws that select rotations. *)
Definition db_mixed : catalog :=
  <[ "chip" := entry_with_dims 1 0.5 ]> {[ "module" := entry_with_dims 10 10 ]}.

Definition resolved_part (id : string) : resolved_component :=
  {| rc_component_id := id; rc_display_name := None |}.

Definition mixed_parts : resolved :=
  {| resolved_components :=
       [ resolved_part "chip"; resolved_part "module"; resolved_part "module" ];
     mcu := None |}.

Definition mixed_components : list component :=
  [ part "chip" "U1"; part "module" "U2"; part "module" "U3" ].

Definition tape_swap : tape :=
  {| t_unit := fun k =>
       match k with
       | 0%nat | 1%nat | 3%nat | 5%nat => 0.5
       | 2%nat => 0.9
       | 4%nat => 0.1
       | 6%nat => 0.8
       | _ => 0.6
       end;
     t_normal := fun _ => 0;
     t_nat := fun _ => 0%nat |}.

Definition at_xy (a b : R) : pos := {| x := a; y := b; rotation := 0 |}.

Definition seed_mixed : placement_t :=
  <[ "U3" := at_xy 20.2 9 ]>
    (<[ "U2" := at_xy 9.8 9 ]> (<[ "U1" := at_xy 6 12 ]> ∅)).

Definition swapped_mixed : placement_t :=
  <[ "U2" := at_xy 6 12 ]> (<[ "U1" := at_xy 9.8 9 ]> seed_mixed).

(** A catalogue in which the prefix of one entry is the prefix of another
    followed by a digit, and eleven parts of the first kind followed by
    one of the second. *)
Definition db_prefixes : catalog :=
  <[ "regulator" := entry_with_prefix "U" ]> {[ "bank" := entry_with_prefix "U1" ]}.

Definition twelve_parts : list resolved_component :=
  replicate 11 (resolved_part "regulator") ++ [ resolved_part "bank" ].

(** A single part, and the list of resolved components it comes from. *)
Definition one_part : list component := [ part "r10k" "U1" ].

Definition one_resolved : resolved :=
  {| resolved_components := [ resolved_part "r10k" ]; mcu := None |}.

(** The resolved components the two unknown parts come from. *)
Definition two_resolved : list resolved_component :=
  [ resolved_part "r10k"; resolved_part "c100n" ].

(** Two components of a placement file whose values are strings, and an
    overrides dictionary that moves the first and names a reference that
    no component has. *)
Definition file_components : list (gmap string string) :=
  [ <[ "x_mm" := "10" ]> {[ "ref" := "U1" ]};
    <[ "x_mm" := "20" ]> {[ "ref" := "U2" ]} ].

Definition file_overrides : list (string * gmap string string) :=
  [ ("U1", {[ "x_mm" := "30" ]}); ("U9", {[ "x_mm" := "0" ]}) ].

(** In such a file a string is its own value. *)
Definition str_value (s : string) : string := s.

(** * Properties *)

(** ** Auxiliary facts on reals, sums and look-ups *)

Lemma fold_left_Rplus_acc {A} (f : A -> R) (l : list A) (s : R) :
  fold_left (fun s b => s + f b) l s = s + fold_left (fun s b => s + f b) l 0.
Proof.
  revert s. induction l as [|b l IH]; intros s; simpl.
  - lra.
  - rewrite (IH (s + f b)), (IH (0 + f b)). lra.
Qed.

Lemma fold_left_Rplus_sum {A} (f : A -> R) (l : list A) :
  fold_left (fun s b => s + f b) l 0 = Rsum (map f l).
Proof.
  induction l as [|b l IH]; simpl; [reflexivity|].
  rewrite fold_left_Rplus_acc, IH. lra.
Qed.

Lemma fold_left_ext {A B} (f1 f2 : A -> B -> A) (l : list B) (a : A) :
  (forall a b, f1 a b = f2 a b) -> fold_left f1 l a = fold_left f2 l a.
Proof.
  intros Hf. revert a. induction l as [|b l IH]; intros a; simpl; [reflexivity|].
  rewrite Hf. apply IH.
Qed.

Lemma Rsum_nonneg (l : list R) : Forall (fun r => 0 <= r) l -> 0 <= Rsum l.
Proof. induction 1; simpl; lra. Qed.

Lemma Rsum_zero_iff (l : list R) :
  Forall (fun r => 0 <= r) l -> (Rsum l = 0 <-> Forall (fun r => r = 0) l).
Proof.
  induction 1 as [|r l Hr Hl IH]; simpl.
  - split; [constructor | reflexivity].
  - pose proof (Rsum_nonneg l Hl). split.
    + intros Hs. constructor; [lra | apply IH; lra].
    + intros Hz. inversion Hz; subst. apply IH in H3. lra.
Qed.

Lemma lookup_list_to_map_cons {A} (k k' : string) (v : A) (l : list (string * A)) :
  (list_to_map ((k, v) :: l) : gmap string A) !! k'
  = if decide (k = k') then Some v else (list_to_map l : gmap string A) !! k'.
Proof. simpl. apply lookup_insert. Qed.

Lemma hypot_distance (px py qx qy : R) :
  hypot (px - qx) (py - qy) = spec_distance (px, py) (qx, qy).
Proof. unfold hypot, spec_distance. simpl. f_equal. ring. Qed.

Lemma hypot_nonneg (a b : R) : 0 <= hypot a b.
Proof. apply sqrt_pos. Qed.

Lemma hypot_pos (a b : R) : a <> 0 \/ b <> 0 -> 0 < hypot a b.
Proof. intros H. apply sqrt_lt_R0. destruct H; nra. Qed.

Lemma zone_weight_pos (p : Z) : 0 < zone_weight p.
Proof.
  unfold zone_weight. pose proof (Rmax_l 0.1 (IZR (10 - p) * 0.3)). lra.
Qed.

(** Two intervals have a point in common exactly when their centres are
    closer than the sum of their half-widths. *)
Lemma interval_overlap (ca wa cb wb : R) :
  0 < wa -> 0 < wb ->
  (Rabs (ca - cb) < (wa + wb) / 2 <->
   exists p, Rabs (p - ca) < wa / 2 /\ Rabs (p - cb) < wb / 2).
Proof.
  intros Ha Hb. split.
  - intros H.
    exists ((Rmax (ca - wa / 2) (cb - wb / 2) + Rmin (ca + wa / 2) (cb + wb / 2)) / 2).
    revert H. unfold Rabs, Rmax, Rmin.
    repeat match goal with
           | |- context [Rcase_abs ?e] => destruct (Rcase_abs e)
           | |- context [Rle_dec ?a ?b] => destruct (Rle_dec a b)
           end; intros; lra.
  - intros (p & H1 & H2). revert H1 H2. unfold Rabs.
    repeat match goal with
           | |- context [Rcase_abs ?e] => destruct (Rcase_abs e)
           end; intros; lra.
Qed.

Lemma interval_overlap_only_if (ca wa cb wb p : R) :
  Rabs (p - ca) < wa / 2 -> Rabs (p - cb) < wb / 2 ->
  Rabs (ca - cb) < (wa + wb) / 2.
Proof.
  unfold Rabs.
  repeat match goal with
         | |- context [Rcase_abs ?e] => destruct (Rcase_abs e)
         end; intros; lra.
Qed.

(** The quantity the code calls [overlap_x] is the extent of the common
    region unless one interval lies within the other, where it is larger
    than the common extent, the width of the smaller one. *)
Lemma overlap_x_common_extent (ca wa cb wb : R) :
  Rabs (wa - wb) / 2 <= Rabs (ca - cb) ->
  (wa + wb) / 2 - Rabs (ca - cb) = spec_common_extent ca wa cb wb.
Proof.
  unfold spec_common_extent, Rabs, Rmax, Rmin.
  repeat match goal with
         | |- context [Rcase_abs ?e] => destruct (Rcase_abs e)
         | |- context [Rle_dec ?a ?b] => destruct (Rle_dec a b)
         end; intros; lra.
Qed.

Lemma overlap_x_nested (ca wa cb wb : R) :
  Rabs (ca - cb) < Rabs (wa - wb) / 2 ->
  spec_common_extent ca wa cb wb = Rmin wa wb /\
  Rmin wa wb < (wa + wb) / 2 - Rabs (ca - cb).
Proof.
  unfold spec_common_extent, Rabs, Rmax, Rmin.
  repeat match goal with
         | |- context [Rcase_abs ?e] => destruct (Rcase_abs e)
         | |- context [Rle_dec ?a ?b] => destruct (Rle_dec a b)
         end; intros; lra.
Qed.

(** ** The score function *)

Section ScoreProperties.

Variable db : catalog.

Lemma get_dims_inflated (rc : component) :
  get_dims db (component_id rc)
  = (spec_inflated_width db rc, spec_inflated_height db rc).
Proof.
  unfold get_dims, spec_inflated_width, spec_inflated_height, spec_clearance.
  f_equal; ring.
Qed.

(** The penalty of a pair in terms of the separations of the centres and
    of the inflated extents. *)
Lemma overlap_penalty_unfold (placement : placement_t) (a b : component) :
  overlap_penalty db (ref a) a (ref b) b placement
  = if Rlt_dec (Rabs (fst (get_pos (ref a) placement) - fst (get_pos (ref b) placement)))
               ((spec_inflated_width db a + spec_inflated_width db b) / 2)
    then if Rlt_dec (Rabs (snd (get_pos (ref a) placement) - snd (get_pos (ref b) placement)))
                    ((spec_inflated_height db a + spec_inflated_height db b) / 2)
         then ((spec_inflated_width db a + spec_inflated_width db b) / 2
               - Rabs (fst (get_pos (ref a) placement) - fst (get_pos (ref b) placement)))
              * ((spec_inflated_height db a + spec_inflated_height db b) / 2
                 - Rabs (snd (get_pos (ref a) placement) - snd (get_pos (ref b) placement)))
              * 50
         else 0
    else 0.
Proof.
  unfold overlap_penalty. rewrite !get_dims_inflated.
  destruct (get_pos (ref a) placement) as [ax ay].
  destruct (get_pos (ref b) placement) as [bx b_y]. reflexivity.
Qed.

Lemma overlap_penalty_nonneg (placement : placement_t) (a b : component) :
  0 <= overlap_penalty db (ref a) a (ref b) b placement.
Proof.
  rewrite overlap_penalty_unfold.
  repeat destruct Rlt_dec; try lra. nra.
Qed.

(** The penalty of a pair vanishes exactly when the two inflated
    footprints have no point in common. *)
Lemma overlap_penalty_zero_iff (placement : placement_t) (a b : component) :
  0 < spec_inflated_width db a -> 0 < spec_inflated_height db a ->
  0 < spec_inflated_width db b -> 0 < spec_inflated_height db b ->
  overlap_penalty db (ref a) a (ref b) b placement = 0
  <-> ~ spec_intersect db placement a b.
Proof.
  intros Hwa Hha Hwb Hhb. rewrite overlap_penalty_unfold.
  unfold spec_intersect, spec_covers. split.
  - intros Hz (p & q & (Hax & Hay) & (Hbx & Hby)).
    pose proof (interval_overlap_only_if _ _ _ _ _ Hax Hbx) as Hx.
    pose proof (interval_overlap_only_if _ _ _ _ _ Hay Hby) as Hy.
    destruct Rlt_dec as [Hx'|]; [|lra].
    destruct Rlt_dec as [Hy'|]; [|lra].
    nra.
  - intros Hn.
    destruct Rlt_dec as [Hx|]; [|reflexivity].
    destruct Rlt_dec as [Hy|]; [|reflexivity].
    exfalso. apply Hn.
    apply interval_overlap in Hx as (p & ? & ?); [|assumption..].
    apply interval_overlap in Hy as (q & ? & ?); [|assumption..].
    exists p, q. tauto.
Qed.

Lemma overlap_loop_acc (placement : placement_t) (s : R) (l : list component) :
  overlap_loop db placement s l = s + overlap_term db l placement.
Proof.
  unfold overlap_term. revert s.
  induction l as [|a rest IH]; intros s; simpl.
  - lra.
  - rewrite IH, (IH (fold_left _ rest 0)).
    rewrite (fold_left_Rplus_acc
               (fun b => overlap_penalty db (ref a) a (ref b) b placement) rest s).
    lra.
Qed.

Lemma overlap_term_cons (placement : placement_t) (a : component)
    (rest : list component) :
  overlap_term db (a :: rest) placement
  = Rsum (map (fun b => overlap_penalty db (ref a) a (ref b) b placement) rest)
    + overlap_term db rest placement.
Proof.
  unfold overlap_term at 1. simpl. rewrite overlap_loop_acc.
  rewrite (fold_left_Rplus_sum
             (fun b => overlap_penalty db (ref a) a (ref b) b placement)).
  reflexivity.
Qed.

Lemma overlap_term_nonneg (placement : placement_t) (l : list component) :
  0 <= overlap_term db l placement.
Proof.
  induction l as [|a rest IH].
  - unfold overlap_term. simpl. lra.
  - rewrite overlap_term_cons.
    assert (0 <= Rsum (map (fun b => overlap_penalty db (ref a) a (ref b) b placement) rest)).
    { apply Rsum_nonneg, Forall_map, Forall_forall. intros; apply overlap_penalty_nonneg. }
    lra.
Qed.

(** The score is the sum of its three terms. *)
Lemma score_terms (components : list component) (placement : placement_t)
    (w h : R) (mcu_ref : option string) :
  score db components placement w h mcu_ref
  = wire_length_score db components placement mcu_ref
    + zone_term db components placement w h
    + overlap_term db components placement.
Proof.
  unfold score, zone_term. rewrite overlap_loop_acc.
  rewrite (fold_left_Rplus_acc
             (fun rc => zone_penalty db (ref rc) (component_id rc) placement w h 3)).
  reflexivity.
Qed.

(** The overlap term vanishes exactly when every pair's penalty does. *)
Lemma overlap_term_zero_pairs (placement : placement_t) (l : list component) :
  overlap_term db l placement = 0
  <-> forall i j a b, (i < j)%nat -> l !! i = Some a -> l !! j = Some b ->
        overlap_penalty db (ref a) a (ref b) b placement = 0.
Proof.
  induction l as [|c rest IH].
  - split; [intros _ i j a b _ Hi; discriminate | reflexivity].
  - rewrite overlap_term_cons.
    pose proof (overlap_term_nonneg placement rest) as Hrest.
    assert (Hpos : Forall (fun r => 0 <= r)
              (map (fun b => overlap_penalty db (ref c) c (ref b) b placement) rest)).
    { apply Forall_map, Forall_forall. intros; apply overlap_penalty_nonneg. }
    pose proof (Rsum_nonneg _ Hpos) as Hsum.
    split.
    + intros Hz i j a b Hij Hi Hj.
      destruct j as [|j]; [lia|]. simpl in Hj.
      destruct i as [|i]; simpl in Hi.
      * inversion Hi; subst a.
        assert (Hs : Rsum (map (fun b => overlap_penalty db (ref c) c (ref b) b placement) rest) = 0) by lra.
        apply Rsum_zero_iff in Hs; [|assumption].
        rewrite Forall_map, Forall_forall in Hs.
        apply Hs. eapply list_elem_of_lookup_2; eassumption.
      * assert (Hr : overlap_term db rest placement = 0) by lra.
        apply (proj1 IH Hr i j); [lia|assumption..].
    + intros Hall.
      assert (Hs : Rsum (map (fun b => overlap_penalty db (ref c) c (ref b) b placement) rest) = 0).
      { apply Rsum_zero_iff; [assumption|].
        apply Forall_map, Forall_forall. intros b Hb.
        apply list_elem_of_lookup in Hb as [j Hj].
        apply (Hall 0%nat (S j)); [lia|reflexivity|assumption]. }
      assert (Hr : overlap_term db rest placement = 0).
      { apply IH. intros i j a b Hij Hi Hj.
        apply (Hall (S i) (S j)); [lia|assumption..]. }
      lra.
Qed.

(** C3: provided every inflated footprint has a positive width and a
    positive height, the overlap term of the score is 0 if and only if no
    two instances have intersecting inflated footprints (centred on their
    positions, nominal size plus the clearance on all sides). *)
Theorem overlap_term_sound (components : list component) (placement : placement_t) :
  (forall rc, rc ∈ components ->
     0 < spec_inflated_width db rc /\ 0 < spec_inflated_height db rc) ->
  overlap_term db components placement = 0
  <-> forall i j a b, (i < j)%nat ->
        components !! i = Some a -> components !! j = Some b ->
        ~ spec_intersect db placement a b.
Proof.
  intros Hpos. rewrite overlap_term_zero_pairs.
  split; intros H i j a b Hij Hi Hj.
  - apply overlap_penalty_zero_iff.
    1-2: apply Hpos; eapply list_elem_of_lookup_2; eassumption.
    1-2: apply Hpos; eapply list_elem_of_lookup_2; eassumption.
    eapply H; eassumption.
  - apply overlap_penalty_zero_iff.
    1-2: apply Hpos; eapply list_elem_of_lookup_2; eassumption.
    1-2: apply Hpos; eapply list_elem_of_lookup_2; eassumption.
    eapply H; eassumption.
Qed.

End ScoreProperties.

(** ** Wiring and zone terms *)

Section WiringZoneProperties.

Variable db : catalog.

Lemma WEIGHTS_lookup (cat : string) :
  or_else (WEIGHTS !! cat) 0.5 = spec_category_weight cat.
Proof.
  unfold WEIGHTS, spec_category_weight.
  repeat (rewrite lookup_list_to_map_cons;
          destruct (decide (_ = cat)) as [<-|?];
          [ reflexivity
          | match goal with
            | |- context [decide (cat = ?k)] =>
                destruct (decide (cat = k)) as [?|_]; [congruence|]
            end ]).
  reflexivity.
Qed.

Lemma wire_step_sum (placement : placement_t) (m : string) (mx my : R)
    (l : list component) (s : R) :
  get_pos m placement = (mx, my) ->
  fold_left (wire_step db placement m mx my) l s
  = s + spec_wiring_term db l placement m.
Proof.
  intros Hm. unfold spec_wiring_term. revert s.
  induction l as [|rc l IH]; intros s; simpl.
  - lra.
  - rewrite IH. unfold wire_step.
    destruct (decide (ref rc = m)) as [Heq|Hne].
    + rewrite filter_cons_False by (intros ?; contradiction). lra.
    + rewrite filter_cons_True by assumption. simpl.
      destruct (get_pos (ref rc) placement) as [px py] eqn:Hp.
      rewrite Hm, hypot_distance.
      unfold wire_weight. rewrite WEIGHTS_lookup. lra.
Qed.

(** C8: when an MCU is designated (a reference that is a key of the
    placement), the wiring term is the sum, over the instances other than
    the MCU, of the Euclidean distance between the centre of the instance
    and the centre of the MCU times the weight of the category of the
    instance (mcu 0, power 0.8, sensor 1.0, comms 1.2, motor_driver 0.6,
    display 0.5, connector 0.3, passive 0.1, any other category 0.5); the
    term is 0 when no MCU is designated. *)
Theorem wiring_term_correct (components : list component)
    (placement : placement_t) (m : string) :
  m <> "" -> is_Some (placement !! m) ->
  wire_length_score db components placement (Some m)
  = spec_wiring_term db components placement m
  /\ wire_length_score db components placement None = 0.
Proof.
  intros Hne [p Hp]. split; [|reflexivity].
  unfold wire_length_score, no_mcu.
  rewrite bool_decide_eq_false_2 by assumption.
  rewrite bool_decide_eq_false_2 by (rewrite Hp; discriminate).
  simpl. destruct (get_pos m placement) as [mx my] eqn:Hm.
  rewrite (wire_step_sum placement m mx my components 0 Hm). lra.
Qed.

Lemma zones_unknown (zone : string) (w h margin : R) :
  zone ∉ spec_zone_names -> zones w h margin !! zone = None.
Proof.
  intros Hz. unfold zones. cbv zeta.
  apply not_elem_of_list_to_map_1. exact Hz.
Qed.

Lemma zone_centre_unknown (zone : string) (w h margin : R) :
  zone = "any" \/ zone ∉ spec_zone_names ->
  zone_centre zone w h margin = (w / 2, h / 2).
Proof.
  unfold zone_centre. intros [->|Hz].
  - reflexivity.
  - rewrite zones_unknown by assumption. reflexivity.
Qed.

(** C4, as the code has it: a zone that is ["any"] or is not one of the
    eight zone names resolves to the centre of the board; the zone penalty
    of the instance is 0 when the zone is ["any"], and for another name
    that is not recognised it is the distance of the instance to the
    centre of the board times the priority weight. *)
Theorem zone_any_or_unrecognised (r id : string) (placement : placement_t)
    (w h : R) :
  zone_of (get_comp db id) = "any"
  \/ zone_of (get_comp db id) ∉ spec_zone_names ->
  zone_centre (zone_of (get_comp db id)) w h 3 = (w / 2, h / 2)
  /\ (zone_of (get_comp db id) = "any" ->
      zone_penalty db r id placement w h 3 = 0)
  /\ (zone_of (get_comp db id) <> "any" ->
      zone_penalty db r id placement w h 3
      = spec_distance (get_pos r placement) (w / 2, h / 2)
        * zone_weight (priority_of (get_comp db id))).
Proof.
  intros Hz. pose proof (zone_centre_unknown _ w h 3 Hz) as Hc.
  split; [exact Hc|]. unfold zone_penalty. split; intros Hany.
  - rewrite decide_True by assumption. reflexivity.
  - rewrite decide_False by assumption. rewrite Hc.
    destruct (get_pos r placement) as [px py].
    rewrite hypot_distance. reflexivity.
Qed.

End WiringZoneProperties.

Lemma corner_unrecognised : "corner" ∉ spec_zone_names.
Proof.
  unfold spec_zone_names. rewrite !elem_of_cons, elem_of_nil.
  intros H. repeat destruct H as [H|H]; try discriminate; exact H.
Qed.

(** C4 fails as stated: the zone ["corner"] is not recognised, it resolves
    to the centre of the 100 x 80 board, and an instance at the origin
    pays a zone penalty that is not 0. *)
Lemma zone_unrecognised_penalised :
  zone_of (get_comp db_corner "jack") = "corner"
  /\ ("corner" ∉ spec_zone_names)
  /\ zone_centre "corner" 100 80 3 = (100 / 2, 80 / 2)
  /\ zone_penalty db_corner "U1" "jack" at_origin 100 80 3 <> 0.
Proof.
  assert (Hz : zone_of (get_comp db_corner "jack") = "corner") by reflexivity.
  pose proof corner_unrecognised as Hn.
  split; [exact Hz|]. split; [exact Hn|]. split.
  - apply zone_centre_unknown. right. exact Hn.
  - unfold zone_penalty. rewrite Hz.
    rewrite decide_False by discriminate.
    rewrite (zone_centre_unknown "corner" 100 80 3) by (right; exact Hn).
    replace (get_pos "U1" at_origin) with (0, 0) by reflexivity.
    pose proof (hypot_pos (0 - 100 / 2) (0 - 80 / 2)) as Hh.
    pose proof (zone_weight_pos (priority_of (get_comp db_corner "jack"))) as Hw.
    assert (0 < hypot (0 - 100 / 2) (0 - 80 / 2)) by (apply Hh; left; lra).
    nra.
Qed.

(** ** The annealing loop *)

Section AnnealingProperties.

Variable db : catalog.
Variable tp : tape.
Variable clock : nat -> R.

Variable components : list component.
Variables w h : R.
Variable mcu_ref : option string.
Variables time_cap t0 : R.

Lemma accept_draws (delta T0 : R) (g g' : nat) (ok : bool) :
  accept tp delta T0 g = (ok, g') -> (g <= g')%nat.
Proof.
  unfold accept, random_random. destruct Rlt_dec; intros Heq; inversion Heq; lia.
Qed.

(** What one turn of the loop does to the variables. *)
Lemma sa_iteration_cases (refs : list string) (st : sa_state) :
  match sa_iteration db tp clock components refs w h mcu_ref time_cap t0 st with
  | Break st' =>
      current st' = current st /\ cur_s st' = cur_s st /\
      best st' = best st /\ best_s st' = best_s st /\
      T st' = T st /\ itr st' = itr st /\
      (itr st mod 200 = 0)%nat /\ time_cap < clock (ticks st) - t0
  | Next st' =>
      itr st' = S (itr st) /\
      (((length refs < 2)%nat /\
        current st' = current st /\ cur_s st' = cur_s st /\
        best st' = best st /\ best_s st' = best_s st /\ T st' = T st)
       \/
       (exists candidate g1,
          select_move db tp components refs w h 3 (T st) (current st) (draws st)
          = Moved candidate g1 /\
          T st' = T st * alpha /\
          (g1 <= draws st')%nat /\
          ((current st' = candidate /\
            cur_s st' = score db components candidate w h mcu_ref /\
            ((best st' = candidate /\ best_s st' = cur_s st' /\ cur_s st' < best_s st)
             \/ (best st' = best st /\ best_s st' = best_s st /\
                 ~ cur_s st' < best_s st)))
           \/ (current st' = current st /\ cur_s st' = cur_s st /\
               best st' = best st /\ best_s st' = best_s st))))
  | Raise =>
      select_move db tp components refs w h 3 (T st) (current st) (draws st) = Raised
  end.
Proof.
  unfold sa_iteration.
  destruct (itr st mod 200 =? 0)%nat eqn:Hchk.
  - destruct (Rlt_dec time_cap (clock (ticks st) - t0)) as [Hover|Hover].
    + simpl. apply Nat.eqb_eq in Hchk. tauto.
    + destruct select_move as [candidate g1|g1|] eqn:Hmv; [| |reflexivity].
      * destruct accept as [[|] g2] eqn:Hacc; apply accept_draws in Hacc;
          simpl; (split; [reflexivity|]); right;
          exists candidate, g1; (split; [reflexivity|]); (split; [reflexivity|]);
          (split; [exact Hacc|]).
        -- left. do 2 (split; [reflexivity|]).
           destruct Rlt_dec; [left|right]; tauto.
        -- right. tauto.
      * simpl. split; [reflexivity|]. left.
        revert Hmv. unfold select_move, translate_move, rotate_move, swap_move, random_random.
        repeat match goal with
               | |- context [Rlt_dec ?a ?b] => destruct (Rlt_dec a b)
               | |- context [match ?e with _ => _ end] => destruct e eqn:?
               end; try discriminate.
        intros _. split; [|tauto].
        match goal with H : (_ <? 2)%nat = true |- _ => apply Nat.ltb_lt in H; exact H end.
  - destruct select_move as [candidate g1|g1|] eqn:Hmv; [| |reflexivity].
    + destruct accept as [[|] g2] eqn:Hacc; apply accept_draws in Hacc;
        simpl; (split; [reflexivity|]); right;
        exists candidate, g1; (split; [reflexivity|]); (split; [reflexivity|]);
        (split; [exact Hacc|]).
      * left. do 2 (split; [reflexivity|]).
        destruct Rlt_dec; [left|right]; tauto.
      * right. tauto.
    + simpl. split; [reflexivity|]. left.
      revert Hmv. unfold select_move, translate_move, rotate_move, swap_move, random_random.
      repeat match goal with
             | |- context [Rlt_dec ?a ?b] => destruct (Rlt_dec a b)
             | |- context [match ?e with _ => _ end] => destruct e eqn:?
             end; try discriminate.
      intros _. split; [|tauto].
      match goal with H : (_ <? 2)%nat = true |- _ => apply Nat.ltb_lt in H; exact H end.
Qed.

Lemma sa_iteration_draws_break (refs : list string) (st st' : sa_state) :
  sa_iteration db tp clock components refs w h mcu_ref time_cap t0 st = Break st' ->
  draws st' = draws st.
Proof.
  unfold sa_iteration.
  destruct (itr st mod 200 =? 0)%nat.
  - destruct Rlt_dec.
    + intros Heq. inversion Heq. reflexivity.
    + destruct select_move; [destruct accept|..]; discriminate.
  - destruct select_move; [destruct accept|..]; discriminate.
Qed.

(** An invariant of the variables of the loop holds of its result. *)
Lemma sa_loop_invariant (P : sa_state -> Prop) (refs : list string) :
  (forall st st', P st -> T_min < T st ->
     sa_iteration db tp clock components refs w h mcu_ref time_cap t0 st = Break st' ->
     P st') ->
  (forall st st', P st -> T_min < T st ->
     sa_iteration db tp clock components refs w h mcu_ref time_cap t0 st = Next st' ->
     P st') ->
  forall left st st', P st ->
    sa_loop db tp clock left components refs w h mcu_ref time_cap t0 st = Some st' ->
    P st'.
Proof.
  intros Hbreak Hnext. induction left as [|left IH]; intros st st' HP Hrun; simpl in Hrun.
  - inversion Hrun; subst; exact HP.
  - destruct (Rlt_dec T_min (T st)) as [HT|HT].
    + destruct sa_iteration as [st1|st1|] eqn:Hit.
      * inversion Hrun; subst. eapply Hbreak; eassumption.
      * eapply IH; [|exact Hrun]. eapply Hnext; eassumption.
      * discriminate.
    + inversion Hrun; subst; exact HP.
Qed.

Lemma tracks_best_step (refs : list string) (init_s : R) (st st' : sa_state) :
  tracks_best db components w h mcu_ref init_s st ->
  sa_iteration db tp clock components refs w h mcu_ref time_cap t0 st = Break st'
  \/ sa_iteration db tp clock components refs w h mcu_ref time_cap t0 st = Next st' ->
  tracks_best db components w h mcu_ref init_s st'.
Proof.
  intros (Hle & Hb & Hc) Hit.
  pose proof (sa_iteration_cases refs st) as Hcases.
  unfold tracks_best.
  destruct Hit as [Hit|Hit]; rewrite Hit in Hcases.
  - destruct Hcases as (-> & -> & -> & -> & _). tauto.
  - destruct Hcases as (_ & [(_ & -> & -> & -> & -> & _)|(candidate & g1 & _ & _ & _ & Hacc)]);
      [tauto|].
    destruct Hacc as [(-> & Hs & [(-> & Hbs & Hlt)|(-> & -> & _)])|(-> & -> & -> & ->)].
    + rewrite Hbs, Hs in *. repeat split; lra.
    + rewrite Hs. tauto.
    + tauto.
Qed.

(** *** No exception escapes when every reference has a position *)

Lemma random_choice_elem (refs : list string) (g : nat) :
  refs <> [] ->
  exists r, random_choice tp refs g = (Some r, S g) /\ r ∈ refs.
Proof.
  intros Hne. unfold random_choice.
  assert (Hlt : (t_nat tp g mod length refs < length refs)%nat).
  { apply Nat.mod_upper_bound. destruct refs; [contradiction|simpl; lia]. }
  apply lookup_lt_is_Some_2 in Hlt as [r Hr].
  exists r. rewrite Hr. split; [reflexivity|].
  eapply list_elem_of_lookup_2; eassumption.
Qed.

Lemma random_sample2_elem (refs : list string) (g : nat) :
  (2 <= length refs)%nat ->
  exists r1 r2, random_sample2 tp refs g = (Some (r1, r2), S (S g))
                /\ r1 ∈ refs /\ r2 ∈ refs.
Proof.
  intros Hlen. unfold random_sample2.
  set (n := length refs) in *.
  set (i := (t_nat tp g mod n)%nat).
  set (j' := (t_nat tp (S g) mod (n - 1))%nat).
  assert (Hi : (i < n)%nat) by (apply Nat.mod_upper_bound; lia).
  assert (Hj' : (j' < n - 1)%nat) by (apply Nat.mod_upper_bound; lia).
  assert (Hj : ((if (j' <? i)%nat then j' else S j') < n)%nat)
    by (destruct (j' <? i)%nat; lia).
  apply lookup_lt_is_Some_2 in Hi as [r1 Hr1].
  apply lookup_lt_is_Some_2 in Hj as [r2 Hr2].
  exists r1, r2.
  destruct (n <? 2)%nat eqn:Hn; [apply Nat.ltb_lt in Hn; lia|].
  rewrite Hr1, Hr2.
  split; [reflexivity|].
  split; eapply list_elem_of_lookup_2; eassumption.
Qed.

Lemma find_by_ref (l : list component) (r : string) :
  r ∈ map ref l ->
  exists rc, List.find (fun rc => bool_decide (ref rc = r)) l = Some rc.
Proof.
  induction l as [|c l IH]; simpl; intros Hin.
  - inversion Hin.
  - destruct (bool_decide (ref c = r)) eqn:Hc; [eauto|].
    apply bool_decide_eq_false in Hc.
    apply elem_of_cons in Hin as [Heq|Hin]; [congruence|auto].
Qed.

Lemma placed_insert (refs : list string) (placement : placement_t)
    (r : string) (p : pos) :
  placed refs placement -> placed refs (<[r := p]> placement).
Proof.
  intros Hpl r' Hr'. destruct (decide (r = r')) as [->|Hne].
  - rewrite lookup_insert_eq. eauto.
  - rewrite lookup_insert_ne by assumption. auto.
Qed.

Lemma select_move_placed (T0 : R) (candidate : placement_t) (g : nat) :
  (2 <= length components)%nat ->
  placed (map ref components) candidate ->
  exists candidate' g',
    select_move db tp components (map ref components) w h 3 T0 candidate g
    = Moved candidate' g'
    /\ placed (map ref components) candidate'.
Proof.
  intros Hlen Hpl.
  assert (Hrefs : map ref components <> []) by (destruct components; [simpl in Hlen; lia|discriminate]).
  assert (Hlen' : (2 <= length (map ref components))%nat) by (rewrite length_map; exact Hlen).
  unfold select_move, random_random.
  destruct (Rlt_dec (t_unit tp g) 0.5) as [_|_];
    [|destruct (Rlt_dec (t_unit tp g) 0.7) as [_|_]].
  - unfold translate_move.
    destruct (random_choice_elem _ (S g) Hrefs) as (r & -> & Hr).
    destruct (find_by_ref _ _ Hr) as [rc ->].
    destruct (Hpl r Hr) as [p ->].
    unfold random_gauss. eexists _, _. split; [reflexivity|].
    apply placed_insert, Hpl.
  - unfold rotate_move.
    destruct (random_choice_elem _ (S g) Hrefs) as (r & -> & Hr).
    destruct (Hpl r Hr) as [p ->].
    eexists _, _. split; [reflexivity|].
    apply placed_insert, Hpl.
  - unfold swap_move.
    destruct (length (map ref components) <? 2)%nat eqn:Hn;
      [apply Nat.ltb_lt in Hn; lia|].
    destruct (random_sample2_elem _ (S g) Hlen') as (r1 & r2 & -> & Hr1 & Hr2).
    destruct (Hpl r1 Hr1) as [p1 ->]. destruct (Hpl r2 Hr2) as [p2 ->].
    eexists _, _. split; [reflexivity|].
    apply placed_insert, placed_insert, Hpl.
Qed.

Lemma sa_iteration_placed (st : sa_state) :
  (2 <= length components)%nat ->
  placed (map ref components) (current st) ->
  match sa_iteration db tp clock components (map ref components) w h mcu_ref
          time_cap t0 st with
  | Break st' | Next st' => placed (map ref components) (current st')
  | Raise => False
  end.
Proof.
  intros Hlen Hpl.
  destruct (select_move_placed (T st) (current st) (draws st) Hlen Hpl)
    as (candidate & g' & Hmv & Hpl').
  pose proof (sa_iteration_cases (map ref components) st) as Hcases.
  destruct sa_iteration as [st'|st'|].
  - destruct Hcases as (-> & _). exact Hpl.
  - destruct Hcases as (_ & [(_ & -> & _)|(c & g1 & Hc & _ & _ & [(-> & _)|(-> & _)])]);
      try exact Hpl.
    rewrite Hmv in Hc. inversion Hc; subst. exact Hpl'.
  - rewrite Hmv in Hcases. discriminate.
Qed.

Lemma sa_loop_total (left : nat) (st : sa_state) :
  (2 <= length components)%nat ->
  placed (map ref components) (current st) ->
  exists st',
    sa_loop db tp clock left components (map ref components) w h mcu_ref
      time_cap t0 st = Some st'.
Proof.
  intros Hlen. revert st. induction left as [|left IH]; intros st Hpl; simpl.
  - eauto.
  - destruct (Rlt_dec T_min (T st)); [|eauto].
    pose proof (sa_iteration_placed st Hlen Hpl) as Hit.
    destruct sa_iteration as [st'|st'|]; [eauto|auto|contradiction].
Qed.

(** *** The cooling schedule *)

Lemma alpha_pow_10 : 0.970401776 <= alpha ^ 10 <= 0.970401777.
Proof. unfold alpha. simpl. lra. Qed.

Lemma cooling_1690 : T_init * alpha ^ 1690 <= T_min.
Proof.
  assert (H1 : alpha ^ 1690 <= 0.006234729).
  { change 1690%nat with (10 * 13 * 13)%nat. rewrite !pow_mult.
    pose proof alpha_pow_10 as [Hl Hu].
    assert (Ha : (alpha ^ 10) ^ 13 <= 0.67666012).
    { apply Rle_trans with (0.970401777 ^ 13).
      - apply pow_incr. lra.
      - simpl. lra. }
    assert (H0 : 0 <= (alpha ^ 10) ^ 13) by (apply pow_le; lra).
    apply Rle_trans with (0.67666012 ^ 13).
    - apply pow_incr. lra.
    - simpl. lra. }
  unfold T_init, T_min. lra.
Qed.

Lemma cooling_1689 : T_min < T_init * alpha ^ 1689.
Proof.
  assert (H1 : 0.006234727 <= alpha ^ 1690).
  { change 1690%nat with (10 * 13 * 13)%nat. rewrite !pow_mult.
    pose proof alpha_pow_10 as [Hl Hu].
    assert (Ha : 0.676660109 <= (alpha ^ 10) ^ 13).
    { apply Rle_trans with (0.970401776 ^ 13).
      - simpl. lra.
      - apply pow_incr. lra. }
    apply Rle_trans with (0.676660109 ^ 13).
    - simpl. lra.
    - apply pow_incr. lra. }
  rewrite <- (tech_pow_Rmult alpha 1689) in H1.
  remember (alpha ^ 1689) as p eqn:Hp. clear Hp.
  unfold T_init, T_min, alpha in *. lra.
Qed.

Lemma alpha_pow_antitone (n m : nat) : (n <= m)%nat -> alpha ^ m <= alpha ^ n.
Proof.
  intros Hnm. replace m with (n + (m - n))%nat by lia. rewrite pow_add.
  assert (0 <= alpha ^ n) by (apply pow_le; unfold alpha; lra).
  assert (alpha ^ (m - n) <= 1).
  { rewrite <- (pow1 (m - n)). apply pow_incr. unfold alpha; lra. }
  nra.
Qed.

Lemma still_hot (k : nat) : T_min < T_init * alpha ^ k <-> (k < 1690)%nat.
Proof.
  split.
  - intros Hk. destruct (Nat.lt_ge_cases k 1690) as [|Hge]; [assumption|].
    pose proof (alpha_pow_antitone 1690 k Hge). pose proof cooling_1690.
    unfold T_init in *. lra.
  - intros Hk. assert (Hle : (k <= 1689)%nat) by lia.
    pose proof (alpha_pow_antitone k 1689 Hle). pose proof cooling_1689.
    unfold T_init in *. lra.
Qed.

Lemma cooled_step (st st' : sa_state) :
  (2 <= length components)%nat -> cooled st ->
  sa_iteration db tp clock components (map ref components) w h mcu_ref
    time_cap t0 st = Break st'
  \/ sa_iteration db tp clock components (map ref components) w h mcu_ref
       time_cap t0 st = Next st' ->
  cooled st'.
Proof.
  intros Hlen Hc Hit.
  pose proof (sa_iteration_cases (map ref components) st) as Hcases.
  unfold cooled in *.
  destruct Hit as [Hit|Hit]; rewrite Hit in Hcases.
  - destruct Hcases as (_ & _ & _ & _ & -> & -> & _). exact Hc.
  - destruct Hcases as (-> & [(Hshort & _)|(c & g1 & _ & -> & _)]).
    + rewrite length_map in Hshort. lia.
    + rewrite Hc. simpl. ring.
Qed.

Lemma sa_loop_iterations (left : nat) (st st' : sa_state) :
  (2 <= length components)%nat ->
  cooled st -> (itr st <= 1690)%nat ->
  sa_loop db tp clock left components (map ref components) w h mcu_ref
    time_cap t0 st = Some st' ->
  (itr st' <= 1690)%nat.
Proof.
  intros Hlen Hc Hi Hrun.
  assert (HP : cooled st' /\ (itr st' <= 1690)%nat); [|tauto].
  eapply (sa_loop_invariant (fun s => cooled s /\ (itr s <= 1690)%nat));
    [| |split; eassumption|exact Hrun].
  - intros s s' [Hcs His] _ Hit.
    split; [eapply cooled_step; eauto|].
    pose proof (sa_iteration_cases (map ref components) s) as Hcases.
    rewrite Hit in Hcases. destruct Hcases as (_ & _ & _ & _ & _ & -> & _). exact His.
  - intros s s' [Hcs His] Hhot Hit.
    split; [eapply cooled_step; eauto|].
    pose proof (sa_iteration_cases (map ref components) s) as Hcases.
    rewrite Hit in Hcases. destruct Hcases as (-> & _).
    rewrite Hcs in Hhot. apply still_hot in Hhot. lia.
Qed.

(** When the time check never fires, the loop stops after exactly 1690
    iterations. *)
Lemma sa_loop_exact (left : nat) (st : sa_state) :
  (2 <= length components)%nat ->
  (forall k, ~ time_cap < clock k - t0) ->
  placed (map ref components) (current st) ->
  cooled st -> (itr st <= 1690)%nat -> (1690 - itr st <= left)%nat ->
  exists st',
    sa_loop db tp clock left components (map ref components) w h mcu_ref
      time_cap t0 st = Some st'
    /\ itr st' = 1690%nat.
Proof.
  intros Hlen Hclock. revert st.
  induction left as [|left IH]; intros st Hpl Hc Hi Hleft; simpl.
  - exists st. split; [reflexivity|lia].
  - destruct (Rlt_dec T_min (T st)) as [Hhot|Hcold].
    + pose proof Hhot as Hk. rewrite Hc in Hk. apply still_hot in Hk.
      pose proof (sa_iteration_placed st Hlen Hpl) as Hit.
      pose proof (sa_iteration_cases (map ref components) st) as Hcases.
      destruct sa_iteration as [st1|st1|] eqn:Heq; [| |contradiction].
      * destruct Hcases as (_ & _ & _ & _ & _ & _ & _ & Hover).
        exfalso. exact (Hclock _ Hover).
      * assert (Hitr : itr st1 = S (itr st)) by tauto.
        apply IH; [assumption| |lia|lia].
        eapply cooled_step; eauto.
    + exists st. split; [reflexivity|].
      rewrite Hc in Hcold.
      destruct (Nat.lt_ge_cases (itr st) 1690) as [Hlt|]; [|lia].
      apply still_hot in Hlt. contradiction.
Qed.

End AnnealingProperties.

(** *** Rotations do not change the score *)

Lemma same_centres_refl (p : placement_t) : same_centres p p.
Proof. intros r. tauto. Qed.

Lemma same_centres_trans (p1 p2 p3 : placement_t) :
  same_centres p1 p2 -> same_centres p2 p3 -> same_centres p1 p3.
Proof.
  intros H12 H23 r. destruct (H12 r) as [-> ->]. apply H23.
Qed.

Lemma same_centres_turn (p : placement_t) (r : string) (q : pos) (rot : Z) :
  p !! r = Some q ->
  same_centres (<[r := {| x := x q; y := y q; rotation := rot |}]> p) p.
Proof.
  intros Hq r'. unfold get_pos. destruct (decide (r = r')) as [<-|Hne].
  - rewrite lookup_insert_eq, Hq. simpl. split; [reflexivity|].
    split; discriminate.
  - rewrite lookup_insert_ne by assumption. tauto.
Qed.

Section Settled.

Variable db : catalog.
Variable tp : tape.
Variable clock : nat -> R.

Variable components : list component.
Variables w h : R.
Variable mcu_ref : option string.
Variables time_cap t0 : R.

Lemma overlap_loop_same_centres (p1 p2 : placement_t) (l : list component) (s : R) :
  same_centres p1 p2 -> overlap_loop db p1 s l = overlap_loop db p2 s l.
Proof.
  intros Hsame. revert s. induction l as [|a rest IH]; intros s; simpl; [reflexivity|].
  rewrite IH. f_equal. apply fold_left_ext. intros s' b.
  unfold overlap_penalty.
  rewrite (proj1 (Hsame (ref a))), (proj1 (Hsame (ref b))). reflexivity.
Qed.

Lemma score_same_centres (p1 p2 : placement_t) :
  same_centres p1 p2 ->
  score db components p1 w h mcu_ref = score db components p2 w h mcu_ref.
Proof.
  intros Hsame. unfold score.
  rewrite (overlap_loop_same_centres p1 p2) by assumption. f_equal.
  assert (Hw : wire_length_score db components p1 mcu_ref
               = wire_length_score db components p2 mcu_ref).
  { unfold wire_length_score.
    assert (Hno : no_mcu mcu_ref p1 = no_mcu mcu_ref p2).
    { unfold no_mcu. destruct mcu_ref as [m|]; [|reflexivity]. f_equal.
      apply bool_decide_ext. apply Hsame. }
    rewrite Hno. destruct (no_mcu mcu_ref p2); [reflexivity|].
    rewrite (proj1 (Hsame (or_else mcu_ref ""))).
    destruct (get_pos (or_else mcu_ref "") p2) as [mx my].
    apply fold_left_ext. intros s rc. unfold wire_step.
    rewrite (proj1 (Hsame (ref rc))). reflexivity. }
  rewrite Hw. apply fold_left_ext. intros s rc. unfold zone_penalty.
  rewrite (proj1 (Hsame (ref rc))). reflexivity.
Qed.

(** A draw in [0.5, 0.7) selects the rotation, which keeps the centres. *)
Lemma select_move_rotation (refs : list string) (T0 : R)
    (candidate candidate' : placement_t) (g g' : nat) :
  0.5 <= t_unit tp g < 0.7 ->
  select_move db tp components refs w h 3 T0 candidate g = Moved candidate' g' ->
  same_centres candidate' candidate /\ (g <= g')%nat.
Proof.
  intros [Hlo Hhi]. unfold select_move, random_random.
  destruct (Rlt_dec (t_unit tp g) 0.5) as [Hlt|_]; [lra|].
  destruct (Rlt_dec (t_unit tp g) 0.7) as [_|Hge]; [|lra].
  unfold rotate_move, random_choice.
  destruct (refs !! _) as [r|]; [|discriminate].
  destruct (candidate !! r) as [q|] eqn:Hq; [|discriminate].
  intros Heq. inversion Heq; subst. split; [|lia].
  apply same_centres_turn. exact Hq.
Qed.

Lemma settled_step (B : placement_t) (g0 : nat) (st st' : sa_state) :
  (2 <= length components)%nat ->
  (forall k, (g0 <= k)%nat -> 0.5 <= t_unit tp k < 0.7) ->
  settled db components w h mcu_ref B g0 st ->
  sa_iteration db tp clock components (map ref components) w h mcu_ref
    time_cap t0 st = Break st'
  \/ sa_iteration db tp clock components (map ref components) w h mcu_ref
       time_cap t0 st = Next st' ->
  settled db components w h mcu_ref B g0 st'.
Proof.
  intros Hlen Htape (Hb & Hbs & Hcs & Hsame & Hg) Hit.
  pose proof (sa_iteration_cases db tp clock components w h mcu_ref time_cap t0
                (map ref components) st) as Hcases.
  unfold settled.
  destruct Hit as [Hit|Hit]; rewrite Hit in Hcases.
  - destruct Hcases as (Hc & Hcs' & Hb' & Hbs' & _).
    pose proof (sa_iteration_draws_break db tp clock components w h mcu_ref
                  time_cap t0 _ _ _ Hit) as Hd.
    rewrite Hc, Hcs', Hb', Hbs', Hd. tauto.
  - destruct Hcases as (_ & [(Hshort & _)|(c & g1 & Hmv & _ & Hg1 & Hacc)]).
    { rewrite length_map in Hshort. lia. }
    destruct (select_move_rotation _ _ _ _ _ _ (Htape _ Hg) Hmv) as [Hrot Hgg].
    assert (Hsc : score db components c w h mcu_ref
                  = score db components B w h mcu_ref).
    { apply score_same_centres. eapply same_centres_trans; eassumption. }
    destruct Hacc as [(-> & Hs & [(_ & _ & Hlt)|(-> & -> & _)])|(-> & -> & -> & ->)].
    + rewrite Hs, Hsc, Hbs in Hlt. lra.
    + rewrite Hs, Hsc.
      split; [assumption|]. split; [assumption|]. split; [reflexivity|].
      split; [exact (same_centres_trans _ _ _ Hrot Hsame)|lia].
    + split; [assumption|]. split; [assumption|]. split; [assumption|].
      split; [assumption|lia].
Qed.

End Settled.

(** ** More on the zone model and the score *)

(** X5: every zone name, recognised or not, resolves to a point of the
    margin-reduced rectangle of a board that is at least two margins wide
    and high. *)
Theorem zone_centre_inside (zone : string) (w h margin : R) :
  0 <= margin -> 2 * margin <= w -> 2 * margin <= h ->
  margin <= fst (zone_centre zone w h margin) <= w - margin
  /\ margin <= snd (zone_centre zone w h margin) <= h - margin.
Proof.
  intros Hm Hw Hh. unfold zone_centre, zones. cbv zeta.
  repeat (rewrite lookup_list_to_map_cons;
          destruct (decide (_ = zone)) as [_|_]; [cbn [or_else fst snd]; lra|]).
  cbn [list_to_map foldr]. rewrite lookup_empty. cbn [or_else fst snd]. lra.
Qed.

Section ScoreMore.

Variable db : catalog.

Lemma hypot_zero_iff (a b : R) : hypot a b = 0 <-> a = 0 /\ b = 0.
Proof.
  split.
  - intros H0. destruct (Req_dec a 0) as [Ha|Ha]; [destruct (Req_dec b 0) as [Hb|Hb]|].
    + tauto.
    + pose proof (hypot_pos a b (or_intror Hb)). lra.
    + pose proof (hypot_pos a b (or_introl Ha)). lra.
  - intros [-> ->]. unfold hypot. replace (0 * 0 + 0 * 0) with 0 by ring. apply sqrt_0.
Qed.

Lemma zone_penalty_nonneg (r id : string) (placement : placement_t) (w h : R) :
  0 <= zone_penalty db r id placement w h 3.
Proof.
  unfold zone_penalty.
  destruct (decide (zone_of (get_comp db id) = "any")); [lra|].
  destruct (get_pos r placement) as [px py].
  destruct (zone_centre _ w h 3) as [zx zy].
  pose proof (zone_weight_pos (priority_of (get_comp db id))).
  pose proof (hypot_nonneg (px - zx) (py - zy)). nra.
Qed.

(** X8: the zone penalty of an instance is never negative, and it is 0
    exactly when its zone is ["any"] or it sits on the centre of its
    zone. *)
Theorem zone_penalty_zero_iff (r id : string) (placement : placement_t) (w h : R) :
  0 <= zone_penalty db r id placement w h 3
  /\ (zone_penalty db r id placement w h 3 = 0
      <-> zone_of (get_comp db id) = "any"
          \/ get_pos r placement = zone_centre (zone_of (get_comp db id)) w h 3).
Proof.
  unfold zone_penalty.
  destruct (decide (zone_of (get_comp db id) = "any")) as [Hany|Hany].
  - split; [lra|]. tauto.
  - destruct (get_pos r placement) as [px py].
    destruct (zone_centre _ w h 3) as [zx zy].
    pose proof (zone_weight_pos (priority_of (get_comp db id))) as Hw.
    pose proof (hypot_nonneg (px - zx) (py - zy)) as Hh.
    split; [nra|]. split.
    + intros H0. right.
      assert (Hz : hypot (px - zx) (py - zy) = 0) by nra.
      apply hypot_zero_iff in Hz as [Hx Hy]. f_equal; lra.
    + intros [Hc|Heq]; [contradiction|]. injection Heq as -> ->.
      replace (zx - zx) with 0 by ring. replace (zy - zy) with 0 by ring.
      rewrite (proj2 (hypot_zero_iff 0 0)) by tauto. ring.
Qed.

Lemma spec_category_weight_nonneg (cat : string) : 0 <= spec_category_weight cat.
Proof. unfold spec_category_weight. repeat destruct (decide _); lra. Qed.

Lemma wire_length_score_nonneg (components : list component)
    (placement : placement_t) (mcu_ref : option string) :
  0 <= wire_length_score db components placement mcu_ref.
Proof.
  unfold wire_length_score. destruct (no_mcu mcu_ref placement); [lra|].
  destruct (get_pos (or_else mcu_ref "") placement) as [mx my].
  assert (H : forall l s, 0 <= s ->
            0 <= fold_left (wire_step db placement (or_else mcu_ref "") mx my) l s).
  { induction l as [|rc l IH]; intros s Hs; simpl; [exact Hs|].
    apply IH. unfold wire_step. destruct (decide _); [exact Hs|].
    destruct (get_pos (ref rc) placement) as [px py].
    pose proof (hypot_nonneg (px - mx) (py - my)).
    unfold wire_weight. rewrite WEIGHTS_lookup.
    pose proof (spec_category_weight_nonneg
                  (or_else (category (get_comp db (component_id rc))) "passive")).
    nra. }
  apply H. lra.
Qed.

Lemma zone_term_nonneg (components : list component) (placement : placement_t)
    (w h : R) :
  0 <= zone_term db components placement w h.
Proof.
  unfold zone_term.
  rewrite (fold_left_Rplus_sum
             (fun rc => zone_penalty db (ref rc) (component_id rc) placement w h 3)).
  apply Rsum_nonneg, Forall_map, Forall_forall. intros rc _.
  apply zone_penalty_nonneg.
Qed.

Lemma score_ge_0 (components : list component) (placement : placement_t)
    (w h : R) (mcu_ref : option string) :
  0 <= score db components placement w h mcu_ref.
Proof.
  pose proof (wire_length_score_nonneg components placement mcu_ref).
  pose proof (zone_term_nonneg components placement w h).
  pose proof (overlap_term_nonneg db placement components).
  rewrite score_terms. lra.
Qed.

(** X10: the score is the sum of the wiring, zone and overlap terms, none of
    which is negative. *)
Theorem score_nonneg (components : list component) (placement : placement_t)
    (w h : R) (mcu_ref : option string) :
  score db components placement w h mcu_ref
  = wire_length_score db components placement mcu_ref
    + zone_term db components placement w h
    + overlap_term db components placement
  /\ 0 <= wire_length_score db components placement mcu_ref
  /\ 0 <= zone_term db components placement w h
  /\ 0 <= overlap_term db components placement
  /\ 0 <= score db components placement w h mcu_ref.
Proof.
  pose proof (wire_length_score_nonneg components placement mcu_ref).
  pose proof (zone_term_nonneg components placement w h).
  pose proof (overlap_term_nonneg db placement components).
  rewrite score_terms. repeat split; try assumption; lra.
Qed.

(** X11: the score does not look at rotations: turning an instance, or giving
    it any rotation at all, leaves the score as it is. *)
Theorem score_ignores_rotation (components : list component)
    (placement : placement_t) (w h : R) (mcu_ref : option string)
    (r : string) (p : pos) (rot : Z) :
  placement !! r = Some p ->
  score db components (<[r := {| x := x p; y := y p; rotation := rot |}]> placement)
    w h mcu_ref
  = score db components placement w h mcu_ref.
Proof.
  intros Hp. apply score_same_centres, same_centres_turn. exact Hp.
Qed.

Lemma common_extent_le (ca wa cb wb : R) :
  spec_common_extent ca wa cb wb <= (wa + wb) / 2 - Rabs (ca - cb).
Proof.
  destruct (Rle_lt_dec (Rabs (wa - wb) / 2) (Rabs (ca - cb))) as [H|H].
  - rewrite (overlap_x_common_extent _ _ _ _ H). lra.
  - destruct (overlap_x_nested _ _ _ _ H) as [-> Hlt]. lra.
Qed.

Lemma common_extent_pos_iff (ca wa cb wb : R) :
  0 < wa -> 0 < wb ->
  (0 < spec_common_extent ca wa cb wb <-> Rabs (ca - cb) < (wa + wb) / 2).
Proof.
  intros Ha Hb. unfold spec_common_extent, Rabs, Rmax, Rmin.
  repeat match goal with
         | |- context [Rcase_abs ?e] => destruct (Rcase_abs e)
         | |- context [Rle_dec ?a ?b] => destruct (Rle_dec a b)
         end; split; intros; lra.
Qed.

(** X9: the penalty of a pair is never below 50 times the area the two
    inflated footprints have in common, and it is 50 times that area
    when, on each axis, neither footprint reaches beyond the other on
    both sides. *)
Theorem overlap_penalty_area (placement : placement_t) (a b : component) :
  0 < spec_inflated_width db a -> 0 < spec_inflated_height db a ->
  0 < spec_inflated_width db b -> 0 < spec_inflated_height db b ->
  50 * spec_common_area db placement a b
  <= overlap_penalty db (ref a) a (ref b) b placement
  /\ (Rabs (spec_inflated_width db a - spec_inflated_width db b) / 2
      <= Rabs (fst (get_pos (ref a) placement) - fst (get_pos (ref b) placement)) ->
      Rabs (spec_inflated_height db a - spec_inflated_height db b) / 2
      <= Rabs (snd (get_pos (ref a) placement) - snd (get_pos (ref b) placement)) ->
      overlap_penalty db (ref a) a (ref b) b placement
      = 50 * spec_common_area db placement a b).
Proof.
  intros Hwa Hha Hwb Hhb. rewrite overlap_penalty_unfold. unfold spec_common_area.
  set (ax := fst (get_pos (ref a) placement)). set (ay := snd (get_pos (ref a) placement)).
  set (bx := fst (get_pos (ref b) placement)). set (b_y := snd (get_pos (ref b) placement)).
  set (wa := spec_inflated_width db a) in *. set (wb := spec_inflated_width db b) in *.
  set (ha := spec_inflated_height db a) in *. set (hb := spec_inflated_height db b) in *.
  pose proof (common_extent_le ax wa bx wb) as Hlex.
  pose proof (common_extent_le ay ha b_y hb) as Hley.
  pose proof (common_extent_pos_iff ax wa bx wb Hwa Hwb) as Hpx.
  pose proof (common_extent_pos_iff ay ha b_y hb Hha Hhb) as Hpy.
  set (ex := spec_common_extent ax wa bx wb) in *.
  set (ey := spec_common_extent ay ha b_y hb) in *.
  destruct (Rlt_dec (Rabs (ax - bx)) ((wa + wb) / 2)) as [Hx|Hx].
  - destruct (Rlt_dec (Rabs (ay - b_y)) ((ha + hb) / 2)) as [Hy|Hy].
    + apply Hpx in Hx. apply Hpy in Hy.
      rewrite (Rmax_right 0 ex), (Rmax_right 0 ey) by lra.
      split; [nra|]. intros Hnx Hny.
      unfold ex, ey.
      rewrite <- (overlap_x_common_extent _ _ _ _ Hnx).
      rewrite <- (overlap_x_common_extent _ _ _ _ Hny). ring.
    + assert (Hey : ey <= 0) by (destruct (Rle_lt_dec ey 0); [assumption|tauto]).
      rewrite (Rmax_left 0 ey) by lra. split; [lra|]. intros; ring.
  - assert (Hex : ex <= 0) by (destruct (Rle_lt_dec ex 0); [assumption|tauto]).
    rewrite (Rmax_left 0 ex) by lra. split; [lra|]. intros; ring.
Qed.

End ScoreMore.

(** ** The optimiser as a whole *)

Lemma MAX_ITR_succ : MAX_ITR = S (Nat.pred MAX_ITR).
Proof. reflexivity. Qed.

Lemma MAX_ITR_above : (1690 < MAX_ITR)%nat.
Proof. apply Nat.ltb_lt. vm_compute. reflexivity. Qed.

Lemma Int_part_IZR (z : Z) : Int_part (IZR z) = z.
Proof. symmetry. apply Int_part_spec. lra. Qed.

Lemma round_half_even_IZR (z : Z) : round_half_even (IZR z) = z.
Proof.
  unfold round_half_even. rewrite Int_part_IZR.
  destruct Rlt_dec as [_|Hn]; [reflexivity|]. exfalso. apply Hn. lra.
Qed.

(** Rounding to [n] digits leaves a number with at most [n] digits as it is. *)
Lemma py_round_exact (z : Z) (n : nat) (v : R) :
  v * 10 ^ n = IZR z -> py_round v n = v.
Proof.
  intros Hv. unfold py_round. rewrite Hv, round_half_even_IZR, <- Hv.
  assert (0 < 10 ^ n) by (apply pow_lt; lra).
  field. lra.
Qed.

Lemma py_round_0 (n : nat) : py_round 0 n = 0.
Proof. apply (py_round_exact 0). lra. Qed.

Section AssignLength.

Variable db : catalog.

Lemma assign_refs_fold (l : list resolved_component)
    (counters : gmap string nat) (result : list component) :
  length (snd (fold_left (assign_step db) l (counters, result)))
  = (length result + length l)%nat.
Proof.
  revert counters result. induction l as [|rc l IH]; intros counters result; simpl.
  - lia.
  - rewrite IH, length_app. simpl. lia.
Qed.

Lemma length_assign_refs (l : list resolved_component) :
  length (assign_refs db l) = length l.
Proof. unfold assign_refs. rewrite assign_refs_fold. reflexivity. Qed.

End AssignLength.

Section Optimiser.

Variable db : catalog.
Variable tp : tape.
Variable clock : nat -> R.

Lemma sa_loop_succ (left : nat) (components : list component)
    (refs : list string) (w h : R) (mcu_ref : option string)
    (time_cap t0 : R) (st : sa_state) :
  sa_loop db tp clock (S left) components refs w h mcu_ref time_cap t0 st
  = if Rlt_dec T_min (T st) then
      match sa_iteration db tp clock components refs w h mcu_ref time_cap t0 st with
      | Break st' => Some st'
      | Next st' => sa_loop db tp clock left components refs w h mcu_ref time_cap t0 st'
      | Raise => None
      end
    else Some st.
Proof. reflexivity. Qed.

(** C6: with at most one component the optimiser returns the seed
    placement itself, initial score 0, final score 0 and 0 iterations; and
    the stage, on a list of at most one resolved component, writes the
    scores 0 and 0 and the iteration count 0. *)
Theorem trivial_case (components : list component) (placement : placement_t)
    (w h : R) (mcu_ref : option string) (time_cap : R) (g : nat)
    (res : resolved) (board : option (R * R)) :
  (length components <= 1)%nat ->
  (length (resolved_components res) <= 1)%nat ->
  simulated_annealing db tp clock components placement w h mcu_ref time_cap g
  = Some (placement, 0, 0, 0%nat)
  /\ exists d, run db tp clock res board = Some d
               /\ score_initial d = 0 /\ score_final d = 0
               /\ iterations d = 0%nat.
Proof.
  intros Hlen Hres. split.
  - unfold simulated_annealing.
    apply Nat.leb_le in Hlen. rewrite Hlen. reflexivity.
  - unfold run. destruct (or_else board (100, 80)) as [bw bh].
    destruct (resolved_components res) as [|rc l] eqn:Hl.
    + eexists. split; [reflexivity|]. simpl. auto.
    + rewrite <- Hl in *.
      destruct (initial_placement db tp (assign_refs db (resolved_components res)) bw bh 3 0)
        as [pl g'].
      unfold simulated_annealing.
      rewrite length_assign_refs.
      apply Nat.leb_le in Hres. rewrite Hres.
      eexists. split; [reflexivity|]. simpl.
      rewrite py_round_0. auto.
Qed.

(** On more than one component, every one of which has a position in the
    seed, the optimiser returns the best placement seen with its score,
    which is not above the score of the seed, after at most 1690
    iterations. *)
Lemma anneal_returns (components : list component)
    (placement : placement_t) (w h : R) (mcu_ref : option string)
    (time_cap : R) (g : nat) :
  (1 < length components)%nat ->
  placed (map ref components) placement ->
  exists best_placement init_s final_s n,
    simulated_annealing db tp clock components placement w h mcu_ref time_cap g
    = Some (best_placement, init_s, final_s, n)
    /\ init_s = score db components placement w h mcu_ref
    /\ final_s = score db components best_placement w h mcu_ref
    /\ final_s <= init_s
    /\ (n <= 1690)%nat.
Proof.
  intros Hlen Hpl. unfold simulated_annealing.
  destruct (length components <=? 1)%nat eqn:Hle; [apply Nat.leb_le in Hle; lia|].
  set (st0 := {| current := placement;
                 cur_s := score db components placement w h mcu_ref;
                 best := placement;
                 best_s := score db components placement w h mcu_ref;
                 T := T_init; itr := 0; draws := g; ticks := 1 |}).
  destruct (sa_loop_total db tp clock components w h mcu_ref time_cap (clock 0)
              MAX_ITR st0) as [st' Hrun]; [lia|exact Hpl|].
  rewrite Hrun. exists (best st'), (cur_s st0), (best_s st'), (itr st').
  split; [reflexivity|]. split; [reflexivity|].
  assert (Htb : tracks_best db components w h mcu_ref (cur_s st0) st').
  { eapply (sa_loop_invariant db tp clock components w h mcu_ref time_cap (clock 0)
              (tracks_best db components w h mcu_ref (cur_s st0)));
      [| | |exact Hrun].
    - intros s s' Hs _ Hit. eapply tracks_best_step; eauto.
    - intros s s' Hs _ Hit. eapply tracks_best_step; eauto.
    - unfold tracks_best. simpl. repeat split; lra. }
  destruct Htb as (Hle' & Hb & _).
  split; [exact Hb|]. split; [exact Hle'|].
  eapply (sa_loop_iterations db tp clock components w h mcu_ref time_cap (clock 0)
            MAX_ITR st0); [lia| |simpl; lia|exact Hrun].
  unfold cooled. simpl. lra.
Qed.

(** C1: on more than one component, every one of which has a position in
    the seed, the optimiser returns; its initial score is the score of the
    seed, its final score is the score of the placement it returns, and
    the final score is less than or equal to the initial score. *)
Theorem final_score_le_initial (components : list component)
    (placement : placement_t) (w h : R) (mcu_ref : option string)
    (time_cap : R) (g : nat) :
  (1 < length components)%nat ->
  placed (map ref components) placement ->
  exists best_placement init_s final_s n,
    simulated_annealing db tp clock components placement w h mcu_ref time_cap g
    = Some (best_placement, init_s, final_s, n)
    /\ init_s = score db components placement w h mcu_ref
    /\ final_s = score db components best_placement w h mcu_ref
    /\ final_s <= init_s.
Proof.
  intros Hlen Hpl.
  destruct (anneal_returns components placement w h mcu_ref time_cap g Hlen Hpl)
    as (b & i & f & n & Hsa & Hi & Hf & Hle & _).
  exists b, i, f, n. auto.
Qed.

(** C10: on more than one component, every one of which has a position in
    the seed, the loop terminates and the number of iterations it reports
    is at most 1690, which is less than the cap of 8000: the temperature
    is [80 * 0.997 ^ itr], and it is at most 0.5 once [itr] is 1690. *)
Theorem iterations_below_cap (components : list component)
    (placement : placement_t) (w h : R) (mcu_ref : option string)
    (time_cap : R) (g : nat) :
  (1 < length components)%nat ->
  placed (map ref components) placement ->
  exists best_placement init_s final_s n,
    simulated_annealing db tp clock components placement w h mcu_ref time_cap g
    = Some (best_placement, init_s, final_s, n)
    /\ (n <= 1690)%nat /\ (1690 < MAX_ITR)%nat
    /\ T_init * alpha ^ 1690 <= T_min.
Proof.
  intros Hlen Hpl.
  destruct (anneal_returns components placement w h mcu_ref time_cap g Hlen Hpl)
    as (b & i & f & n & Hsa & _ & _ & _ & Hn).
  exists b, i, f, n.
  split; [exact Hsa|]. split; [exact Hn|].
  split; [exact MAX_ITR_above|exact cooling_1690].
Qed.

(** When the time check never fires the count is exactly 1690. *)
Lemma iterations_exact (components : list component)
    (placement : placement_t) (w h : R) (mcu_ref : option string)
    (time_cap : R) (g : nat) :
  (1 < length components)%nat ->
  placed (map ref components) placement ->
  (forall k, ~ time_cap < clock k - clock 0) ->
  exists best_placement init_s final_s,
    simulated_annealing db tp clock components placement w h mcu_ref time_cap g
    = Some (best_placement, init_s, final_s, 1690%nat).
Proof.
  intros Hlen Hpl Hclock. unfold simulated_annealing.
  destruct (length components <=? 1)%nat eqn:Hle; [apply Nat.leb_le in Hle; lia|].
  set (st0 := {| current := placement;
                 cur_s := score db components placement w h mcu_ref;
                 best := placement;
                 best_s := score db components placement w h mcu_ref;
                 T := T_init; itr := 0; draws := g; ticks := 1 |}).
  destruct (sa_loop_exact db tp clock components w h mcu_ref time_cap (clock 0)
              MAX_ITR st0) as (st' & Hrun & Hitr);
    [lia|exact Hclock|exact Hpl|unfold cooled; simpl; lra|simpl; lia
    |pose proof MAX_ITR_above; simpl; lia|].
  rewrite Hrun, <- Hitr. eauto.
Qed.

(** When the first time check fires the loop is left before its first
    iteration. *)
Lemma iterations_none (components : list component)
    (placement : placement_t) (w h : R) (mcu_ref : option string)
    (time_cap : R) (g : nat) :
  (1 < length components)%nat ->
  time_cap < clock 1 - clock 0 ->
  simulated_annealing db tp clock components placement w h mcu_ref time_cap g
  = Some (placement, score db components placement w h mcu_ref,
          score db components placement w h mcu_ref, 0%nat).
Proof.
  intros Hlen Hover. unfold simulated_annealing.
  destruct (length components <=? 1)%nat eqn:Hle; [apply Nat.leb_le in Hle; lia|].
  rewrite MAX_ITR_succ, sa_loop_succ. cbn [T].
  destruct (Rlt_dec T_min T_init) as [_|Hn]; [|exfalso; apply Hn; unfold T_min, T_init; lra].
  unfold sa_iteration. cbn [itr ticks Nat.modulo Nat.divmod Nat.eqb snd Nat.sub].
  destruct (Rlt_dec time_cap (clock 1 - clock 0)); [reflexivity|contradiction].
Qed.

End Optimiser.

(** ** What the output depends on *)

Lemma placed_seed_two : placed (map ref two_parts) seed_two.
Proof.
  intros r Hr. simpl in Hr. unfold seed_two.
  apply elem_of_cons in Hr as [->|Hr]; [rewrite lookup_insert_eq; eauto|].
  apply elem_of_cons in Hr as [->|Hr]; [|inversion Hr].
  rewrite lookup_insert_ne by discriminate.
  rewrite lookup_singleton_eq. eauto.
Qed.

(** C9 fails as stated: with the same generator outcomes, the same two
    components, the same seed placement and board and the same time
    budget of zero seconds, a run during which the clock does not advance
    makes 1690 iterations and a run during which it advances makes none. *)
Lemma same_budget_different_output :
  (exists best_placement init_s final_s,
     simulated_annealing ∅ quiet_tape clock_still two_parts seed_two 100 80 None 0 0
     = Some (best_placement, init_s, final_s, 1690%nat))
  /\ (exists best_placement init_s final_s,
        simulated_annealing ∅ quiet_tape clock_ticking two_parts seed_two 100 80 None 0 0
        = Some (best_placement, init_s, final_s, 0%nat))
  /\ simulated_annealing ∅ quiet_tape clock_still two_parts seed_two 100 80 None 0 0
     <> simulated_annealing ∅ quiet_tape clock_ticking two_parts seed_two 100 80 None 0 0.
Proof.
  assert (Hlen : (1 < length two_parts)%nat) by (simpl; lia).
  destruct (iterations_exact ∅ quiet_tape clock_still two_parts seed_two 100 80 None 0 0
              Hlen placed_seed_two) as (b & i & f & Hstill).
  { intros k. unfold clock_still. lra. }
  pose proof (iterations_none ∅ quiet_tape clock_ticking two_parts seed_two 100 80 None 0 0
                Hlen) as Htick.
  assert (Hover : 0 < clock_ticking 1 - clock_ticking 0)
    by (unfold clock_ticking; simpl; lra).
  specialize (Htick Hover).
  split; [exists b, i, f; exact Hstill|].
  split; [eexists _, _, _; exact Htick|].
  intros Heq. congruence.
Qed.

(** ** Reference designators on a catalogue with a digit in a prefix *)

(** C5 fails on the code: with the prefixes ["U"] and ["U1"] in the
    catalogue, the eleventh part of prefix ["U"] and the first part of
    prefix ["U1"] both receive the reference ["U11"]. *)
Lemma refs_collide :
  map ref (assign_refs db_prefixes twelve_parts)
  = [ "U1"; "U2"; "U3"; "U4"; "U5"; "U6"; "U7"; "U8"; "U9"; "U10"; "U11"; "U11" ]
  /\ ~ NoDup (map ref (assign_refs db_prefixes twelve_parts)).
Proof.
  assert (Heq : map ref (assign_refs db_prefixes twelve_parts)
                = [ "U1"; "U2"; "U3"; "U4"; "U5"; "U6"; "U7"; "U8"; "U9"; "U10";
                    "U11"; "U11" ]) by (vm_compute; reflexivity).
  split; [exact Heq|]. rewrite Heq. intros Hnd.
  assert (H : 10%nat = 11%nat); [|discriminate].
  eapply (NoDup_lookup _ 10 11 "U11" Hnd); reflexivity.
Qed.

(** ** A swap that carries a footprint across the margin *)

Lemma assign_mixed :
  assign_refs db_mixed (resolved_components mixed_parts) = mixed_components.
Proof. reflexivity. Qed.

Lemma sorted_mixed : sorted db_mixed mixed_components = mixed_components.
Proof. reflexivity. Qed.

Lemma get_comp_chip : get_comp db_mixed "chip" = entry_with_dims 1 0.5.
Proof. reflexivity. Qed.

Lemma get_comp_module : get_comp db_mixed "module" = entry_with_dims 10 10.
Proof. reflexivity. Qed.

Lemma initial_step_eval (db : catalog) (tp : tape) (w h margin : R)
    (pl : placement_t) (zo : gmap string nat) (g : nat) (rc : component)
    (X Y : R) :
  let comp := get_comp db (component_id rc) in
  let d := dims_of comp in
  let n := or_else (zo !! zone_of comp) 0%nat in
  py_round
    (Rmax (margin + width d / 2)
       (Rmin (w - margin - width d / 2)
          (fst (zone_centre (zone_of comp) w h margin)
           + (INR (n mod 4) - 1.5) * Rmax (width d + 2) 6
           + (-1 + (1 - -1) * t_unit tp g)))) 2 = X ->
  py_round
    (Rmax (margin + height d / 2)
       (Rmin (h - margin - height d / 2)
          (snd (zone_centre (zone_of comp) w h margin)
           + (INR (n / 4) - 0.5) * Rmax (height d + 2) 6
           + (-1 + (1 - -1) * t_unit tp (S g))))) 2 = Y ->
  initial_step db tp w h margin (pl, zo, g) rc
  = (<[ref rc := {| x := X; y := Y; rotation := 0 |}]> pl,
     <[zone_of comp := S n]> zo, S (S g)).
Proof.
  cbv zeta. intros <- <-. unfold initial_step, random_uniform.
  destruct (zone_centre _ w h margin) as [cx cy]. reflexivity.
Qed.

Ltac settle_round z :=
  match goal with
  | |- py_round ?e 2 = ?v =>
      replace e with v;
      [ apply (py_round_exact z); simpl; lra
      | simpl; unfold Rmax, Rmin; repeat destruct Rle_dec; lra ]
  end.

Ltac at_chip :=
  cbv zeta; cbn [part component_id]; rewrite get_comp_chip;
  change (zone_of (entry_with_dims 1 0.5)) with "any";
  change (dims_of (entry_with_dims 1 0.5)) with {| width := 1; height := 0.5 |};
  change (zone_centre "any" 30 30 3) with (30 / 2, 30 / 2).

Ltac at_module :=
  cbv zeta; cbn [part component_id]; rewrite get_comp_module;
  change (zone_of (entry_with_dims 10 10)) with "any";
  change (dims_of (entry_with_dims 10 10)) with {| width := 10; height := 10 |};
  change (zone_centre "any" 30 30 3) with (30 / 2, 30 / 2).

Lemma seed_of_mixed :
  initial_placement db_mixed tape_swap mixed_components 30 30 3 0
  = (seed_mixed, 6%nat).
Proof.
  unfold initial_placement. rewrite sorted_mixed. unfold mixed_components.
  cbn [fold_left].
  rewrite (initial_step_eval db_mixed tape_swap 30 30 3 ∅ ∅ 0 (part "chip" "U1") 6 12).
  2:{ at_chip.
      change (or_else ((∅ : gmap string nat) !! "any") 0%nat) with 0%nat.
      cbn [width height fst snd t_unit tape_swap].
      settle_round 600%Z. }
  2:{ at_chip.
      change (or_else ((∅ : gmap string nat) !! "any") 0%nat) with 0%nat.
      cbn [width height fst snd t_unit tape_swap].
      settle_round 1200%Z. }
  cbv zeta. cbn [part component_id ref]. rewrite get_comp_chip.
  change (zone_of (entry_with_dims 1 0.5)) with "any".
  change (or_else ((∅ : gmap string nat) !! "any") 0%nat) with 0%nat.
  rewrite (initial_step_eval db_mixed tape_swap 30 30 3 _ _ 2 (part "module" "U2") 9.8 9).
  2:{ at_module.
      change (or_else ((<["any" := 1%nat]> ∅ : gmap string nat) !! "any") 0%nat) with 1%nat.
      cbn [width height fst snd t_unit tape_swap].
      settle_round 980%Z. }
  2:{ at_module.
      change (or_else ((<["any" := 1%nat]> ∅ : gmap string nat) !! "any") 0%nat) with 1%nat.
      cbn [width height fst snd t_unit tape_swap].
      settle_round 900%Z. }
  cbv zeta. cbn [part component_id ref]. rewrite get_comp_module.
  change (zone_of (entry_with_dims 10 10)) with "any".
  change (or_else ((<["any" := 1%nat]> ∅ : gmap string nat) !! "any") 0%nat) with 1%nat.
  rewrite (initial_step_eval db_mixed tape_swap 30 30 3 _ _ 4 (part "module" "U3") 20.2 9).
  2:{ at_module.
      change (or_else ((<["any" := 2%nat]> (<["any" := 1%nat]> ∅) : gmap string nat) !! "any") 0%nat) with 2%nat.
      cbn [width height fst snd t_unit tape_swap].
      settle_round 2020%Z. }
  2:{ at_module.
      change (or_else ((<["any" := 2%nat]> (<["any" := 1%nat]> ∅) : gmap string nat) !! "any") 0%nat) with 2%nat.
      cbn [width height fst snd t_unit tape_swap].
      settle_round 900%Z. }
  reflexivity.
Qed.

Lemma overlap_penalty_eval (db : catalog) (ra : string) (a : component)
    (rb : string) (b : component) (pl : placement_t)
    (ax ay bx b_y aw ah bw bh : R) :
  get_pos ra pl = (ax, ay) -> get_pos rb pl = (bx, b_y) ->
  get_dims db (component_id a) = (aw, ah) ->
  get_dims db (component_id b) = (bw, bh) ->
  overlap_penalty db ra a rb b pl
  = if Rlt_dec (Rabs (ax - bx)) ((aw + bw) / 2)
    then if Rlt_dec (Rabs (ay - b_y)) ((ah + bh) / 2)
         then ((aw + bw) / 2 - Rabs (ax - bx)) * ((ah + bh) / 2 - Rabs (ay - b_y)) * 50
         else 0
    else 0.
Proof.
  intros Ha Hb Hda Hdb. unfold overlap_penalty. rewrite Ha, Hb, Hda, Hdb. reflexivity.
Qed.

Lemma zone_penalty_any (db : catalog) (r id : string) (pl : placement_t) (w h : R) :
  zone_of (get_comp db id) = "any" -> zone_penalty db r id pl w h 3 = 0.
Proof. intros Hz. unfold zone_penalty. rewrite Hz. reflexivity. Qed.

Lemma get_dims_chip : get_dims db_mixed "chip" = (1 + 0.25 * 2, 0.5 + 0.25 * 2).
Proof. reflexivity. Qed.

Lemma get_dims_module : get_dims db_mixed "module" = (10 + 0.25 * 2, 10 + 0.25 * 2).
Proof. reflexivity. Qed.

Ltac settle_penalty :=
  unfold Rabs;
  repeat match goal with
         | |- context [Rcase_abs ?e] => destruct (Rcase_abs e); try lra
         | |- context [Rlt_dec ?a ?b] => destruct (Rlt_dec a b); try lra
         end.

Lemma score_mixed (pl : placement_t) (x1 y1 x2 y2 x3 y3 : R) :
  get_pos "U1" pl = (x1, y1) -> get_pos "U2" pl = (x2, y2) ->
  get_pos "U3" pl = (x3, y3) ->
  score db_mixed mixed_components pl 30 30 None
  = 0 + overlap_penalty db_mixed "U1" (part "chip" "U1") "U2" (part "module" "U2") pl
      + overlap_penalty db_mixed "U1" (part "chip" "U1") "U3" (part "module" "U3") pl
      + overlap_penalty db_mixed "U2" (part "module" "U2") "U3" (part "module" "U3") pl.
Proof.
  intros H1 H2 H3. unfold score, mixed_components.
  change (wire_length_score db_mixed _ pl None) with 0.
  cbn [fold_left overlap_loop ref part component_id].
  rewrite !zone_penalty_any by reflexivity.
  lra.
Qed.

Lemma score_seed_mixed :
  score db_mixed mixed_components seed_mixed 30 30 None = 355.
Proof.
  rewrite (score_mixed seed_mixed 6 12 9.8 9 20.2 9) by reflexivity.
  rewrite (overlap_penalty_eval db_mixed "U1" (part "chip" "U1") "U2" (part "module" "U2") seed_mixed 6 12 9.8 9 _ _ _ _
             eq_refl eq_refl get_dims_chip get_dims_module).
  rewrite (overlap_penalty_eval db_mixed "U1" (part "chip" "U1") "U3" (part "module" "U3") seed_mixed 6 12 20.2 9 _ _ _ _
             eq_refl eq_refl get_dims_chip get_dims_module).
  rewrite (overlap_penalty_eval db_mixed "U2" (part "module" "U2") "U3" (part "module" "U3") seed_mixed 9.8 9 20.2 9 _ _ _ _
             eq_refl eq_refl get_dims_module get_dims_module).
  settle_penalty.
Qed.

Lemma score_swapped_mixed :
  score db_mixed mixed_components swapped_mixed 30 30 None = 302.5.
Proof.
  rewrite (score_mixed swapped_mixed 9.8 9 6 12 20.2 9) by reflexivity.
  rewrite (overlap_penalty_eval db_mixed "U1" (part "chip" "U1") "U2" (part "module" "U2") swapped_mixed 9.8 9 6 12 _ _ _ _
             eq_refl eq_refl get_dims_chip get_dims_module).
  rewrite (overlap_penalty_eval db_mixed "U1" (part "chip" "U1") "U3" (part "module" "U3") swapped_mixed 9.8 9 20.2 9 _ _ _ _
             eq_refl eq_refl get_dims_chip get_dims_module).
  rewrite (overlap_penalty_eval db_mixed "U2" (part "module" "U2") "U3" (part "module" "U3") swapped_mixed 6 12 20.2 9 _ _ _ _
             eq_refl eq_refl get_dims_module get_dims_module).
  settle_penalty.
Qed.

Lemma select_swap (T0 : R) :
  select_move db_mixed tape_swap mixed_components (map ref mixed_components)
    30 30 3 T0 seed_mixed 6
  = Moved swapped_mixed 9.
Proof.
  unfold select_move, random_random. cbn [t_unit tape_swap].
  destruct (Rlt_dec 0.8 0.5) as [Hlt|_]; [lra|].
  destruct (Rlt_dec 0.8 0.7) as [Hlt|_]; [lra|].
  reflexivity.
Qed.

Lemma tape_swap_tail (k : nat) : (9 <= k)%nat -> 0.5 <= t_unit tape_swap k < 0.7.
Proof.
  intros Hk. do 9 (destruct k as [|k]; [lia|]). simpl. lra.
Qed.

Lemma placed_swapped : placed (map ref mixed_components) swapped_mixed.
Proof.
  intros r Hr. simpl in Hr.
  repeat (apply elem_of_cons in Hr as [->|Hr]; [eexists; reflexivity|]).
  inversion Hr.
Qed.

Lemma anneal_mixed :
  exists init_s final_s n,
    simulated_annealing db_mixed tape_swap clock_still mixed_components seed_mixed
      30 30 None 10 6
    = Some (swapped_mixed, init_s, final_s, n).
Proof.
  unfold simulated_annealing.
  change (length mixed_components <=? 1)%nat with false. cbv iota.
  rewrite score_seed_mixed, MAX_ITR_succ, sa_loop_succ. cbn [T].
  destruct (Rlt_dec T_min T_init) as [_|Hn];
    [|exfalso; apply Hn; unfold T_min, T_init; lra].
  unfold sa_iteration. cbv zeta. cbn [itr ticks T current draws cur_s best best_s].
  change (0 mod 200 =? 0)%nat with true. cbv iota.
  destruct (Rlt_dec 10 (clock_still 1 - clock_still 0)) as [Hlt|_];
    [unfold clock_still in Hlt; lra|].
  rewrite select_swap, score_swapped_mixed.
  unfold accept.
  destruct (Rlt_dec (302.5 - 355) 0) as [_|Hn]; [|exfalso; apply Hn; lra].
  destruct (Rlt_dec 302.5 355) as [_|Hn]; [|exfalso; apply Hn; lra].
  match goal with
  | |- context [sa_loop _ _ _ ?left _ _ _ _ _ _ _ ?st] =>
      destruct (sa_loop_total db_mixed tape_swap clock_still mixed_components
                  30 30 None 10 (clock_still 0) left st) as [st' Hrun];
      [simpl; lia|exact placed_swapped|];
      assert (Hset : settled db_mixed mixed_components 30 30 None swapped_mixed 9 st')
  end.
  { eapply (sa_loop_invariant db_mixed tape_swap clock_still mixed_components
              30 30 None 10 (clock_still 0)
              (settled db_mixed mixed_components 30 30 None swapped_mixed 9));
      [| | |exact Hrun].
    - intros s s' Hs _ Hit.
      eapply settled_step; [| |exact Hs|left; exact Hit]; [simpl; lia|exact tape_swap_tail].
    - intros s s' Hs _ Hit.
      eapply settled_step; [| |exact Hs|right; exact Hit]; [simpl; lia|exact tape_swap_tail].
    - unfold settled. cbn [best best_s cur_s current draws].
      rewrite score_swapped_mixed.
      split; [reflexivity|]. split; [reflexivity|]. split; [reflexivity|].
      split; [apply same_centres_refl|lia]. }
  rewrite Hrun. destruct Hset as (-> & _). eauto.
Qed.

Lemma tape_swap_realisable : realisable tape_swap.
Proof.
  intros k. do 7 (destruct k as [|k]; [cbn [t_unit tape_swap]; lra|]).
  cbn [t_unit tape_swap]. lra.
Qed.

Lemma seed_mixed_contained (rc : component) (p : pos) :
  rc ∈ mixed_components -> seed_mixed !! ref rc = Some p ->
  spec_contained 30 30 3 (dims_of (get_comp db_mixed (component_id rc))) p.
Proof.
  intros Hrc. unfold mixed_components in Hrc.
  repeat (apply elem_of_cons in Hrc as [->|Hrc]); [| | |inversion Hrc];
    cbn [part component_id ref]; rewrite ?get_comp_chip, ?get_comp_module.
  - change (seed_mixed !! "U1") with (Some (at_xy 6 12)).
    intros Hp; injection Hp as <-. unfold spec_contained. simpl. lra.
  - change (seed_mixed !! "U2") with (Some (at_xy 9.8 9)).
    intros Hp; injection Hp as <-. unfold spec_contained. simpl. lra.
  - change (seed_mixed !! "U3") with (Some (at_xy 20.2 9)).
    intros Hp; injection Hp as <-. unfold spec_contained. simpl. lra.
Qed.

(** C2 fails on the code: on the board of 30 mm x 30 mm the seed built by
    [initial_placement] keeps the three footprints inside the margin, the
    first move swaps the positions of the 1 mm wide part U1 and of the
    10 mm wide part U2 and lowers the score from 355 to 302.5, and the
    placement that is returned and written out has U2 centred at x = 6,
    less than the 3 + 10/2 that containment asks for. *)
Lemma swap_leaves_margin :
  realisable tape_swap
  /\ initial_placement db_mixed tape_swap
       (assign_refs db_mixed (resolved_components mixed_parts)) 30 30 3 0
     = (seed_mixed, 6%nat)
  /\ (forall rc p, rc ∈ mixed_components -> seed_mixed !! ref rc = Some p ->
        spec_contained 30 30 3 (dims_of (get_comp db_mixed (component_id rc))) p)
  /\ exists d o,
       run db_mixed tape_swap clock_still mixed_parts (Some (30, 30)) = Some d
       /\ components_out d !! 1%nat = Some o
       /\ o_ref o = "U2" /\ width_mm o = 10 /\ x_mm o = 6
       /\ ~ 3 + width_mm o / 2 <= x_mm o.
Proof.
  split; [exact tape_swap_realisable|].
  split; [rewrite assign_mixed; exact seed_of_mixed|].
  split; [exact seed_mixed_contained|].
  destruct anneal_mixed as (init_s & final_s & n & Hsa).
  unfold run. cbn [or_else]. rewrite assign_mixed.
  change (resolved_components mixed_parts)
    with [resolved_part "chip"; resolved_part "module"; resolved_part "module"].
  cbv iota. rewrite seed_of_mixed.
  change (find_mcu_ref mixed_components (mcu mixed_parts)) with (@None string).
  rewrite Hsa.
  eexists _, _. split; [reflexivity|]. cbn [components_out].
  split; [reflexivity|].
  cbn [o_ref width_mm x_mm output_of part component_id ref].
  rewrite get_comp_module.
  change (swapped_mixed !! "U2") with (Some (at_xy 6 12)).
  cbn [or_else at_xy x].
  change (width (dims_of (entry_with_dims 10 10))) with 10.
  rewrite (py_round_exact 600 2 6) by (simpl; lra).
  split; [reflexivity|]. split; [reflexivity|]. split; [reflexivity|]. lra.
Qed.

(** ** The overlap penalty and the area of the overlap *)

Lemma inflated_chip (r : string) :
  spec_inflated_width db_mixed (part "chip" r) = 1 + 2 * 0.25
  /\ spec_inflated_height db_mixed (part "chip" r) = 0.5 + 2 * 0.25.
Proof. split; reflexivity. Qed.

Lemma inflated_module (r : string) :
  spec_inflated_width db_mixed (part "module" r) = 10 + 2 * 0.25
  /\ spec_inflated_height db_mixed (part "module" r) = 10 + 2 * 0.25.
Proof. split; reflexivity. Qed.

Ltac settle_extent :=
  unfold spec_common_extent, Rmax, Rmin;
  repeat match goal with
         | |- context [Rle_dec ?a ?b] => destruct (Rle_dec a b); try lra
         end.

(** The inflated footprint of U1, 1.5 mm x 1 mm about (6, 12), lies within
    that of U2, 10.5 mm x 10.5 mm about (9.8, 9): what the two have in
    common is the whole of the smaller one. *)
Lemma common_area_chip_module :
  spec_common_extent 6 (1 + 2 * 0.25) 9.8 (10 + 2 * 0.25) = 1.5
  /\ spec_common_extent 12 (0.5 + 2 * 0.25) 9 (10 + 2 * 0.25) = 1
  /\ spec_common_area db_mixed seed_mixed (part "chip" "U1") (part "module" "U2")
     = 1.5 * 1.
Proof.
  assert (Hx : spec_common_extent 6 (1 + 2 * 0.25) 9.8 (10 + 2 * 0.25) = 1.5)
    by settle_extent.
  assert (Hy : spec_common_extent 12 (0.5 + 2 * 0.25) 9 (10 + 2 * 0.25) = 1)
    by settle_extent.
  split; [exact Hx|]. split; [exact Hy|].
  unfold spec_common_area.
  destruct (inflated_chip "U1") as [-> ->].
  destruct (inflated_module "U2") as [-> ->].
  change (get_pos (ref (part "chip" "U1")) seed_mixed) with (6, 12).
  change (get_pos (ref (part "module" "U2")) seed_mixed) with (9.8, 9).
  cbn [fst snd]. rewrite Hx, Hy.
  unfold Rmax. repeat destruct Rle_dec; lra.
Qed.

Lemma overlap_penalty_chip_module :
  overlap_penalty db_mixed "U1" (part "chip" "U1") "U2" (part "module" "U2") seed_mixed
  = 302.5.
Proof.
  rewrite (overlap_penalty_eval db_mixed "U1" (part "chip" "U1") "U2"
             (part "module" "U2") seed_mixed 6 12 9.8 9 _ _ _ _
             eq_refl eq_refl get_dims_chip get_dims_module).
  settle_penalty.
Qed.

(** C7 fails on the code: on the board of 30 mm x 30 mm the seed built by
    [initial_placement] has the part U1, inflated to 1.5 mm x 1 mm, at
    (6, 12) and the part U2, inflated to 10.5 mm x 10.5 mm, at (9.8, 9).
    The two inflated footprints overlap on a width of 1.5 mm and a height
    of 1 mm, the whole of the smaller one, so that the contribution of the
    pair should be 1.5 x 1 x 50 = 75; [overlap_penalty] multiplies the sums
    of the half-extents minus the separations, 2.2 and 2.75, and returns
    302.5. *)
Theorem overlap_penalty_exceeds_area :
  (initial_placement db_mixed tape_swap
     (assign_refs db_mixed (resolved_components mixed_parts)) 30 30 3 0).1
  = seed_mixed
  /\ get_pos "U1" seed_mixed = (6, 12) /\ get_pos "U2" seed_mixed = (9.8, 9)
  /\ spec_inflated_width db_mixed (part "chip" "U1") = 1.5
  /\ spec_inflated_height db_mixed (part "chip" "U1") = 1
  /\ spec_inflated_width db_mixed (part "module" "U2") = 10.5
  /\ spec_inflated_height db_mixed (part "module" "U2") = 10.5
  /\ spec_common_extent 6 1.5 9.8 10.5 = 1.5
  /\ spec_common_extent 12 1 9 10.5 = 1
  /\ spec_common_area db_mixed seed_mixed (part "chip" "U1") (part "module" "U2")
     = 1.5 * 1
  /\ overlap_penalty db_mixed "U1" (part "chip" "U1") "U2" (part "module" "U2")
       seed_mixed
     = 302.5
  /\ overlap_penalty db_mixed "U1" (part "chip" "U1") "U2" (part "module" "U2")
       seed_mixed
     <> 1.5 * 1 * 50.
Proof.
  destruct common_area_chip_module as (Hx & Hy & Harea).
  destruct (inflated_chip "U1") as [Hwc Hhc].
  destruct (inflated_module "U2") as [Hwm Hhm].
  split; [rewrite assign_mixed, seed_of_mixed; reflexivity|].
  split; [reflexivity|]. split; [reflexivity|].
  split; [rewrite Hwc; lra|]. split; [rewrite Hhc; lra|].
  split; [rewrite Hwm; lra|]. split; [rewrite Hhm; lra|].
  split; [rewrite <- Hx; f_equal; lra|].
  split; [rewrite <- Hy; f_equal; lra|].
  split; [exact Harea|].
  rewrite overlap_penalty_chip_module. split; [reflexivity|lra].
Qed.

(** ** When the references are distinct *)

Lemma pretty_N_char_digit (x : N) : is_digit (pretty_N_char x) = true.
Proof. unfold pretty_N_char. repeat case_match; reflexivity. Qed.

Lemma pretty_N_go_digits (x : N) (s : string) :
  all_digits s = true -> all_digits (pretty_N_go x s) = true.
Proof.
  revert s. induction (N.lt_wf_0 x) as [x _ IH]; intros s Hs.
  destruct (decide (x = 0)%N) as [->|Hx].
  - rewrite pretty_N_go_0. exact Hs.
  - rewrite pretty_N_go_step by lia. apply IH.
    + apply N.div_lt; lia.
    + simpl. rewrite pretty_N_char_digit. exact Hs.
Qed.

Lemma pretty_nat_digits (n : nat) : all_digits (pretty n) = true.
Proof.
  unfold pretty, pretty_nat, pretty, pretty_N.
  destruct (decide (N.of_nat n = 0)%N); [reflexivity|].
  apply pretty_N_go_digits. reflexivity.
Qed.

Lemma digits_prefix_ends (s d : string) :
  all_digits (s +:+ d) = true -> s <> "" -> ends_with_digit s = true.
Proof.
  induction s as [|c s IH]; intros Hall Hne; [contradiction|].
  change (is_digit c && all_digits (s +:+ d) = true) in Hall.
  apply andb_true_iff in Hall as [Hc Hall].
  destruct s as [|c' s']; [exact Hc|].
  change (ends_with_digit (String c (String c' s'))) with (ends_with_digit (String c' s')).
  apply IH; [exact Hall|discriminate].
Qed.

Lemma ends_with_digit_tail (c : ascii) (s : string) :
  ends_with_digit (String c s) = false -> ends_with_digit s = false.
Proof. destruct s; [reflexivity|intros H; exact H]. Qed.

(** A string splits in one way only into a part that does not end with a
    digit and a run of digits. *)
Lemma digit_suffix_unique (s1 s2 d1 d2 : string) :
  ends_with_digit s1 = false -> ends_with_digit s2 = false ->
  all_digits d1 = true -> all_digits d2 = true ->
  s1 +:+ d1 = s2 +:+ d2 -> s1 = s2 /\ d1 = d2.
Proof.
  revert s2. induction s1 as [|c s1 IH]; intros s2 H1 H2 Hd1 Hd2 Heq.
  - destruct s2 as [|c2 s2]; [split; [reflexivity|exact Heq]|].
    change (d1 = String c2 s2 +:+ d2) in Heq. subst d1.
    apply (digits_prefix_ends (String c2 s2) d2) in Hd1; [|discriminate].
    congruence.
  - destruct s2 as [|c2 s2].
    + change (String c s1 +:+ d1 = d2) in Heq. subst d2.
      apply (digits_prefix_ends (String c s1) d1) in Hd2; [|discriminate].
      congruence.
    + change (String c (s1 +:+ d1) = String c2 (s2 +:+ d2)) in Heq.
      injection Heq as -> Heq.
      destruct (IH s2) as [-> ->]; eauto using ends_with_digit_tail.
Qed.

Section RefsDistinct.

Variable db : catalog.

Lemma assign_step_distinct (counters : gmap string nat) (result : list component)
    (rc : resolved_component) :
  ends_with_digit (ref_prefix (get_comp db (rc_component_id rc))) = false ->
  Forall (numbered counters) result -> NoDup (map ref result) ->
  Forall (numbered (fst (assign_step db (counters, result) rc)))
         (snd (assign_step db (counters, result) rc))
  /\ NoDup (map ref (snd (assign_step db (counters, result) rc))).
Proof.
  intros Hp Hnum Hnd. simpl.
  set (p := ref_prefix (get_comp db (rc_component_id rc))) in *.
  set (n := (or_else (counters !! p) 0 + 1)%nat).
  split.
  - apply Forall_app. split.
    + eapply Forall_impl; [exact Hnum|].
      intros c (p' & k & Hc & Hp' & Hk). exists p', k.
      split; [exact Hc|]. split; [exact Hp'|].
      destruct (decide (p = p')) as [<-|Hne].
      * rewrite lookup_insert_eq. simpl. unfold n. lia.
      * rewrite lookup_insert_ne by assumption. exact Hk.
    + constructor; [|constructor]. exists p, n. simpl.
      split; [reflexivity|]. split; [exact Hp|].
      rewrite lookup_insert_eq. simpl. unfold n. lia.
  - rewrite map_app. simpl. apply NoDup_app. split; [exact Hnd|]. split.
    + intros r Hr Hin. apply list_elem_of_singleton in Hin. subst r.
      apply list_elem_of_fmap in Hr as (c & Hc & Hin).
      rewrite Forall_forall in Hnum.
      destruct (Hnum c Hin) as (p' & k & Hc' & Hp' & Hk).
      rewrite Hc' in Hc.
      apply digit_suffix_unique in Hc as [<- Hk'];
        auto using pretty_nat_digits.
      apply (inj pretty) in Hk'. unfold n in Hk'. lia.
    + apply NoDup_singleton.
Qed.

Lemma assign_fold_distinct (l : list resolved_component)
    (counters : gmap string nat) (result : list component) :
  Forall (fun rc => ends_with_digit (ref_prefix (get_comp db (rc_component_id rc))) = false) l ->
  Forall (numbered counters) result -> NoDup (map ref result) ->
  NoDup (map ref (snd (fold_left (assign_step db) l (counters, result)))).
Proof.
  revert counters result. induction l as [|rc l IH]; intros counters result Hl Hnum Hnd.
  - exact Hnd.
  - inversion Hl as [|? ? Hrc Hl']; subst.
    change (fold_left (assign_step db) (rc :: l) (counters, result))
      with (fold_left (assign_step db) l (assign_step db (counters, result) rc)).
    destruct (assign_step_distinct counters result rc Hrc Hnum Hnd) as [Hnum' Hnd'].
    destruct (assign_step db (counters, result) rc) as [counters' result'].
    apply IH; assumption.
Qed.

(** The references are pairwise distinct when no prefix in use ends with
    a decimal digit. *)
Lemma assign_refs_distinct (l : list resolved_component) :
  Forall (fun rc => ends_with_digit (ref_prefix (get_comp db (rc_component_id rc))) = false) l ->
  NoDup (map ref (assign_refs db l)).
Proof.
  intros Hl. unfold assign_refs.
  apply assign_fold_distinct; [exact Hl|constructor|constructor].
Qed.

End RefsDistinct.

Lemma table_prefix_no_digit (table : list (string * string)) (k : string) :
  Forall (fun kv => ends_with_digit kv.2 = false) table ->
  forall v, (list_to_map table : gmap string string) !! k = Some v ->
            ends_with_digit v = false.
Proof.
  intros Ht v Hv. apply elem_of_list_to_map_2 in Hv.
  rewrite Forall_forall in Ht. exact (Ht _ Hv).
Qed.

Lemma SUB_PREFIX_no_digit (k v : string) :
  SUB_PREFIX !! k = Some v -> ends_with_digit v = false.
Proof. unfold SUB_PREFIX. apply table_prefix_no_digit. repeat constructor. Qed.

Lemma PREFIX_FALLBACK_no_digit (k v : string) :
  PREFIX_FALLBACK !! k = Some v -> ends_with_digit v = false.
Proof. unfold PREFIX_FALLBACK. apply table_prefix_no_digit. repeat constructor. Qed.

(** The prefixes of the two tables of [assign_refs] and the default ["U"]
    do not end with a digit: on a catalogue that supplies no prefix of its
    own the references are pairwise distinct. *)
Lemma fallback_prefix_no_digit (comp : catalog_entry) :
  truthy (ref_designator_prefix comp) = None ->
  ends_with_digit (ref_prefix comp) = false.
Proof.
  intros Hnone. unfold ref_prefix. rewrite Hnone. cbn [or_else].
  assert (Hfb : ends_with_digit
                  (or_else (PREFIX_FALLBACK !! or_else (category comp) "") "U") = false).
  { destruct (PREFIX_FALLBACK !! or_else (category comp) "") as [u|] eqn:Hu;
      [exact (PREFIX_FALLBACK_no_digit _ u Hu)|reflexivity]. }
  destruct (SUB_PREFIX !! or_else (subcategory comp) "") as [v|] eqn:Hs;
    [|exact Hfb].
  unfold truthy. destruct (decide (v = "")); [exact Hfb|].
  exact (SUB_PREFIX_no_digit _ v Hs).
Qed.

Lemma assign_refs_distinct_fallback (db : catalog) (l : list resolved_component) :
  Forall (fun rc => truthy (ref_designator_prefix (get_comp db (rc_component_id rc))) = None) l ->
  NoDup (map ref (assign_refs db l)).
Proof.
  intros Hl. apply assign_refs_distinct.
  eapply Forall_impl; [exact Hl|]. intros rc. apply fallback_prefix_no_digit.
Qed.

(** ** The numbering of the reference designators *)

Section AssignMore.

Variable db : catalog.

Lemma assign_fold_app (l : list resolved_component)
    (counters : gmap string nat) (result : list component) :
  exists suffix,
    snd (fold_left (assign_step db) l (counters, result)) = result ++ suffix.
Proof.
  revert counters result. induction l as [|rc l IH]; intros counters result.
  - exists []. simpl. rewrite app_nil_r. reflexivity.
  - change (fold_left (assign_step db) (rc :: l) (counters, result))
      with (fold_left (assign_step db) l (assign_step db (counters, result) rc)).
    unfold assign_step at 2.
    destruct (IH (<[ref_prefix (get_comp db (rc_component_id rc)) :=
                     (or_else (counters !! ref_prefix (get_comp db (rc_component_id rc))) 0 + 1)%nat]> counters)
                 (result ++ [ {| component_id := rc_component_id rc;
                                 display_name := rc_display_name rc;
                                 ref := ref_prefix (get_comp db (rc_component_id rc))
                                        +:+ pretty (or_else (counters !! ref_prefix (get_comp db (rc_component_id rc))) 0 + 1)%nat |} ]))
      as [suffix Hs].
    eexists. rewrite Hs, <- app_assoc. reflexivity.
Qed.

Lemma assign_fold_lookup (l : list resolved_component)
    (counters : gmap string nat) (result : list component)
    (i : nat) (rc : resolved_component) :
  l !! i = Some rc ->
  snd (fold_left (assign_step db) l (counters, result)) !! (length result + i)%nat
  = Some (numbered_as db rc
            (or_else (counters !! prefix_of db rc) 0
             + count_prefix db (prefix_of db rc) (take (S i) l))%nat).
Proof.
  unfold numbered_as.
  revert counters result i. induction l as [|rc0 l IH]; intros counters result i Hi.
  - discriminate.
  - change (fold_left (assign_step db) (rc0 :: l) (counters, result))
      with (fold_left (assign_step db) l (assign_step db (counters, result) rc0)).
    unfold assign_step at 2. fold (prefix_of db rc0).
    set (n0 := (or_else (counters !! prefix_of db rc0) 0 + 1)%nat).
    set (new := {| component_id := rc_component_id rc0;
                   display_name := rc_display_name rc0;
                   ref := prefix_of db rc0 +:+ pretty n0 |}).
    destruct i as [|i].
    + injection Hi as ->.
      destruct (assign_fold_app l (<[prefix_of db rc := n0]> counters) (result ++ [new]))
        as [suffix ->].
      rewrite <- app_assoc, Nat.add_0_r.
      rewrite lookup_app_r by lia. rewrite Nat.sub_diag. simpl.
      unfold new, n0, count_prefix. simpl.
      rewrite filter_cons_True by reflexivity. simpl. reflexivity.
    + simpl in Hi.
      specialize (IH (<[prefix_of db rc0 := n0]> counters) (result ++ [new]) i Hi).
      rewrite length_app in IH. simpl in IH.
      replace (length result + S i)%nat with (length result + 1 + i)%nat by lia.
      rewrite IH. do 3 f_equal.
      unfold count_prefix.
      change (take (S (S i)) (rc0 :: l)) with (rc0 :: take (S i) l).
      destruct (decide (prefix_of db rc0 = prefix_of db rc)) as [Heq|Hne].
      * rewrite filter_cons_True by assumption.
        rewrite Heq, lookup_insert_eq. unfold n0. rewrite Heq. simpl. f_equal. lia.
      * rewrite filter_cons_False by assumption.
        rewrite lookup_insert_ne by assumption. reflexivity.
Qed.

Lemma assign_refs_at (l : list resolved_component) (i : nat)
    (rc : resolved_component) :
  l !! i = Some rc ->
  assign_refs db l !! i
  = Some (numbered_as db rc (count_prefix db (prefix_of db rc) (take (S i) l))).
Proof.
  intros Hi. unfold assign_refs.
  pose proof (assign_fold_lookup l ∅ [] i rc Hi) as H.
  rewrite lookup_empty in H. exact H.
Qed.

(** X1: the assigner keeps the order of the components, their identifiers and
    their display names, and gives the component at position [i] its
    prefix followed by the number of components with that prefix among
    the first [i + 1]: the numbers start at 1 and count separately for
    each prefix. *)
Theorem assign_refs_numbering (l : list resolved_component) :
  assign_refs db l
  = imap (fun i rc =>
            numbered_as db rc (count_prefix db (prefix_of db rc) (take (S i) l))) l.
Proof.
  apply list_eq. intros i. rewrite list_lookup_imap.
  destruct (l !! i) as [rc|] eqn:Hi.
  - rewrite (assign_refs_at l i rc Hi). reflexivity.
  - simpl. apply lookup_ge_None. rewrite length_assign_refs.
    apply lookup_ge_None. exact Hi.
Qed.

End AssignMore.

Lemma prefix_of_unknown (rc : resolved_component) : prefix_of ∅ rc = "U".
Proof. unfold prefix_of, get_comp. rewrite lookup_empty. reflexivity. Qed.

Lemma count_prefix_unknown (l : list resolved_component) :
  count_prefix ∅ "U" l = length l.
Proof.
  unfold count_prefix. f_equal.
  induction l as [|rc l IH]; [reflexivity|].
  rewrite filter_cons_True by apply prefix_of_unknown. rewrite IH. reflexivity.
Qed.

(** X2: on a catalogue that knows none of the components the references are
    U1, U2, U3, ... in input order. *)
Theorem assign_refs_unknown (l : list resolved_component) :
  map ref (assign_refs ∅ l)
  = map (fun i => "U" +:+ pretty (S i)) (seq 0 (length l)).
Proof.
  apply list_eq. intros i. rewrite !list_lookup_fmap.
  destruct (l !! i) as [rc|] eqn:Hi.
  - rewrite (assign_refs_at ∅ l i rc Hi).
    pose proof (lookup_lt_Some _ _ _ Hi) as Hlt.
    rewrite lookup_seq_lt by exact Hlt. simpl.
    rewrite prefix_of_unknown, count_prefix_unknown, length_take.
    do 3 f_equal. lia.
  - pose proof (proj1 (lookup_ge_None _ _) Hi) as Hge.
    rewrite (proj2 (lookup_ge_None (assign_refs ∅ l) i))
      by (rewrite length_assign_refs; exact Hge).
    rewrite (proj2 (lookup_ge_None (seq 0 (length l)) i))
      by (rewrite length_seq; exact Hge).
    reflexivity.
Qed.

(** X3: the references are pairwise distinct when none of the prefixes in use
    ends with a decimal digit. *)
Theorem refs_distinct_digit_free (db : catalog) (l : list resolved_component) :
  Forall (fun rc => ends_with_digit (prefix_of db rc) = false) l ->
  NoDup (map ref (assign_refs db l)).
Proof.
  intros Hl. unfold assign_refs.
  apply (assign_fold_distinct db); [exact Hl|constructor|constructor].
Qed.

(** X4: the prefixes of the built-in tables never end with a digit: when the
    catalogue gives no prefix of its own to any of the components, the
    references are pairwise distinct. *)
Theorem refs_distinct_table_prefixes (db : catalog) (l : list resolved_component) :
  Forall (fun rc =>
            truthy (ref_designator_prefix (get_comp db (rc_component_id rc))) = None) l ->
  NoDup (map ref (assign_refs db l)).
Proof.
  intros Hl. unfold assign_refs.
  apply (assign_fold_distinct db); [|constructor|constructor].
  eapply Forall_impl; [exact Hl|]. intros rc. apply fallback_prefix_no_digit.
Qed.

(** ** No exception escapes the stage *)

Lemma round_half_even_near (r : R) :
  IZR (round_half_even r) - 1 / 2 <= r <= IZR (round_half_even r) + 1 / 2.
Proof.
  unfold round_half_even. destruct (base_Int_part r) as [Hlo Hhi].
  destruct Rlt_dec as [Hd|Hd]; [lra|].
  destruct Rlt_dec as [Hu|Hu]; [rewrite plus_IZR; lra|].
  destruct (Z.even (Int_part r)); [lra|rewrite plus_IZR; lra].
Qed.

Lemma round_half_even_mono (a b : R) :
  a <= b -> (round_half_even a <= round_half_even b)%Z.
Proof.
  intros [Hlt | ->]; [|lia].
  pose proof (round_half_even_near a) as [Ha _].
  pose proof (round_half_even_near b) as [_ Hb].
  assert (H : IZR (round_half_even a) < IZR (round_half_even b + 1))
    by (rewrite plus_IZR; lra).
  apply lt_IZR in H. lia.
Qed.

Lemma py_round_mono (a b : R) (n : nat) : a <= b -> py_round a n <= py_round b n.
Proof.
  intros Hab. unfold py_round.
  assert (Hp : 0 < 10 ^ n) by (apply pow_lt; lra).
  apply Rmult_le_compat_r; [left; apply Rinv_0_lt_compat; exact Hp|].
  apply IZR_le, round_half_even_mono. nra.
Qed.

Section Stage.

Variable db : catalog.
Variable tp : tape.
Variable clock : nat -> R.

Lemma insert_sorted_elem (rc rc' : component) (l : list component) :
  rc' ∈ insert_sorted db rc l <-> rc' = rc \/ rc' ∈ l.
Proof.
  induction l as [|c l IH]; simpl.
  - rewrite list_elem_of_singleton, elem_of_nil. tauto.
  - destruct (sort_key db rc <=? sort_key db c)%Z.
    + rewrite elem_of_cons. tauto.
    + rewrite !elem_of_cons, IH. tauto.
Qed.

Lemma sorted_elem (rc : component) (l : list component) :
  rc ∈ sorted db l <-> rc ∈ l.
Proof.
  induction l as [|c l IH]; simpl; [tauto|].
  rewrite insert_sorted_elem, elem_of_cons, IH. tauto.
Qed.

Lemma initial_step_key (w h margin : R)
    (st : placement_t * gmap string nat * nat) (rc : component) (r : string) :
  r = ref rc \/ is_Some (st.1.1 !! r) ->
  is_Some ((initial_step db tp w h margin st rc).1.1 !! r).
Proof.
  destruct st as [[pl zo] g]. unfold initial_step, random_uniform.
  destruct (zone_centre _ w h margin) as [cx cy]. simpl.
  intros [->|Hr].
  - rewrite lookup_insert_eq. eauto.
  - apply lookup_insert_is_Some. destruct (decide (ref rc = r)); auto.
Qed.

Lemma initial_fold_keys (w h margin : R) (l : list component)
    (st : placement_t * gmap string nat * nat) (r : string) :
  r ∈ map ref l \/ is_Some (st.1.1 !! r) ->
  is_Some ((fold_left (initial_step db tp w h margin) l st).1.1 !! r).
Proof.
  clear clock. revert st. induction l as [|rc l IH]; intros st; simpl.
  - rewrite elem_of_nil. tauto.
  - rewrite elem_of_cons. intros Hr. apply IH.
    destruct Hr as [[->|Hr]|Hr]; [right|left; exact Hr|right];
      apply initial_step_key; auto.
Qed.

(** The seed gives a position to every reference. *)
Lemma initial_placement_placed (components : list component) (w h margin : R)
    (g : nat) :
  placed (map ref components) (initial_placement db tp components w h margin g).1.
Proof.
  intros r Hr. unfold initial_placement.
  pose proof (initial_fold_keys w h margin (sorted db components) (∅, ∅, g) r) as Hk.
  destruct (fold_left _ _ _) as [[pl zo] g']. cbn [fst snd] in Hk |- *. apply Hk. left.
  apply list_elem_of_fmap in Hr as (rc & -> & Hrc).
  apply list_elem_of_fmap. exists rc. split; [reflexivity|].
  apply sorted_elem. exact Hrc.
Qed.


End Stage.

(** ** More on the seed *)

Lemma clamp_round (lo hi v : R) :
  lo <= hi -> on_grid lo -> on_grid hi ->
  lo <= py_round (Rmax lo (Rmin hi v)) 2 <= hi.
Proof.
  intros Hle [zl Hl] [zh Hh].
  assert (Hc : lo <= Rmax lo (Rmin hi v) <= hi).
  { unfold Rmax, Rmin. repeat destruct Rle_dec; lra. }
  pose proof (py_round_mono lo _ 2 (proj1 Hc)) as H1.
  rewrite (py_round_exact zl 2 lo Hl) in H1.
  pose proof (py_round_mono _ hi 2 (proj2 Hc)) as H2.
  rewrite (py_round_exact zh 2 hi Hh) in H2. lra.
Qed.

Lemma NoDup_map_inj {A B} (f : A -> B) (l : list A) (a b : A) :
  NoDup (map f l) -> a ∈ l -> b ∈ l -> f a = f b -> a = b.
Proof.
  induction l as [|c l IH]; intros Hnd Ha Hb Hf; [inversion Ha|].
  simpl in Hnd. apply NoDup_cons in Hnd as [Hc Hnd].
  apply elem_of_cons in Ha as [->|Ha]; apply elem_of_cons in Hb as [->|Hb].
  - reflexivity.
  - exfalso. apply Hc. rewrite Hf. apply list_elem_of_fmap. eauto.
  - exfalso. apply Hc. rewrite <- Hf. apply list_elem_of_fmap. eauto.
  - auto.
Qed.

Section SeedMore.

Variable db : catalog.
Variable tp : tape.

Lemma insert_sorted_perm (rc : component) (l : list component) :
  insert_sorted db rc l ≡ₚ rc :: l.
Proof.
  induction l as [|c l IH]; simpl; [reflexivity|].
  destruct (sort_key db rc <=? sort_key db c)%Z; [reflexivity|].
  rewrite IH. apply Permutation_swap.
Qed.

Lemma sorted_perm (l : list component) : sorted db l ≡ₚ l.
Proof.
  induction l as [|c l IH]; simpl; [reflexivity|].
  rewrite insert_sorted_perm, IH. reflexivity.
Qed.

Lemma initial_step_entry (w h margin : R)
    (st : placement_t * gmap string nat * nat) (rc : component) :
  exists p,
    (initial_step db tp w h margin st rc).1.1 = <[ref rc := p]> st.1.1
    /\ (initial_step db tp w h margin st rc).2 = S (S st.2)
    /\ rotation p = 0%Z
    /\ (fits w h margin (dims_of (get_comp db (component_id rc))) ->
        spec_contained w h margin (dims_of (get_comp db (component_id rc))) p).
Proof.
  destruct st as [[pl zo] g]. unfold initial_step, random_uniform.
  destruct (zone_centre _ w h margin) as [cx cy]. cbn [fst snd].
  eexists. split; [reflexivity|]. split; [reflexivity|]. split; [reflexivity|].
  intros (Hw & Hh & Hg1 & Hg2 & Hg3 & Hg4). unfold spec_contained. cbn [x y].
  split; apply clamp_round; assumption.
Qed.

Lemma initial_fold_entries (w h margin : R) (l : list component)
    (st : placement_t * gmap string nat * nat) :
  let st' := fold_left (initial_step db tp w h margin) l st in
  st'.2 = (st.2 + 2 * length l)%nat
  /\ (forall r, r ∉ map ref l -> st'.1.1 !! r = st.1.1 !! r)
  /\ (forall r p, st'.1.1 !! r = Some p -> r ∈ map ref l -> rotation p = 0%Z)
  /\ (NoDup (map ref l) ->
      forall rc p, rc ∈ l -> st'.1.1 !! ref rc = Some p ->
        fits w h margin (dims_of (get_comp db (component_id rc))) ->
        spec_contained w h margin (dims_of (get_comp db (component_id rc))) p).
Proof.
  cbv zeta. revert st. induction l as [|rc l IH]; intros st.
  - simpl. split; [lia|]. split; [reflexivity|].
    split; [intros r p _ Hr; inversion Hr|].
    intros _ rc p Hrc. inversion Hrc.
  - change (fold_left (initial_step db tp w h margin) (rc :: l) st)
      with (fold_left (initial_step db tp w h margin) l
              (initial_step db tp w h margin st rc)).
    destruct (IH (initial_step db tp w h margin st rc)) as (Hg & Hkeep & Hrot & Hcont).
    destruct (initial_step_entry w h margin st rc) as (p0 & Hpl & Hg0 & Hr0 & Hc0).
    split; [rewrite Hg, Hg0; simpl; lia|].
    split; [|split].
    + intros r Hr. simpl in Hr. apply not_elem_of_cons in Hr as [Hne Hr].
      rewrite Hkeep by assumption. rewrite Hpl.
      apply lookup_insert_ne. congruence.
    + intros r p Hp Hr. simpl in Hr.
      destruct (decide (r ∈ map ref l)) as [Hin|Hnin]; [eapply Hrot; eassumption|].
      apply elem_of_cons in Hr as [->|Hr]; [|contradiction].
      rewrite Hkeep, Hpl, lookup_insert_eq in Hp by assumption.
      injection Hp as <-. exact Hr0.
    + intros Hnd rc' p Hrc' Hp Hfit. simpl in Hnd.
      apply NoDup_cons in Hnd as [Hnin Hnd].
      apply elem_of_cons in Hrc' as [->|Hrc'].
      * rewrite Hkeep, Hpl, lookup_insert_eq in Hp by assumption.
        injection Hp as <-. apply Hc0. exact Hfit.
      * eapply Hcont; eassumption.
Qed.

Lemma initial_placement_rotations (components : list component) (w h margin : R)
    (g : nat) (r : string) (p : pos) :
  (initial_placement db tp components w h margin g).1 !! r = Some p ->
  rotation p = 0%Z.
Proof.
  pose proof (initial_fold_entries w h margin (sorted db components) (∅, ∅, g))
    as (_ & Hkeep & Hrot & _).
  unfold initial_placement.
  destruct (fold_left _ _ _) as [[pl zo] g'] eqn:Hfold. cbn [fst snd] in *.
  intros Hp. apply (Hrot r p Hp).
  destruct (decide (r ∈ map ref (sorted db components))) as [|Hn]; [assumption|].
  rewrite Hkeep in Hp by exact Hn. rewrite lookup_empty in Hp. discriminate.
Qed.

(** X6: the seed has a position for every component and for nothing else,
    every rotation in it is 0, and building it takes two draws for each
    component. *)
Theorem initial_placement_keys (components : list component) (w h margin : R)
    (g : nat) :
  (forall r, is_Some ((initial_placement db tp components w h margin g).1 !! r)
             <-> r ∈ map ref components)
  /\ (forall r p, (initial_placement db tp components w h margin g).1 !! r = Some p ->
        rotation p = 0%Z)
  /\ (initial_placement db tp components w h margin g).2
     = (g + 2 * length components)%nat.
Proof.
  pose proof (initial_placement_placed db tp components w h margin g) as Hpl.
  pose proof (initial_fold_entries w h margin (sorted db components) (∅, ∅, g))
    as (Hg & Hkeep & Hrot & _).
  revert Hpl. unfold initial_placement.
  destruct (fold_left _ _ _) as [[pl zo] g'] eqn:Hfold. cbn [fst snd] in *.
  intros Hpl.
  assert (Hrefs : forall r, r ∈ map ref (sorted db components) <-> r ∈ map ref components).
  { intros r. rewrite (sorted_perm components). reflexivity. }
  assert (Hkeys : forall r, is_Some (pl !! r) -> r ∈ map ref components).
  { intros r [p Hp]. destruct (decide (r ∈ map ref components)) as [|Hn]; [assumption|].
    rewrite Hkeep in Hp by (rewrite Hrefs; exact Hn).
    rewrite lookup_empty in Hp. discriminate. }
  split; [|split].
  - intros r. split; [apply Hkeys|apply Hpl].
  - intros r p Hp. apply (Hrot r p Hp). rewrite Hrefs. apply Hkeys. eauto.
  - rewrite Hg, (sorted_perm components). reflexivity.
Qed.

(** X7: when the references are pairwise distinct, every footprint fits
    between the margins and the bounds of the centres have at most two
    decimals, every footprint of the seed lies inside the margin. *)
Theorem initial_placement_contained (components : list component) (w h margin : R)
    (g : nat) :
  NoDup (map ref components) ->
  (forall rc, rc ∈ components ->
     fits w h margin (dims_of (get_comp db (component_id rc)))) ->
  contained_all db components w h margin
    (initial_placement db tp components w h margin g).1.
Proof.
  intros Hnd Hfit rc p Hrc.
  pose proof (initial_fold_entries w h margin (sorted db components) (∅, ∅, g))
    as (_ & _ & _ & Hcont).
  unfold initial_placement.
  destruct (fold_left _ _ _) as [[pl zo] g'] eqn:Hfold. cbn [fst snd] in *.
  intros Hp. apply Hcont; auto.
  - rewrite (sorted_perm components). exact Hnd.
  - rewrite (sorted_perm components). exact Hrc.
Qed.

End SeedMore.

(** ** More on the annealing loop *)

Lemma quarter_turn_next (z : Z) : quarter_turn z -> quarter_turn ((z + 90) mod 360).
Proof.
  unfold quarter_turn. intros [-> | [-> | [-> | ->]]]; vm_compute; tauto.
Qed.

Section AnnealMore.

Variable db : catalog.
Variable tp : tape.
Variable clock : nat -> R.
Variable components : list component.
Variables w h : R.
Variable mcu_ref : option string.

(** What a move does to the candidate: a translation rewrites one entry
    with clamped and rounded coordinates, a rotation rewrites the rotation
    of one entry, a swap exchanges two entries. *)
Lemma select_move_shape (refs : list string) (T0 : R)
    (candidate c : placement_t) (g g' : nat) :
  select_move db tp components refs w h 3 T0 candidate g = Moved c g' ->
  (exists r p rc vx vy,
      t_unit tp g < 0.5 /\ candidate !! r = Some p /\
      List.find (fun rc => bool_decide (ref rc = r)) components = Some rc /\
      c = <[r := {| x := py_round
                          (Rmax (3 + width (dims_of (get_comp db (component_id rc))) / 2)
                             (Rmin (w - 3 - width (dims_of (get_comp db (component_id rc))) / 2)
                                vx)) 2;
                    y := py_round
                          (Rmax (3 + height (dims_of (get_comp db (component_id rc))) / 2)
                             (Rmin (h - 3 - height (dims_of (get_comp db (component_id rc))) / 2)
                                vy)) 2;
                    rotation := rotation p |}]> candidate)
  \/ (exists r p,
        t_unit tp g < 0.7 /\ candidate !! r = Some p /\
        c = <[r := {| x := x p; y := y p;
                      rotation := ((rotation p + 90) mod 360)%Z |}]> candidate)
  \/ (exists r1 r2 p1 p2,
        ~ t_unit tp g < 0.7 /\ candidate !! r1 = Some p1 /\ candidate !! r2 = Some p2 /\
        c = <[r2 := p1]> (<[r1 := p2]> candidate)).
Proof.
  unfold select_move, random_random.
  destruct (Rlt_dec (t_unit tp g) 0.5) as [Hlo|Hlo];
    [|destruct (Rlt_dec (t_unit tp g) 0.7) as [Hmid|Hmid]].
  - unfold translate_move, random_choice, random_gauss.
    destruct (refs !! _) as [r|]; [|discriminate].
    destruct (List.find _ components) as [rc|] eqn:Hfind; [|discriminate].
    destruct (candidate !! r) as [p|] eqn:Hp; [|discriminate].
    intros Heq. injection Heq as <- _. left.
    exists r, p, rc. eexists _, _. split; [exact Hlo|]. split; [exact Hp|].
    split; [exact Hfind|]. reflexivity.
  - unfold rotate_move, random_choice.
    destruct (refs !! _) as [r|]; [|discriminate].
    destruct (candidate !! r) as [p|] eqn:Hp; [|discriminate].
    intros Heq. injection Heq as <- _. right. left.
    exists r, p. auto.
  - unfold swap_move.
    destruct (length refs <? 2)%nat; [discriminate|].
    destruct (random_sample2 tp refs (S g)) as [[[r1 r2]|] g1]; [|discriminate].
    destruct (candidate !! r2) as [p2|] eqn:Hp2; [|discriminate].
    destruct (candidate !! r1) as [p1|] eqn:Hp1; [|discriminate].
    intros Heq. injection Heq as <- _. right. right.
    exists r1, r2, p1, p2. auto.
Qed.

Lemma find_ref_spec (l : list component) (r : string) (rc : component) :
  List.find (fun rc => bool_decide (ref rc = r)) l = Some rc ->
  rc ∈ l /\ ref rc = r.
Proof.
  intros Hf. apply find_some in Hf as [Hin Hr].
  apply bool_decide_eq_true in Hr. split; [|exact Hr].
  apply list_elem_of_In. exact Hin.
Qed.

(** A property of placements that every move keeps holds of the best
    placement when it holds of the seed. *)
Lemma anneal_best_invariant (P : placement_t -> Prop) (placement : placement_t)
    (time_cap : R) (g : nat) (b : placement_t) (i f : R) (n : nat) :
  (forall T0 candidate g0 c g1,
     P candidate ->
     select_move db tp components (map ref components) w h 3 T0 candidate g0
     = Moved c g1 -> P c) ->
  P placement ->
  simulated_annealing db tp clock components placement w h mcu_ref time_cap g
  = Some (b, i, f, n) ->
  P b.
Proof.
  intros Hmove HP. unfold simulated_annealing.
  destruct (length components <=? 1)%nat; [intros Heq; injection Heq as <- _ _ _; exact HP|].
  destruct (sa_loop _ _ _ _ _ _ _ _ _ _ _ _) as [st'|] eqn:Hrun; [|discriminate].
  intros Heq. injection Heq as <- _ _ _.
  assert (HP' : P (current st') /\ P (best st')); [|tauto].
  eapply (sa_loop_invariant db tp clock components w h mcu_ref time_cap (clock 0)
            (fun s => P (current s) /\ P (best s))); [| | |exact Hrun].
  - intros s s' [Hc Hb] _ Hit.
    pose proof (sa_iteration_cases db tp clock components w h mcu_ref time_cap
                  (clock 0) (map ref components) s) as Hcases.
    rewrite Hit in Hcases. destruct Hcases as (-> & _ & -> & _). tauto.
  - intros s s' [Hc Hb] _ Hit.
    pose proof (sa_iteration_cases db tp clock components w h mcu_ref time_cap
                  (clock 0) (map ref components) s) as Hcases.
    rewrite Hit in Hcases.
    destruct Hcases as (_ & [(_ & -> & _ & -> & _)|(c & g1 & Hmv & _ & _ & Hacc)]);
      [tauto|].
    pose proof (Hmove _ _ _ _ _ Hc Hmv) as HPc.
    destruct Hacc as [(-> & _ & [(-> & _)|(-> & _)])|(-> & _ & -> & _)]; tauto.
  - simpl. tauto.
Qed.

Lemma select_move_dom (refs : list string) (T0 : R)
    (candidate c : placement_t) (g g' : nat) :
  select_move db tp components refs w h 3 T0 candidate g = Moved c g' ->
  dom c = dom candidate.
Proof.
  intros Hmv. apply select_move_shape in Hmv
    as [(r & p & rc & vx & vy & _ & Hp & _ & ->)
       |[(r & p & _ & Hp & ->)|(r1 & r2 & p1 & p2 & _ & Hp1 & Hp2 & ->)]].
  - apply dom_insert_lookup_L. eauto.
  - apply dom_insert_lookup_L. eauto.
  - rewrite dom_insert_lookup_L.
    + apply dom_insert_lookup_L. eauto.
    + apply lookup_insert_is_Some. destruct (decide (r1 = r2)); eauto.
Qed.

Lemma select_move_quarter (refs : list string) (T0 : R)
    (candidate c : placement_t) (g g' : nat) :
  quarter_turns candidate ->
  select_move db tp components refs w h 3 T0 candidate g = Moved c g' ->
  quarter_turns c.
Proof.
  intros Hq Hmv. apply select_move_shape in Hmv
    as [(r & p & rc & vx & vy & _ & Hp & _ & ->)
       |[(r & p & _ & Hp & ->)|(r1 & r2 & p1 & p2 & _ & Hp1 & Hp2 & ->)]];
    intros r' p'.
  - rewrite lookup_insert. destruct (decide (r = r')).
    + intros Heq; injection Heq as <-. simpl. eapply Hq; eassumption.
    + apply Hq.
  - rewrite lookup_insert. destruct (decide (r = r')).
    + intros Heq; injection Heq as <-. simpl. apply quarter_turn_next.
      eapply Hq; eassumption.
    + apply Hq.
  - rewrite lookup_insert. destruct (decide (r2 = r')).
    + intros Heq; injection Heq as <-. eapply Hq; eassumption.
    + rewrite lookup_insert. destruct (decide (r1 = r')).
      * intros Heq; injection Heq as <-. eapply Hq; eassumption.
      * apply Hq.
Qed.

Lemma select_move_contained (T0 : R) (candidate c : placement_t) (g g' : nat) :
  NoDup (map ref components) ->
  (forall rc, rc ∈ components -> fits w h 3 (dims_of (get_comp db (component_id rc)))) ->
  t_unit tp g < 0.7 ->
  contained_all db components w h 3 candidate ->
  select_move db tp components (map ref components) w h 3 T0 candidate g = Moved c g' ->
  contained_all db components w h 3 c.
Proof.
  intros Hnd Hfit Hlt Hcont Hmv. apply select_move_shape in Hmv
    as [(r & p & rc & vx & vy & _ & Hp & Hfind & ->)
       |[(r & p & _ & Hp & ->)|(r1 & r2 & p1 & p2 & Hge & _)]];
    [| |contradiction]; intros rc' p' Hrc'.
  - apply find_ref_spec in Hfind as [Hrc Href].
    rewrite lookup_insert. destruct (decide (r = ref rc')) as [Heq|Hne].
    + intros Hp'; injection Hp' as <-.
      assert (rc' = rc) as ->.
      { apply (NoDup_map_inj ref components); auto. congruence. }
      destruct (Hfit rc Hrc) as (Hw & Hh & Hg1 & Hg2 & Hg3 & Hg4).
      unfold spec_contained. cbn [x y]. split; apply clamp_round; assumption.
    + apply Hcont. exact Hrc'.
  - rewrite lookup_insert. destruct (decide (r = ref rc')) as [Heq|Hne].
    + intros Hp'; injection Hp' as <-. subst r.
      pose proof (Hcont rc' p Hrc' Hp) as Hc. exact Hc.
    + apply Hcont. exact Hrc'.
Qed.

Lemma anneal_returns_any (placement : placement_t) (time_cap : R) (g : nat) :
  placed (map ref components) placement ->
  exists b i f n,
    simulated_annealing db tp clock components placement w h mcu_ref time_cap g
    = Some (b, i, f, n).
Proof.
  intros Hpl.
  destruct (Nat.le_gt_cases (length components) 1) as [Hs|Hl].
  - unfold simulated_annealing. apply Nat.leb_le in Hs. rewrite Hs. eauto.
  - destruct (anneal_returns db tp clock components placement w h mcu_ref time_cap g
                Hl Hpl) as (b & i & f & n & Hsa & _). eauto.
Qed.

Lemma anneal_quarter_turns_if (placement : placement_t) (time_cap : R) (g : nat)
    (b : placement_t) (i f : R) (n : nat) :
  quarter_turns placement ->
  simulated_annealing db tp clock components placement w h mcu_ref time_cap g
  = Some (b, i, f, n) ->
  quarter_turns b.
Proof.
  intros Hq Hsa.
  apply (anneal_best_invariant quarter_turns placement time_cap g b i f n);
    [|exact Hq|exact Hsa].
  intros T0 cand g0 c g1 Hc Hmv. eapply select_move_quarter; eassumption.
Qed.

(** X12: the optimiser returns a placement with the keys of the seed: it
    neither drops nor adds a component. *)
Theorem anneal_keeps_keys (placement : placement_t) (time_cap : R) (g : nat) :
  placed (map ref components) placement ->
  exists b i f n,
    simulated_annealing db tp clock components placement w h mcu_ref time_cap g
    = Some (b, i, f, n)
    /\ dom b = dom placement.
Proof.
  intros Hpl.
  destruct (anneal_returns_any placement time_cap g Hpl) as (b & i & f & n & Hsa).
  exists b, i, f, n. split; [exact Hsa|].
  apply (anneal_best_invariant (fun pl => dom pl = dom placement) placement
           time_cap g b i f n); [|reflexivity|exact Hsa].
  intros T0 cand g0 c g1 Hd Hmv. rewrite <- Hd. eapply select_move_dom. exact Hmv.
Qed.

(** X13: rotations stay among 0, 90, 180 and 270 degrees: when those of the
    seed are, so are those of the placement the optimiser returns. *)
Theorem anneal_quarter_turns (placement : placement_t) (time_cap : R) (g : nat) :
  placed (map ref components) placement ->
  quarter_turns placement ->
  exists b i f n,
    simulated_annealing db tp clock components placement w h mcu_ref time_cap g
    = Some (b, i, f, n)
    /\ quarter_turns b.
Proof.
  intros Hpl Hq.
  destruct (anneal_returns_any placement time_cap g Hpl) as (b & i & f & n & Hsa).
  exists b, i, f, n. split; [exact Hsa|].
  eapply anneal_quarter_turns_if; eassumption.
Qed.

(** X14: as long as no swap is drawn, containment is kept: on more than
    one component, with pairwise distinct references, footprints that fit
    between the margins of 3 mm and clamp bounds (margin plus half the
    size, board size minus margin minus half the size) that have at most
    two decimals, so that rounding to two decimals cannot leave them, a
    seed that places every reference inside the margin gives a result
    inside the margin. *)
Theorem anneal_contained_without_swap (placement : placement_t) (time_cap : R)
    (g : nat) :
  (1 < length components)%nat ->
  placed (map ref components) placement ->
  NoDup (map ref components) ->
  (forall rc, rc ∈ components -> fits w h 3 (dims_of (get_comp db (component_id rc)))) ->
  (forall k, t_unit tp k < 0.7) ->
  contained_all db components w h 3 placement ->
  exists b i f n,
    simulated_annealing db tp clock components placement w h mcu_ref time_cap g
    = Some (b, i, f, n)
    /\ contained_all db components w h 3 b.
Proof.
  intros Hlen Hpl Hnd Hfit Htape Hcont.
  destruct (anneal_returns db tp clock components placement w h mcu_ref time_cap g
              Hlen Hpl) as (b & i & f & n & Hsa & _).
  exists b, i, f, n. split; [exact Hsa|].
  apply (anneal_best_invariant (contained_all db components w h 3) placement
           time_cap g b i f n); [|exact Hcont|exact Hsa].
  intros T0 cand g0 c g1 Hc Hmv.
  eapply select_move_contained; eauto.
Qed.

End AnnealMore.


Section AnnealCount.

Variable db : catalog.
Variable tp : tape.
Variable clock : nat -> R.
Variable components : list component.
Variables w h : R.
Variable mcu_ref : option string.
Variables time_cap t0 : R.

Lemma seed_or_better_step (seed : placement_t) (init_s : R) (st st' : sa_state) :
  (best st = seed /\ best_s st = init_s) \/ best_s st < init_s ->
  sa_iteration db tp clock components (map ref components) w h mcu_ref
    time_cap t0 st = Break st'
  \/ sa_iteration db tp clock components (map ref components) w h mcu_ref
       time_cap t0 st = Next st' ->
  (best st' = seed /\ best_s st' = init_s) \/ best_s st' < init_s.
Proof.
  intros Hq Hit.
  pose proof (sa_iteration_cases db tp clock components w h mcu_ref time_cap t0
                (map ref components) st) as Hcases.
  destruct Hit as [Hit|Hit]; rewrite Hit in Hcases.
  - destruct Hcases as (_ & _ & -> & -> & _). exact Hq.
  - destruct Hcases as (_ & [(_ & _ & _ & -> & -> & _)|(c & g1 & _ & _ & _ & Hacc)]);
      [exact Hq|].
    destruct Hacc as [(_ & _ & [(_ & -> & Hlt)|(-> & -> & _)])|(_ & _ & -> & ->)];
      [|exact Hq|exact Hq].
    right. destruct Hq as [[_ Hq]|Hq]; lra.
Qed.

End AnnealCount.

Section AnnealCountTheorems.

Variable db : catalog.
Variable tp : tape.
Variable clock : nat -> R.
Variable components : list component.
Variables w h : R.
Variable mcu_ref : option string.

(** X15: the optimiser returns either the seed itself, with the final score
    equal to the initial one, or a placement with a strictly smaller
    score. *)
Theorem anneal_seed_or_better (placement : placement_t) (time_cap : R) (g : nat) :
  (1 < length components)%nat ->
  placed (map ref components) placement ->
  exists b i f n,
    simulated_annealing db tp clock components placement w h mcu_ref time_cap g
    = Some (b, i, f, n)
    /\ ((b = placement /\ f = i) \/ f < i).
Proof.
  intros Hlen Hpl.
  destruct (anneal_returns db tp clock components placement w h mcu_ref time_cap g
              Hlen Hpl) as (b & i & f & n & Hsa & _).
  exists b, i, f, n. split; [exact Hsa|].
  revert Hsa. unfold simulated_annealing.
  destruct (length components <=? 1)%nat eqn:Hle; [apply Nat.leb_le in Hle; lia|].
  destruct (sa_loop _ _ _ _ _ _ _ _ _ _ _ _) as [st'|] eqn:Hrun; [|discriminate].
  intros Heq. injection Heq as <- <- <- _.
  eapply (sa_loop_invariant db tp clock components w h mcu_ref time_cap (clock 0)
            (fun s => (best s = placement
                       /\ best_s s = score db components placement w h mcu_ref)
                      \/ best_s s < score db components placement w h mcu_ref));
    [| | |exact Hrun].
  - intros s s' Hs _ Hit. eapply seed_or_better_step; eauto.
  - intros s s' Hs _ Hit. eapply seed_or_better_step; eauto.
  - simpl. left. tauto.
Qed.

End AnnealCountTheorems.

Section AnnealBudget.

Variable db : catalog.
Variable tp : tape.
Variable clock : nat -> R.
Variable components : list component.
Variables w h : R.
Variable mcu_ref : option string.
Variables time_cap t0 : R.

Lemma sa_iteration_check (st : sa_state) :
  match sa_iteration db tp clock components (map ref components) w h mcu_ref
          time_cap t0 st with
  | Break st' =>
      (itr st mod 200 = 0)%nat /\ time_cap < clock (ticks st) - t0
      /\ itr st' = itr st
  | Next st' =>
      ((itr st mod 200 = 0)%nat -> ~ time_cap < clock (ticks st) - t0)
      /\ ticks st' = (if (itr st mod 200 =? 0)%nat then S (ticks st) else ticks st)
  | Raise => True
  end.
Proof.
  unfold sa_iteration.
  destruct (itr st mod 200 =? 0)%nat eqn:Hchk.
  - apply Nat.eqb_eq in Hchk.
    destruct (Rlt_dec time_cap (clock (ticks st) - t0)) as [Hover|Hover].
    + simpl. tauto.
    + destruct select_move as [candidate g1|g1|]; [| |exact I].
      * destruct accept as [ok g2]. simpl. tauto.
      * simpl. tauto.
  - apply Nat.eqb_neq in Hchk.
    destruct select_move as [candidate g1|g1|]; [| |exact I].
    + destruct accept as [ok g2]. simpl. tauto.
    + simpl. tauto.
Qed.

Lemma ticked_step (st st' : sa_state) :
  ticked st ->
  sa_iteration db tp clock components (map ref components) w h mcu_ref
    time_cap t0 st = Next st' ->
  itr st' = S (itr st) ->
  ticked st'.
Proof.
  unfold ticked. intros Ht Hit Hitr.
  pose proof (sa_iteration_check st) as Hchk. rewrite Hit in Hchk.
  destruct Hchk as [_ ->]. rewrite Hitr, Ht.
  pose proof (Nat.div_mod_eq (itr st) 200) as Hd.
  destruct (itr st mod 200 =? 0)%nat eqn:Hm.
  - apply Nat.eqb_eq in Hm.
    replace (itr st + 199)%nat with (199 + itr st / 200 * 200)%nat by lia.
    replace (S (itr st) + 199)%nat with (0 + (1 + itr st / 200) * 200)%nat by lia.
    rewrite !Nat.div_add by lia. reflexivity.
  - apply Nat.eqb_neq in Hm.
    pose proof (Nat.mod_upper_bound (itr st) 200 ltac:(lia)) as Hu.
    f_equal.
    replace (itr st + 199)%nat
      with ((itr st mod 200 - 1) + (1 + itr st / 200) * 200)%nat by lia.
    replace (S (itr st) + 199)%nat
      with (itr st mod 200 + (1 + itr st / 200) * 200)%nat by lia.
    rewrite !Nat.div_add by lia.
    rewrite (Nat.div_small (itr st mod 200 - 1) 200) by lia.
    rewrite (Nat.div_small (itr st mod 200) 200) by lia. reflexivity.
Qed.

(** The loop is left at the first time check that finds the budget used
    up. *)
Lemma sa_loop_first_expired (j left : nat) (st : sa_state) :
  (2 <= length components)%nat ->
  (200 * j < 1690)%nat ->
  (forall k, (k < j)%nat -> ~ time_cap < clock (S k) - t0) ->
  time_cap < clock (S j) - t0 ->
  placed (map ref components) (current st) ->
  cooled st -> ticked st ->
  (itr st <= 200 * j)%nat -> (200 * j - itr st < left)%nat ->
  exists st',
    sa_loop db tp clock left components (map ref components) w h mcu_ref
      time_cap t0 st = Some st'
    /\ itr st' = (200 * j)%nat.
Proof.
  intros Hlen Hj Hbefore Hat. revert st.
  induction left as [|left IH]; intros st Hpl Hc Ht Hi Hleft; [lia|].
  rewrite sa_loop_succ.
  assert (Hhot : T_min < T st) by (rewrite Hc; apply still_hot; lia).
  destruct (Rlt_dec T_min (T st)) as [_|Hn]; [|contradiction].
  pose proof (sa_iteration_placed db tp clock components w h mcu_ref time_cap t0
                st Hlen Hpl) as Hit.
  pose proof (sa_iteration_cases db tp clock components w h mcu_ref time_cap t0
                (map ref components) st) as Hcases.
  pose proof (sa_iteration_check st) as Hchk.
  pose proof (ticked_step st) as Hstep.
  unfold ticked in Ht.
  destruct sa_iteration as [st1|st1|] eqn:Heq; [| |contradiction].
  - exists st1. split; [reflexivity|].
    destruct Hchk as (Hmod & Hover & ->).
    destruct (Nat.eq_dec (itr st) (200 * j)%nat) as [|Hne]; [assumption|].
    exfalso.
    pose proof (Nat.div_mod_eq (itr st) 200) as Hd.
    apply (Hbefore (itr st / 200)%nat); [lia|].
    replace (S (itr st / 200)) with (ticks st); [exact Hover|].
    rewrite Ht. f_equal.
    replace (itr st + 199)%nat with (199 + itr st / 200 * 200)%nat by lia.
    rewrite Nat.div_add by lia. reflexivity.
  - assert (Hitr : itr st1 = S (itr st)) by tauto.
    destruct Hchk as [Hnot _].
    assert (Hlt : (itr st < 200 * j)%nat).
    { destruct (Nat.eq_dec (itr st) (200 * j)%nat) as [He|]; [|lia].
      exfalso. apply Hnot.
      - rewrite He, Nat.mul_comm. apply Nat.Div0.mod_mul.
      - rewrite Ht, He.
        replace (200 * j + 199)%nat with (199 + j * 200)%nat by lia.
        rewrite Nat.div_add by lia. exact Hat. }
    apply IH; [assumption| | |lia|lia].
    + eapply cooled_step; eauto.
    + apply Hstep; [exact Ht|reflexivity|exact Hitr].
Qed.

Lemma sa_loop_none_expired (left : nat) (st : sa_state) :
  (2 <= length components)%nat ->
  (forall k, (k < 9)%nat -> ~ time_cap < clock (S k) - t0) ->
  placed (map ref components) (current st) ->
  cooled st -> ticked st ->
  (itr st <= 1690)%nat -> (1690 - itr st <= left)%nat ->
  exists st',
    sa_loop db tp clock left components (map ref components) w h mcu_ref
      time_cap t0 st = Some st'
    /\ itr st' = 1690%nat.
Proof.
  intros Hlen Hclock. revert st.
  induction left as [|left IH]; intros st Hpl Hc Ht Hi Hleft.
  - exists st. split; [reflexivity|lia].
  - rewrite sa_loop_succ.
    destruct (Rlt_dec T_min (T st)) as [Hhot|Hcold].
    + pose proof Hhot as Hk. rewrite Hc in Hk. apply still_hot in Hk.
      pose proof (sa_iteration_placed db tp clock components w h mcu_ref time_cap t0
                    st Hlen Hpl) as Hit.
      pose proof (sa_iteration_cases db tp clock components w h mcu_ref time_cap t0
                    (map ref components) st) as Hcases.
      pose proof (sa_iteration_check st) as Hchk.
      pose proof (ticked_step st) as Hstep.
      unfold ticked in Ht.
      destruct sa_iteration as [st1|st1|] eqn:Heq; [| |contradiction].
      * exfalso. destruct Hchk as (Hmod & Hover & _).
        pose proof (Nat.div_mod_eq (itr st) 200) as Hd.
        apply (Hclock (itr st / 200)%nat); [lia|].
        replace (S (itr st / 200)) with (ticks st); [exact Hover|].
        rewrite Ht. f_equal.
        replace (itr st + 199)%nat with (199 + itr st / 200 * 200)%nat by lia.
        rewrite Nat.div_add by lia. reflexivity.
      * assert (Hitr : itr st1 = S (itr st)) by tauto.
        apply IH; [assumption| | |lia|lia].
        -- eapply cooled_step; eauto.
        -- apply Hstep; [exact Ht|reflexivity|exact Hitr].
    + exists st. split; [reflexivity|].
      rewrite Hc in Hcold.
      destruct (Nat.lt_ge_cases (itr st) 1690) as [Hlt|]; [|lia].
      apply still_hot in Hlt. contradiction.
Qed.

End AnnealBudget.

Section AnnealBudgetTheorem.

Variable db : catalog.
Variable tp : tape.
Variable clock : nat -> R.
Variable components : list component.
Variables w h : R.
Variable mcu_ref : option string.

(** X16: the clock is read once before the loop and then at every 200th
    iteration.  The optimiser stops at the first of these checks that
    finds more than the budget elapsed, after [200 * j] iterations when it
    is the check number [j] (counted from 0); when none of the first nine
    checks does, it makes all 1690 iterations. *)
Theorem anneal_stops_at_first_expired_check (placement : placement_t)
    (time_cap : R) (g : nat) :
  (1 < length components)%nat ->
  placed (map ref components) placement ->
  (forall j, (j < 9)%nat ->
     (forall k, (k < j)%nat -> ~ time_cap < clock (S k) - clock 0) ->
     time_cap < clock (S j) - clock 0 ->
     exists b i f,
       simulated_annealing db tp clock components placement w h mcu_ref time_cap g
       = Some (b, i, f, (200 * j)%nat))
  /\ ((forall k, (k < 9)%nat -> ~ time_cap < clock (S k) - clock 0) ->
      exists b i f,
        simulated_annealing db tp clock components placement w h mcu_ref time_cap g
        = Some (b, i, f, 1690%nat)).
Proof.
  intros Hlen Hpl.
  set (st0 := {| current := placement;
                 cur_s := score db components placement w h mcu_ref;
                 best := placement;
                 best_s := score db components placement w h mcu_ref;
                 T := T_init; itr := 0; draws := g; ticks := 1 |}).
  assert (Hc0 : cooled st0) by (unfold cooled; simpl; lra).
  assert (Ht0 : ticked st0) by reflexivity.
  pose proof MAX_ITR_above as Hmax.
  split.
  - intros j Hj Hbefore Hat. unfold simulated_annealing.
    destruct (length components <=? 1)%nat eqn:Hle; [apply Nat.leb_le in Hle; lia|].
    destruct (sa_loop_first_expired db tp clock components w h mcu_ref time_cap
                (clock 0) j MAX_ITR st0) as (st' & Hrun & Hitr);
      [lia|lia|exact Hbefore|exact Hat|exact Hpl|exact Hc0|exact Ht0
      |simpl; lia|simpl; lia|].
    fold st0. rewrite Hrun, <- Hitr. eauto.
  - intros Hnone. unfold simulated_annealing.
    destruct (length components <=? 1)%nat eqn:Hle; [apply Nat.leb_le in Hle; lia|].
    destruct (sa_loop_none_expired db tp clock components w h mcu_ref time_cap
                (clock 0) MAX_ITR st0) as (st' & Hrun & Hitr);
      [lia|exact Hnone|exact Hpl|exact Hc0|exact Ht0|simpl; lia|simpl; lia|].
    fold st0. rewrite Hrun, <- Hitr. eauto.
Qed.

End AnnealBudgetTheorem.

(** ** More on the stage *)

Lemma improvement_range (init_s final_s : R) :
  0 <= final_s <= init_s -> 0 <= improvement init_s final_s <= 100.
Proof.
  intros [H0 Hle]. unfold improvement.
  destruct (Rlt_dec 0 init_s) as [Hpos|_]; [|lra].
  assert (Hq : 0 <= (init_s - final_s) / init_s <= 1).
  { split.
    - apply Rmult_le_pos; [lra|]. left. apply Rinv_0_lt_compat. exact Hpos.
    - apply (Rmult_le_reg_r init_s); [exact Hpos|]. field_simplify; lra. }
  unfold Rmax. destruct Rle_dec; lra.
Qed.

Lemma ref_prefix_nonempty (comp : catalog_entry) : ref_prefix comp <> "".
Proof.
  unfold ref_prefix.
  assert (Ht : forall o d, d <> "" -> or_else (truthy o) d <> "").
  { intros [s|] d Hd; simpl; [|exact Hd]. destruct (decide (s = "")); assumption. }
  apply Ht, Ht.
  destruct (PREFIX_FALLBACK !! or_else (category comp) "") as [u|] eqn:Hu;
    [|discriminate].
  simpl. unfold PREFIX_FALLBACK in Hu. apply elem_of_list_to_map_2 in Hu.
  repeat (apply elem_of_cons in Hu as [Hu|Hu]; [injection Hu as _ ->; discriminate|]).
  inversion Hu.
Qed.

Section StageMore.

Variable db : catalog.
Variable tp : tape.
Variable clock : nat -> R.

Lemma assign_refs_ref_nonempty (l : list resolved_component) (rc : component) :
  rc ∈ assign_refs db l -> ref rc <> "".
Proof.
  intros Hrc. apply list_elem_of_lookup in Hrc as [i Hi].
  assert (Hlt : (i < length l)%nat).
  { rewrite <- (length_assign_refs db l). eapply lookup_lt_Some. exact Hi. }
  apply lookup_lt_is_Some_2 in Hlt as [rc0 Hrc0].
  rewrite (assign_refs_at db l i rc0 Hrc0) in Hi. injection Hi as <-. simpl.
  pose proof (ref_prefix_nonempty (get_comp db (rc_component_id rc0))) as Hne.
  unfold prefix_of. destruct (ref_prefix _); [contradiction|discriminate].
Qed.

(** X17: when the identifier of the MCU is the identifier of one of the
    components, the stage finds the reference of the first such component,
    that reference is not empty and has a position in the seed, and the
    wiring term of the seed is the weighted sum of the distances to it. *)
Theorem mcu_found_and_wired (l : list resolved_component) (id : string)
    (w h : R) (g : nat) :
  id ∈ map rc_component_id l ->
  exists m,
    find_mcu_ref (assign_refs db l) (Some id) = Some m
    /\ m <> ""
    /\ is_Some ((initial_placement db tp (assign_refs db l) w h 3 g).1 !! m)
    /\ wire_length_score db (assign_refs db l)
         (initial_placement db tp (assign_refs db l) w h 3 g).1 (Some m)
       = spec_wiring_term db (assign_refs db l)
           (initial_placement db tp (assign_refs db l) w h 3 g).1 m.
Proof.
  intros Hid.
  assert (Hin : exists rc, rc ∈ assign_refs db l /\ component_id rc = id).
  { apply list_elem_of_fmap in Hid as (rc0 & -> & Hrc0).
    apply list_elem_of_lookup in Hrc0 as [i Hi].
    eexists. split; [|shelve].
    eapply list_elem_of_lookup_2. apply (assign_refs_at db l i rc0 Hi).
    Unshelve. reflexivity. }
  destruct Hin as (rc & Hrc & Hrcid).
  unfold find_mcu_ref.
  destruct (List.find _ (assign_refs db l)) as [rc1|] eqn:Hfind.
  - apply find_some in Hfind as [Hin1 _]. apply list_elem_of_In in Hin1.
    exists (ref rc1). split; [reflexivity|].
    assert (Hne : ref rc1 <> "") by (eapply assign_refs_ref_nonempty; eassumption).
    assert (Hpl : is_Some ((initial_placement db tp (assign_refs db l) w h 3 g).1 !! ref rc1)).
    { apply initial_placement_placed. apply list_elem_of_fmap. eauto. }
    split; [exact Hne|]. split; [exact Hpl|].
    unfold wire_length_score, no_mcu.
    rewrite bool_decide_eq_false_2 by assumption.
    rewrite bool_decide_eq_false_2
      by (destruct Hpl as [p Hp]; rewrite Hp; discriminate).
    simpl.
    destruct (get_pos (ref rc1) _) as [mx my] eqn:Hm.
    rewrite (wire_step_sum db _ (ref rc1) mx my _ 0 Hm). lra.
  - exfalso. apply list_elem_of_In in Hrc.
    pose proof (find_none _ _ Hfind rc Hrc) as Hf. simpl in Hf.
    apply bool_decide_eq_false in Hf. contradiction.
Qed.

(** X19: the stage lists every resolved component once, in input order, with
    the reference the assigner gave it, a rotation among 0, 90, 180 and
    270 degrees and the nominal size of its catalogue entry; the
    improvement it reports lies between 0 and 100 per cent. *)
Theorem run_lists_components (res : resolved) (board : option (R * R)) :
  exists d,
    run db tp clock res board = Some d
    /\ map o_component_id (components_out d)
       = map rc_component_id (resolved_components res)
    /\ map o_ref (components_out d)
       = map ref (assign_refs db (resolved_components res))
    /\ Forall (fun o => quarter_turn (rotation_deg o)
                        /\ width_mm o = width (dims_of (get_comp db (o_component_id o)))
                        /\ height_mm o = height (dims_of (get_comp db (o_component_id o))))
         (components_out d)
    /\ 0 <= improvement_pct d <= 100.
Proof.
  unfold run. destruct (or_else board (100, 80)) as [bw bh].
  destruct (resolved_components res) as [|rc0 l0] eqn:Hres.
  { eexists. split; [reflexivity|]. simpl.
    split; [reflexivity|]. split; [reflexivity|]. split; [constructor|lra]. }
  rewrite <- Hres. clear Hres rc0 l0.
  set (components := assign_refs db (resolved_components res)).
  pose proof (initial_placement_placed db tp components bw bh 3 0) as Hpl.
  pose proof (initial_placement_rotations db tp components bw bh 3 0) as Hrot.
  destruct (initial_placement db tp components bw bh 3 0) as [pl g]. cbn [fst] in *.
  set (m := find_mcu_ref components (mcu res)).
  assert (Hq : quarter_turns pl).
  { intros r p Hp. left. eapply Hrot. exact Hp. }
  assert (Hsa : exists b i f n,
            simulated_annealing db tp clock components pl bw bh m 10 g
            = Some (b, i, f, n) /\ 0 <= f <= i).
  { destruct (Nat.le_gt_cases (length components) 1) as [Hshort|Hlong].
    - unfold simulated_annealing. apply Nat.leb_le in Hshort. rewrite Hshort.
      eexists _, _, _, _. split; [reflexivity|]. lra.
    - destruct (anneal_returns db tp clock components pl bw bh m 10 g Hlong Hpl)
        as (b & i & f & n & Hsa & _ & Hf & Hle & _).
      exists b, i, f, n. split; [exact Hsa|]. split; [|exact Hle].
      rewrite Hf. apply score_ge_0. }
  destruct Hsa as (b & i & f & n & Hsa & Hfi).
  pose proof (anneal_quarter_turns_if db tp clock components bw bh m pl 10 g b i f n Hq Hsa)
    as Hqb.
  rewrite Hsa. eexists. split; [reflexivity|]. cbn [components_out improvement_pct].
  split; [|split; [|split]].
  - rewrite map_map. cbn [output_of o_component_id].
    unfold components, assign_refs.
    clear. generalize (∅ : gmap string nat).
    assert (H : forall l c (r : list component),
              map component_id (fold_left (assign_step db) l (c, r)).2
              = map component_id r ++ map rc_component_id l).
    { induction l as [|rc l IH]; intros c r; simpl.
      - rewrite app_nil_r. reflexivity.
      - rewrite IH, map_app, <- app_assoc. reflexivity. }
    intros c. rewrite (H _ c []). reflexivity.
  - rewrite map_map. reflexivity.
  - apply Forall_map, Forall_forall. intros rc _. cbn [output_of rotation_deg width_mm height_mm o_component_id].
    split; [|split; reflexivity].
    destruct (b !! ref rc) as [p|] eqn:Hp; simpl; [eapply Hqb; exact Hp|left; reflexivity].
  - pose proof (improvement_range i f Hfi) as [Hlo Hhi].
    pose proof (py_round_mono _ _ 1 Hlo) as H1.
    pose proof (py_round_mono _ _ 1 Hhi) as H2.
    rewrite py_round_0 in H1.
    rewrite (py_round_exact 1000 1 100) in H2 by (simpl; lra). lra.
Qed.

End StageMore.

(** ** Properties of the placement overrides *)


Section OverridesProperties.

Context {V : Type} `{EqDecision V}.
Variable jstr : string -> V.

Lemma od_set_fresh (k : V) (v : gmap string V) (d : list (V * gmap string V)) :
  k ∉ map fst d -> od_set k v d = d ++ [(k, v)].
Proof.
  induction d as [|[k' v'] d IH]; simpl; intros Hk; [reflexivity|].
  apply not_elem_of_cons in Hk as [Hne Hk].
  destruct (decide (k = k')); [contradiction|]. rewrite IH by assumption. reflexivity.
Qed.

Lemma od_set_keys (k : V) (v : gmap string V) (d : list (V * gmap string V)) :
  map fst (od_set k v d)
  = if decide (k ∈ map fst d) then map fst d else map fst d ++ [k].
Proof.
  induction d as [|[k' v'] d IH]; simpl.
  - destruct (decide (k ∈ [])) as [Hin|_]; [inversion Hin|reflexivity].
  - destruct (decide (k = k')) as [->|Hne].
    + rewrite decide_True by (apply elem_of_cons; auto). reflexivity.
    + simpl. rewrite IH. destruct (decide (k ∈ map fst d)) as [Hin|Hnin].
      * rewrite decide_True by (apply elem_of_cons; auto). reflexivity.
      * rewrite decide_False; [reflexivity|].
        intros Hin. apply elem_of_cons in Hin as [?|?]; contradiction.
Qed.

Lemma od_update_keys (r : string) (ch : gmap string V) (d : list (V * gmap string V)) :
  map fst (od_update jstr r ch d) = map fst d.
Proof.
  induction d as [|[k c] d IH]; simpl; [reflexivity|].
  destruct (decide (k = jstr r)); simpl; [reflexivity|]. rewrite IH. reflexivity.
Qed.

Lemma od_update_values (r : string) (ch : gmap string V) (d : list (V * gmap string V)) :
  NoDup (map fst d) ->
  od_update jstr r ch d
  = map (fun kc => (kc.1, if decide (kc.1 = jstr r) then ch ∪ kc.2 else kc.2)) d.
Proof.
  induction d as [|[k c] d IH]; simpl; intros Hnd; [reflexivity|].
  apply NoDup_cons in Hnd as [Hk Hnd].
  destruct (decide (k = jstr r)) as [Heq|Hne].
  - f_equal. symmetry. rewrite <- (map_id d) at 2. apply map_ext_in.
    intros [k' c'] Hin. simpl. destruct (decide (k' = jstr r)) as [Heq'|]; [|reflexivity].
    exfalso. apply Hk. rewrite Heq, <- Heq'.
    apply list_elem_of_fmap. exists (k', c'). split; [reflexivity|].
    apply list_elem_of_In. exact Hin.
  - rewrite IH by assumption. reflexivity.
Qed.

Lemma overrides_fold (overrides : list (string * gmap string V))
    (d : list (V * gmap string V)) :
  NoDup (map fst d) ->
  fold_left (fun d o => od_update jstr o.1 o.2 d) overrides d
  = map (fun kc => (kc.1, overridden jstr overrides kc.1 kc.2)) d.
Proof.
  revert d. induction overrides as [|[r ch] ovs IH]; intros d Hnd; simpl.
  - unfold overridden. simpl. rewrite <- (map_id d) at 1.
    apply map_ext. intros [k c]. reflexivity.
  - rewrite IH by (rewrite od_update_keys; exact Hnd).
    rewrite od_update_values by assumption. rewrite map_map.
    apply map_ext. intros [k c]. reflexivity.
Qed.

Lemma by_ref_from_distinct (components : list (gmap string V))
    (d : list (V * gmap string V)) (refs : list V) :
  map (fun c => c !! "ref") components = map Some refs ->
  NoDup (map fst d ++ refs) ->
  by_ref_from d components = Some (d ++ zip refs components).
Proof.
  revert d refs. induction components as [|c rest IH]; intros d refs Hrefs Hnd.
  - destruct refs; [|discriminate]. simpl. rewrite app_nil_r. reflexivity.
  - destruct refs as [|r refs]; [discriminate|]. simpl in Hrefs.
    injection Hrefs as Hr Hrest. simpl. rewrite Hr.
    assert (Hfresh : r ∉ map fst d).
    { apply NoDup_app in Hnd as (_ & Hdis & _). intros Hin.
      apply (Hdis r Hin). apply elem_of_cons. auto. }
    rewrite od_set_fresh by assumption.
    rewrite (IH (d ++ [(r, c)]) refs Hrest).
    + rewrite <- app_assoc. reflexivity.
    + rewrite map_app, <- app_assoc. exact Hnd.
Qed.

(** X20: when every component has a reference and the references are pairwise
    distinct, the result lists the components in their order, each with
    the overrides addressed to its reference merged into it; overrides
    addressed to other references change nothing. *)
Theorem apply_overrides_distinct (components : list (gmap string V))
    (overrides : list (string * gmap string V)) (refs : list V) :
  map (fun c => c !! "ref") components = map Some refs ->
  NoDup refs ->
  apply_overrides jstr components overrides
  = Some (map (fun rc => overridden jstr overrides rc.1 rc.2) (zip refs components)).
Proof.
  intros Hrefs Hnd. unfold apply_overrides.
  rewrite (by_ref_from_distinct components [] refs Hrefs) by exact Hnd.
  simpl. rewrite overrides_fold.
  - rewrite map_map. reflexivity.
  - assert (Hlen : length refs = length components).
    { apply (f_equal length) in Hrefs. rewrite !length_map in Hrefs. lia. }
    rewrite fst_zip by lia. exact Hnd.
Qed.

Lemma by_ref_from_keys (components : list (gmap string V))
    (d d' : list (V * gmap string V)) :
  NoDup (map fst d) -> by_ref_from d components = Some d' ->
  NoDup (map fst d')
  /\ (forall k, k ∈ map fst d' <->
                k ∈ map fst d \/ Some k ∈ map (fun c => c !! "ref") components).
Proof.
  revert d. induction components as [|c rest IH]; intros d Hnd; simpl.
  - intros Heq; injection Heq as <-. split; [exact Hnd|].
    intros k. rewrite elem_of_nil. tauto.
  - destruct (c !! "ref") as [r|] eqn:Hr; [|discriminate]. intros Hby.
    assert (Hnd' : NoDup (map fst (od_set r c d))).
    { rewrite od_set_keys. destruct (decide (r ∈ map fst d)); [exact Hnd|].
      apply NoDup_app. split; [exact Hnd|]. split; [|apply NoDup_singleton].
      intros k Hk Hin. apply list_elem_of_singleton in Hin. subst. contradiction. }
    destruct (IH _ Hnd' Hby) as [Hnd'' Hkeys]. split; [exact Hnd''|].
    intros k. rewrite Hkeys, od_set_keys, elem_of_cons.
    destruct (decide (r ∈ map fst d)) as [Hin|Hnin].
    + split; [intros [?|?]; auto|intros [?|[Heq|?]]; auto].
      injection Heq as ->. auto.
    + rewrite elem_of_app, list_elem_of_singleton.
      split; [intros [[? | ->] | ?]; auto|intros [?|[Heq|?]]; auto].
      injection Heq as ->. auto.
Qed.

(** X21: the result has one entry for each distinct reference: components that
    share a reference are merged into one entry, and a component without
    reference makes the function fail. *)
Theorem apply_overrides_length (components : list (gmap string V))
    (overrides : list (string * gmap string V)) :
  (forall result,
     apply_overrides jstr components overrides = Some result ->
     length result = length (remove_dups (map (fun c => c !! "ref") components)))
  /\ (apply_overrides jstr components overrides = None
      <-> None ∈ map (fun c => c !! "ref") components).
Proof.
  split.
  - intros result. unfold apply_overrides.
    destruct (by_ref_from [] components) as [d|] eqn:Hby; [|discriminate].
    intros Heq; injection Heq as <-.
    destruct (by_ref_from_keys components [] d (NoDup_nil_2) Hby) as [Hnd Hkeys].
    rewrite length_map.
    assert (Hk : forall ovs (d0 : list (V * gmap string V)),
              map fst (fold_left (fun d o => od_update jstr o.1 o.2 d) ovs d0) = map fst d0).
    { induction ovs as [|o ovs IH]; intros d0; simpl; [reflexivity|].
      rewrite IH, od_update_keys. reflexivity. }
    rewrite <- (length_map fst), Hk.
    rewrite <- (length_map Some (map fst d)).
    apply Permutation_length, NoDup_Permutation.
    + apply NoDup_fmap_2; [intros a b Hab; injection Hab; auto|exact Hnd].
    + apply NoDup_remove_dups.
    + intros o. rewrite elem_of_remove_dups. split.
      * intros Ho. apply list_elem_of_fmap in Ho as (k & -> & Hk').
        apply Hkeys in Hk' as [Hk'|Hk']; [inversion Hk'|exact Hk'].
      * intros Ho. destruct o as [k|].
        -- apply list_elem_of_fmap. exists k. split; [reflexivity|].
           apply Hkeys. right. exact Ho.
        -- exfalso. clear -Ho Hby. revert Hby. generalize (@nil (V * gmap string V)).
           induction components as [|c rest IH]; intros d0; [inversion Ho|].
           simpl in *. destruct (c !! "ref") eqn:Hc; [|discriminate].
           apply elem_of_cons in Ho as [Ho|Ho]; [discriminate|]. apply IH. exact Ho.
  - unfold apply_overrides. generalize (@nil (V * gmap string V)).
    induction components as [|c rest IH]; intros d0; simpl.
    + rewrite elem_of_nil. split; [discriminate|tauto].
    + destruct (c !! "ref") as [r|] eqn:Hc.
      * rewrite IH, elem_of_cons. split; [auto|intros [?|?]; [discriminate|assumption]].
      * rewrite elem_of_cons. split; auto.
Qed.

End OverridesProperties.

(** ** What the output depends on: the time checks *)

Section SameChecks.

Variable db : catalog.
Variable tp : tape.
Variables clock1 clock2 : nat -> R.
Variable components : list component.
Variables w h : R.
Variable mcu_ref : option string.
Variable time_cap : R.
Hypothesis Hchecks : same_checks time_cap clock1 clock2.

Lemma ticks_at_check (st : sa_state) :
  ticked st -> (itr st mod 200 = 0)%nat -> ticks st = S (itr st / 200).
Proof.
  unfold ticked. intros -> Hm. f_equal.
  pose proof (Nat.div_mod_eq (itr st) 200) as Hd.
  replace (itr st + 199)%nat with (199 + itr st / 200 * 200)%nat by lia.
  rewrite Nat.div_add by lia. reflexivity.
Qed.

Lemma sa_iteration_same_checks (refs : list string) (st : sa_state) :
  (itr st < 1690)%nat -> ticked st ->
  sa_iteration db tp clock1 components refs w h mcu_ref time_cap (clock1 0%nat) st
  = sa_iteration db tp clock2 components refs w h mcu_ref time_cap (clock2 0%nat) st.
Proof.
  intros Hi Ht. unfold sa_iteration.
  destruct (itr st mod 200 =? 0)%nat eqn:Hm; [|reflexivity].
  apply Nat.eqb_eq in Hm. rewrite (ticks_at_check st Ht Hm).
  assert (Hq : (itr st / 200 < 9)%nat).
  { pose proof (Nat.div_mod_eq (itr st) 200). lia. }
  pose proof (Hchecks _ Hq) as Hiff.
  destruct (Rlt_dec time_cap (clock1 (S (itr st / 200)) - clock1 0%nat));
    destruct (Rlt_dec time_cap (clock2 (S (itr st / 200)) - clock2 0%nat));
    try reflexivity; tauto.
Qed.

Lemma sa_loop_same_checks (left : nat) (st : sa_state) :
  (2 <= length components)%nat -> cooled st -> ticked st ->
  sa_loop db tp clock1 left components (map ref components) w h mcu_ref
    time_cap (clock1 0%nat) st
  = sa_loop db tp clock2 left components (map ref components) w h mcu_ref
      time_cap (clock2 0%nat) st.
Proof.
  intros Hlen. revert st. induction left as [|left IH]; intros st Hc Ht; [reflexivity|].
  rewrite !sa_loop_succ.
  destruct (Rlt_dec T_min (T st)) as [Hhot|_]; [|reflexivity].
  rewrite Hc in Hhot. apply still_hot in Hhot.
  rewrite <- (sa_iteration_same_checks (map ref components) st Hhot Ht).
  pose proof (sa_iteration_cases db tp clock1 components w h mcu_ref time_cap
                (clock1 0%nat) (map ref components) st) as Hcases.
  destruct (sa_iteration db tp clock1 _ _ _ _ _ _ _ st) as [st1|st1|] eqn:Hit;
    [reflexivity| |reflexivity].
  apply IH.
  - eapply cooled_step; eauto.
  - eapply ticked_step; [exact Ht|exact Hit|tauto].
Qed.

Lemma simulated_annealing_same_checks (placement : placement_t) (g : nat) :
  simulated_annealing db tp clock1 components placement w h mcu_ref time_cap g
  = simulated_annealing db tp clock2 components placement w h mcu_ref time_cap g.
Proof.
  unfold simulated_annealing.
  destruct (length components <=? 1)%nat eqn:Hle; [reflexivity|].
  apply Nat.leb_gt in Hle.
  rewrite sa_loop_same_checks; [reflexivity|lia| |reflexivity].
  unfold cooled. simpl. lra.
Qed.

End SameChecks.

(** C9, as the code has it: the stage takes no seed; its output
    (positions, rotations, references, scores, iteration count) is
    determined by the component list, the board, the catalogue, the
    sequence of outcomes the generator yields and the outcomes of the time
    checks.  Two runs on the same outcomes of the generator produce the
    same output when, at each of the nine checks the loop can reach, the
    time elapsed since the start of the optimiser exceeds the budget in
    both or in neither; the readings of the clock matter in no other
    way. *)
Theorem same_checks_same_output (db : catalog) (tp : tape)
    (clock1 clock2 : nat -> R) (res : resolved) (board : option (R * R))
    (components : list component) (placement : placement_t) (w h : R)
    (mcu_ref : option string) (time_cap : R) (g : nat) :
  same_checks 10 clock1 clock2 -> same_checks time_cap clock1 clock2 ->
  run db tp clock1 res board = run db tp clock2 res board
  /\ simulated_annealing db tp clock1 components placement w h mcu_ref time_cap g
     = simulated_annealing db tp clock2 components placement w h mcu_ref time_cap g.
Proof.
  intros H10 Hcap. split.
  - unfold run. destruct (or_else board (100, 80)) as [bw bh].
    destruct (resolved_components res) as [|rc l]; [reflexivity|].
    destruct (initial_placement db tp _ bw bh 3 0) as [pl g'].
    rewrite (simulated_annealing_same_checks db tp clock1 clock2 _ bw bh _ 10 H10).
    reflexivity.
  - apply simulated_annealing_same_checks. exact Hcap.
Qed.

(** ** Instances on concrete inputs *)

Lemma trivial_case_witness :
  (length one_part <= 1)%nat
  /\ (length (resolved_components one_resolved) <= 1)%nat
  /\ (simulated_annealing ∅ quiet_tape clock_still one_part at_origin 100 80 None 10 0
      = Some (at_origin, 0, 0, 0%nat)
      /\ exists d, run ∅ quiet_tape clock_still one_resolved None = Some d
                   /\ score_initial d = 0 /\ score_final d = 0
                   /\ iterations d = 0%nat).
Proof.
  split; [simpl; lia|]. split; [simpl; lia|].
  apply (trivial_case ∅ quiet_tape clock_still one_part at_origin 100 80 None 10 0
           one_resolved None); simpl; lia.
Defined.

Lemma final_score_le_initial_witness :
  (1 < length two_parts)%nat
  /\ placed (map ref two_parts) seed_two
  /\ exists best_placement init_s final_s n,
       simulated_annealing ∅ quiet_tape clock_still two_parts seed_two 100 80 None 10 0
       = Some (best_placement, init_s, final_s, n)
       /\ init_s = score ∅ two_parts seed_two 100 80 None
       /\ final_s = score ∅ two_parts best_placement 100 80 None
       /\ final_s <= init_s.
Proof.
  split; [simpl; lia|]. split; [exact placed_seed_two|].
  apply (final_score_le_initial ∅ quiet_tape clock_still two_parts seed_two
           100 80 None 10 0); [simpl; lia|exact placed_seed_two].
Defined.

Lemma iterations_below_cap_witness :
  (1 < length two_parts)%nat
  /\ placed (map ref two_parts) seed_two
  /\ exists best_placement init_s final_s n,
       simulated_annealing ∅ quiet_tape clock_ticking two_parts seed_two 100 80 None 10 0
       = Some (best_placement, init_s, final_s, n)
       /\ (n <= 1690)%nat /\ (1690 < MAX_ITR)%nat
       /\ T_init * alpha ^ 1690 <= T_min.
Proof.
  split; [simpl; lia|]. split; [exact placed_seed_two|].
  apply (iterations_below_cap ∅ quiet_tape clock_ticking two_parts seed_two
           100 80 None 10 0); [simpl; lia|exact placed_seed_two].
Defined.

Lemma inflated_unknown (rc : component) :
  spec_inflated_width ∅ rc = 5 + 2 * 0.25
  /\ spec_inflated_height ∅ rc = 5 + 2 * 0.25.
Proof.
  unfold spec_inflated_width, spec_inflated_height, spec_clearance, get_comp.
  rewrite lookup_empty. split; reflexivity.
Qed.

Lemma overlap_term_sound_witness :
  (forall rc, rc ∈ two_parts ->
     0 < spec_inflated_width ∅ rc /\ 0 < spec_inflated_height ∅ rc)
  /\ (overlap_term ∅ two_parts seed_two = 0
      <-> forall i j a b, (i < j)%nat ->
            two_parts !! i = Some a -> two_parts !! j = Some b ->
            ~ spec_intersect ∅ seed_two a b).
Proof.
  assert (Hpos : forall rc, rc ∈ two_parts ->
            0 < spec_inflated_width ∅ rc /\ 0 < spec_inflated_height ∅ rc).
  { intros rc _. destruct (inflated_unknown rc) as [-> ->]. lra. }
  split; [exact Hpos|].
  apply (overlap_term_sound ∅ two_parts seed_two Hpos).
Defined.

Lemma wiring_term_correct_witness :
  "U1" <> ""
  /\ is_Some (seed_two !! "U1")
  /\ (wire_length_score ∅ two_parts seed_two (Some "U1")
      = spec_wiring_term ∅ two_parts seed_two "U1"
      /\ wire_length_score ∅ two_parts seed_two None = 0).
Proof.
  assert (Hne : "U1" <> "") by discriminate.
  assert (Hin : is_Some (seed_two !! "U1")) by (eexists; reflexivity).
  split; [exact Hne|]. split; [exact Hin|].
  apply (wiring_term_correct ∅ two_parts seed_two "U1" Hne Hin).
Defined.

Lemma zone_any_or_unrecognised_witness :
  (zone_of (get_comp db_corner "jack") = "any"
   \/ zone_of (get_comp db_corner "jack") ∉ spec_zone_names)
  /\ (zone_centre (zone_of (get_comp db_corner "jack")) 100 80 3 = (100 / 2, 80 / 2)
      /\ (zone_of (get_comp db_corner "jack") = "any" ->
          zone_penalty db_corner "U1" "jack" at_origin 100 80 3 = 0)
      /\ (zone_of (get_comp db_corner "jack") <> "any" ->
          zone_penalty db_corner "U1" "jack" at_origin 100 80 3
          = spec_distance (get_pos "U1" at_origin) (100 / 2, 80 / 2)
            * zone_weight (priority_of (get_comp db_corner "jack")))).
Proof.
  assert (Hz : zone_of (get_comp db_corner "jack") = "any"
               \/ zone_of (get_comp db_corner "jack") ∉ spec_zone_names).
  { right. change (zone_of (get_comp db_corner "jack")) with "corner".
    exact corner_unrecognised. }
  split; [exact Hz|].
  apply (zone_any_or_unrecognised db_corner "U1" "jack" at_origin 100 80 Hz).
Defined.

Lemma same_checks_late (time_cap : R) : same_checks time_cap clock_ticking clock_late.
Proof.
  intros k _. unfold clock_ticking, clock_late.
  generalize (INR (S k)) (INR 0). intros a b. split; intros; lra.
Qed.

Lemma same_checks_same_output_witness :
  same_checks 10 clock_ticking clock_late
  /\ same_checks 2.5 clock_ticking clock_late
  /\ (run db_mixed tape_swap clock_ticking mixed_parts (Some (30, 30))
      = run db_mixed tape_swap clock_late mixed_parts (Some (30, 30))
      /\ simulated_annealing db_mixed tape_swap clock_ticking mixed_components seed_mixed
           30 30 None 2.5 6
         = simulated_annealing db_mixed tape_swap clock_late mixed_components seed_mixed
             30 30 None 2.5 6).
Proof.
  split; [exact (same_checks_late 10)|]. split; [exact (same_checks_late 2.5)|].
  apply (same_checks_same_output db_mixed tape_swap clock_ticking clock_late
           mixed_parts (Some (30, 30)) mixed_components seed_mixed 30 30 None 2.5 6
           (same_checks_late 10) (same_checks_late 2.5)).
Defined.

(** ** Further instances on concrete inputs *)

Lemma dims_unknown (id : string) :
  dims_of (get_comp ∅ id) = {| width := 5; height := 5 |}.
Proof. unfold dims_of, get_comp. rewrite lookup_empty. reflexivity. Qed.

Lemma NoDup_two_parts : NoDup (map ref two_parts).
Proof.
  simpl. apply NoDup_cons. split; [|apply NoDup_singleton].
  intros Hin. apply list_elem_of_singleton in Hin. discriminate.
Qed.

Lemma on_grid_IZR_over_100 (z : Z) (v : R) : v * 100 = IZR z -> on_grid v.
Proof. intros Hv. exists z. rewrite <- Hv. simpl. ring. Qed.

Lemma fits_unknown (rc : component) :
  fits 100 80 3 (dims_of (get_comp ∅ (component_id rc))).
Proof.
  rewrite dims_unknown. unfold fits. cbn [width height].
  split; [lra|]. split; [lra|].
  split; [apply (on_grid_IZR_over_100 550); lra|].
  split; [apply (on_grid_IZR_over_100 9450); lra|].
  split; [apply (on_grid_IZR_over_100 550); lra|].
  apply (on_grid_IZR_over_100 7450); lra.
Qed.

Lemma seed_two_entries (r : string) (p : pos) :
  seed_two !! r = Some p ->
  p = {| x := 10; y := 10; rotation := 0 |}
  \/ p = {| x := 20; y := 10; rotation := 0 |}.
Proof.
  unfold seed_two. intros Hp.
  apply lookup_insert_Some in Hp as [[_ <-]|[_ Hp]]; [left; reflexivity|].
  apply lookup_singleton_Some in Hp as [_ <-]. right; reflexivity.
Qed.

Lemma quarter_turns_seed_two : quarter_turns seed_two.
Proof.
  intros r p Hp. apply seed_two_entries in Hp as [-> | ->]; left; reflexivity.
Qed.

Lemma contained_seed_two : contained_all ∅ two_parts 100 80 3 seed_two.
Proof.
  intros rc p _ Hp. rewrite dims_unknown. unfold spec_contained. cbn [width height].
  apply seed_two_entries in Hp as [-> | ->]; cbn [x y]; lra.
Qed.

Lemma refs_distinct_digit_free_witness :
  Forall (fun rc => ends_with_digit (prefix_of db_mixed rc) = false)
    (resolved_components mixed_parts)
  /\ NoDup (map ref (assign_refs db_mixed (resolved_components mixed_parts))).
Proof.
  assert (H : Forall (fun rc => ends_with_digit (prefix_of db_mixed rc) = false)
                (resolved_components mixed_parts))
    by (repeat constructor).
  split; [exact H|].
  apply (refs_distinct_digit_free db_mixed (resolved_components mixed_parts) H).
Defined.

Lemma refs_distinct_table_prefixes_witness :
  Forall (fun rc =>
            truthy (ref_designator_prefix (get_comp db_mixed (rc_component_id rc))) = None)
    (resolved_components mixed_parts)
  /\ NoDup (map ref (assign_refs db_mixed (resolved_components mixed_parts))).
Proof.
  assert (H : Forall (fun rc =>
                 truthy (ref_designator_prefix
                           (get_comp db_mixed (rc_component_id rc))) = None)
                (resolved_components mixed_parts))
    by (repeat constructor).
  split; [exact H|].
  apply (refs_distinct_table_prefixes db_mixed (resolved_components mixed_parts) H).
Defined.

Lemma zone_centre_inside_witness :
  0 <= 3 /\ 2 * 3 <= 100 /\ 2 * 3 <= 80
  /\ (3 <= fst (zone_centre "edge_top" 100 80 3) <= 100 - 3
      /\ 3 <= snd (zone_centre "edge_top" 100 80 3) <= 80 - 3).
Proof.
  assert (H0 : 0 <= 3) by lra.
  assert (H1 : 2 * 3 <= 100) by lra.
  assert (H2 : 2 * 3 <= 80) by lra.
  split; [exact H0|]. split; [exact H1|]. split; [exact H2|].
  apply (zone_centre_inside "edge_top" 100 80 3 H0 H1 H2).
Defined.

Lemma score_ignores_rotation_witness :
  seed_two !! "U1" = Some (at_xy 10 10)
  /\ score ∅ two_parts
       (<[ "U1" := {| x := x (at_xy 10 10); y := y (at_xy 10 10); rotation := 90 |} ]>
          seed_two) 100 80 None
     = score ∅ two_parts seed_two 100 80 None.
Proof.
  assert (H : seed_two !! "U1" = Some (at_xy 10 10)) by reflexivity.
  split; [exact H|].
  apply (score_ignores_rotation ∅ two_parts seed_two 100 80 None "U1" (at_xy 10 10) 90 H).
Defined.

Lemma overlap_penalty_area_witness :
  0 < spec_inflated_width ∅ (part "r10k" "U1")
  /\ 0 < spec_inflated_height ∅ (part "r10k" "U1")
  /\ 0 < spec_inflated_width ∅ (part "c100n" "U2")
  /\ 0 < spec_inflated_height ∅ (part "c100n" "U2")
  /\ (50 * spec_common_area ∅ seed_two (part "r10k" "U1") (part "c100n" "U2")
      <= overlap_penalty ∅ (ref (part "r10k" "U1")) (part "r10k" "U1")
           (ref (part "c100n" "U2")) (part "c100n" "U2") seed_two
      /\ (Rabs (spec_inflated_width ∅ (part "r10k" "U1")
                - spec_inflated_width ∅ (part "c100n" "U2")) / 2
          <= Rabs (fst (get_pos (ref (part "r10k" "U1")) seed_two)
                   - fst (get_pos (ref (part "c100n" "U2")) seed_two)) ->
          Rabs (spec_inflated_height ∅ (part "r10k" "U1")
                - spec_inflated_height ∅ (part "c100n" "U2")) / 2
          <= Rabs (snd (get_pos (ref (part "r10k" "U1")) seed_two)
                   - snd (get_pos (ref (part "c100n" "U2")) seed_two)) ->
          overlap_penalty ∅ (ref (part "r10k" "U1")) (part "r10k" "U1")
            (ref (part "c100n" "U2")) (part "c100n" "U2") seed_two
          = 50 * spec_common_area ∅ seed_two (part "r10k" "U1") (part "c100n" "U2"))).
Proof.
  destruct (inflated_unknown (part "r10k" "U1")) as [Wa Ha].
  destruct (inflated_unknown (part "c100n" "U2")) as [Wb Hb].
  assert (H1 : 0 < spec_inflated_width ∅ (part "r10k" "U1")) by (rewrite Wa; lra).
  assert (H2 : 0 < spec_inflated_height ∅ (part "r10k" "U1")) by (rewrite Ha; lra).
  assert (H3 : 0 < spec_inflated_width ∅ (part "c100n" "U2")) by (rewrite Wb; lra).
  assert (H4 : 0 < spec_inflated_height ∅ (part "c100n" "U2")) by (rewrite Hb; lra).
  split; [exact H1|]. split; [exact H2|]. split; [exact H3|]. split; [exact H4|].
  apply (overlap_penalty_area ∅ seed_two (part "r10k" "U1") (part "c100n" "U2")
           H1 H2 H3 H4).
Defined.

Lemma initial_placement_contained_witness :
  NoDup (map ref two_parts)
  /\ (forall rc, rc ∈ two_parts ->
        fits 100 80 3 (dims_of (get_comp ∅ (component_id rc))))
  /\ contained_all ∅ two_parts 100 80 3
       (initial_placement ∅ quiet_tape two_parts 100 80 3 0).1.
Proof.
  assert (Hfit : forall rc, rc ∈ two_parts ->
            fits 100 80 3 (dims_of (get_comp ∅ (component_id rc))))
    by (intros rc _; apply fits_unknown).
  split; [exact NoDup_two_parts|]. split; [exact Hfit|].
  apply (initial_placement_contained ∅ quiet_tape two_parts 100 80 3 0
           NoDup_two_parts Hfit).
Defined.

Lemma anneal_keeps_keys_witness :
  placed (map ref two_parts) seed_two
  /\ exists b i f n,
       simulated_annealing ∅ quiet_tape clock_ticking two_parts seed_two 100 80 None 10 0
       = Some (b, i, f, n)
       /\ dom b = dom seed_two.
Proof.
  split; [exact placed_seed_two|].
  apply (anneal_keeps_keys ∅ quiet_tape clock_ticking two_parts 100 80 None seed_two
           10 0 placed_seed_two).
Defined.

Lemma anneal_quarter_turns_witness :
  placed (map ref two_parts) seed_two
  /\ quarter_turns seed_two
  /\ exists b i f n,
       simulated_annealing ∅ quiet_tape clock_ticking two_parts seed_two 100 80 None 10 0
       = Some (b, i, f, n)
       /\ quarter_turns b.
Proof.
  split; [exact placed_seed_two|]. split; [exact quarter_turns_seed_two|].
  apply (anneal_quarter_turns ∅ quiet_tape clock_ticking two_parts 100 80 None seed_two
           10 0 placed_seed_two quarter_turns_seed_two).
Defined.

Lemma anneal_contained_without_swap_witness :
  (1 < length two_parts)%nat
  /\ placed (map ref two_parts) seed_two
  /\ NoDup (map ref two_parts)
  /\ (forall rc, rc ∈ two_parts ->
        fits 100 80 3 (dims_of (get_comp ∅ (component_id rc))))
  /\ (forall k, t_unit quiet_tape k < 0.7)
  /\ contained_all ∅ two_parts 100 80 3 seed_two
  /\ exists b i f n,
       simulated_annealing ∅ quiet_tape clock_ticking two_parts seed_two 100 80 None 10 0
       = Some (b, i, f, n)
       /\ contained_all ∅ two_parts 100 80 3 b.
Proof.
  assert (Hlen : (1 < length two_parts)%nat) by (simpl; lia).
  assert (Hfit : forall rc, rc ∈ two_parts ->
            fits 100 80 3 (dims_of (get_comp ∅ (component_id rc))))
    by (intros rc _; apply fits_unknown).
  assert (Htape : forall k, t_unit quiet_tape k < 0.7) by (intros k; simpl; lra).
  split; [exact Hlen|]. split; [exact placed_seed_two|].
  split; [exact NoDup_two_parts|]. split; [exact Hfit|]. split; [exact Htape|].
  split; [exact contained_seed_two|].
  apply (anneal_contained_without_swap ∅ quiet_tape clock_ticking two_parts 100 80 None
           seed_two 10 0 Hlen placed_seed_two NoDup_two_parts Hfit Htape
           contained_seed_two).
Defined.

Lemma anneal_seed_or_better_witness :
  (1 < length two_parts)%nat
  /\ placed (map ref two_parts) seed_two
  /\ exists b i f n,
       simulated_annealing ∅ quiet_tape clock_ticking two_parts seed_two 100 80 None 10 0
       = Some (b, i, f, n)
       /\ ((b = seed_two /\ f = i) \/ f < i).
Proof.
  assert (Hlen : (1 < length two_parts)%nat) by (simpl; lia).
  split; [exact Hlen|]. split; [exact placed_seed_two|].
  apply (anneal_seed_or_better ∅ quiet_tape clock_ticking two_parts 100 80 None seed_two
           10 0 Hlen placed_seed_two).
Defined.

Lemma anneal_stops_at_first_expired_check_witness :
  (1 < length two_parts)%nat
  /\ placed (map ref two_parts) seed_two
  /\ (forall j, (j < 9)%nat ->
        (forall k, (k < j)%nat -> ~ 2.5 < clock_ticking (S k) - clock_ticking 0) ->
        2.5 < clock_ticking (S j) - clock_ticking 0 ->
        exists b i f,
          simulated_annealing ∅ quiet_tape clock_ticking two_parts seed_two
            100 80 None 2.5 0
          = Some (b, i, f, (200 * j)%nat))
  /\ ((forall k, (k < 9)%nat -> ~ 2.5 < clock_ticking (S k) - clock_ticking 0) ->
      exists b i f,
        simulated_annealing ∅ quiet_tape clock_ticking two_parts seed_two
          100 80 None 2.5 0
        = Some (b, i, f, 1690%nat)).
Proof.
  assert (Hlen : (1 < length two_parts)%nat) by (simpl; lia).
  split; [exact Hlen|]. split; [exact placed_seed_two|].
  apply (anneal_stops_at_first_expired_check ∅ quiet_tape clock_ticking two_parts
           100 80 None seed_two 2.5 0 Hlen placed_seed_two).
Defined.

Lemma mcu_found_and_wired_witness :
  "c100n" ∈ map rc_component_id two_resolved
  /\ exists m,
       find_mcu_ref (assign_refs ∅ two_resolved) (Some "c100n") = Some m
       /\ m <> ""
       /\ is_Some ((initial_placement ∅ quiet_tape (assign_refs ∅ two_resolved)
                      100 80 3 0).1 !! m)
       /\ wire_length_score ∅ (assign_refs ∅ two_resolved)
            (initial_placement ∅ quiet_tape (assign_refs ∅ two_resolved) 100 80 3 0).1
            (Some m)
          = spec_wiring_term ∅ (assign_refs ∅ two_resolved)
              (initial_placement ∅ quiet_tape (assign_refs ∅ two_resolved) 100 80 3 0).1
              m.
Proof.
  assert (H : "c100n" ∈ map rc_component_id two_resolved)
    by (simpl; repeat constructor).
  split; [exact H|].
  apply (mcu_found_and_wired ∅ quiet_tape two_resolved "c100n" 100 80 0 H).
Defined.

Lemma apply_overrides_distinct_witness :
  map (fun c : gmap string string => c !! "ref") file_components
  = map Some [ "U1"; "U2" ]
  /\ NoDup [ "U1"; "U2" ]
  /\ apply_overrides str_value file_components file_overrides
     = Some (map (fun rc => overridden str_value file_overrides rc.1 rc.2)
               (zip [ "U1"; "U2" ] file_components)).
Proof.
  assert (H : map (fun c : gmap string string => c !! "ref") file_components
              = map Some [ "U1"; "U2" ]) by reflexivity.
  assert (Hnd : NoDup [ "U1"; "U2" ]).
  { apply NoDup_cons. split; [|apply NoDup_singleton].
    intros Hin. apply list_elem_of_singleton in Hin. discriminate. }
  split; [exact H|]. split; [exact Hnd|].
  apply (apply_overrides_distinct str_value file_components file_overrides [ "U1"; "U2" ] H Hnd).
Defined.
